(** * Fleet execution engine: a shallow embedding and its properties

    The development follows the Python sources file by file:
    - [Py]              the fragment of Python's [str] API the engine uses;
    - [NodeConfig] ...  the pydantic models of [config/settings.py];
    - [ConfigManager]   the read side of the configuration manager;
    - [NodeSelector]    [cli/node_selector.py];
    - the section [Engine]: [core/node_manager.py], [core/task_executor.py]
      and [core/script_executor.py], written in a state-and-exception monad
      over the heap of connection objects, the pool's dictionary and the
      external collaborators (ssh client library, clock, file system).

    Strings are byte strings: a Python [str] is represented by its UTF-8
    encoding. White space ([strip], [split]) is Python's, in that encoding,
    and so are [split] at a character, [startswith] and the test for
    emptiness. The digit test, the conversion to integers and [lower] are
    those of Python on ASCII strings ([isascii]): outside ASCII they depend
    on the Unicode character tables, which are not part of the development.
    [lower] is only ever compared with ASCII text; the comparisons with the
    keywords of the selector and with the script extensions are not affected
    (the one character outside ASCII whose lower case is an ASCII letter,
    the Kelvin sign, gives [k], which occurs in none of them). The
    properties of the selector that depend on the digit test, on the
    conversion or on the lower case of a node name are stated for ASCII
    selections and names, and say so in their hypotheses. *)

From Stdlib Require Import ZArith List Ascii String Bool Lia Permutation.
From stdpp Require Import base option gmap sets list strings.

Open Scope string_scope.
Open Scope Z_scope.

(** ** Python strings *)

Module Py.

(** [str.isspace] on one ASCII character: TAB..CR, FS..US and SPACE. *)
Definition isspace (c : ascii) : bool :=
  let n := nat_of_ascii c in
  (Nat.leb 9 n && Nat.leb n 13) || (Nat.leb 28 n && Nat.leb n 32).

Definition isdigit_char (c : ascii) : bool :=
  let n := nat_of_ascii c in Nat.leb 48 n && Nat.leb n 57.

Definition lower_char (c : ascii) : ascii :=
  let n := nat_of_ascii c in
  if Nat.leb 65 n && Nat.leb n 90 then ascii_of_nat (n + 32) else c.

(** [s.lower()] of an ASCII string; the bytes of the other characters are
    kept as they are. *)
Fixpoint lower (s : string) : string :=
  match s with
  | EmptyString => EmptyString
  | String c r => String (lower_char c) (lower r)
  end.

(** [s.isascii()]: every byte is below 128. *)
Fixpoint isascii (s : string) : bool :=
  match s with
  | EmptyString => true
  | String c r => Nat.ltb (nat_of_ascii c) 128 && isascii r
  end.

(** The most digits [int] converts (CPython's default
    [sys.int_info.default_max_str_digits]). *)
Definition int_max_str_digits : nat := 4300.

(** The number of bytes of the white-space character at the head of [s],
    0 when [s] does not start with one. Python's white space
    ([str.isspace]) is U+0009..U+000D, U+001C..U+0020, U+0085, U+00A0,
    U+1680, U+2000..U+200A, U+2028, U+2029, U+202F, U+205F and U+3000; in
    UTF-8 these are one byte, [C2 85], [C2 A0], [E1 9A 80], [E2 80 80] ..
    [E2 80 8A], [E2 80 A8], [E2 80 A9], [E2 80 AF], [E2 81 9F] and
    [E3 80 80]. *)
Definition ws_width (s : string) : nat :=
  match s with
  | EmptyString => O
  | String c r =>
      if isspace c then 1%nat
      else
        let n := nat_of_ascii c in
        match r with
        | EmptyString => O
        | String c1 r1 =>
            let n1 := nat_of_ascii c1 in
            if Nat.eqb n 194 && (Nat.eqb n1 133 || Nat.eqb n1 160) then 2%nat
            else
              match r1 with
              | EmptyString => O
              | String c2 _ =>
                  let n2 := nat_of_ascii c2 in
                  if (Nat.eqb n 225 && Nat.eqb n1 154 && Nat.eqb n2 128)
                     || (Nat.eqb n 226 && Nat.eqb n1 128
                         && ((Nat.leb 128 n2 && Nat.leb n2 138)
                             || Nat.eqb n2 168 || Nat.eqb n2 169 || Nat.eqb n2 175))
                     || (Nat.eqb n 226 && Nat.eqb n1 129 && Nat.eqb n2 159)
                     || (Nat.eqb n 227 && Nat.eqb n1 128 && Nat.eqb n2 128)
                  then 3%nat else O
              end
        end
  end.

(** [s.lstrip()] *)
Fixpoint lstrip (s : string) : string :=
  match s with
  | EmptyString => EmptyString
  | String c r =>
      match ws_width s with
      | 1%nat => lstrip r
      | 2%nat => match r with
                 | String _ r1 => lstrip r1
                 | EmptyString => s
                 end
      | 3%nat => match r with
                 | String _ (String _ r2) => lstrip r2
                 | _ => s
                 end
      | _ => s
      end
  end.

(** [s] holds white space only. *)
Fixpoint all_ws (s : string) : bool :=
  match s with
  | EmptyString => true
  | String c r =>
      match ws_width s with
      | 1%nat => all_ws r
      | 2%nat => match r with
                 | String _ r1 => all_ws r1
                 | EmptyString => false
                 end
      | 3%nat => match r with
                 | String _ (String _ r2) => all_ws r2
                 | _ => false
                 end
      | _ => false
      end
  end.

(** [s.rstrip()]: the text up to the point from which only white space
    follows. *)
Fixpoint rstrip (s : string) : string :=
  match s with
  | EmptyString => EmptyString
  | String c r => if all_ws s then EmptyString else String c (rstrip r)
  end.

(** [s.strip()] *)
Definition strip (s : string) : string := rstrip (lstrip s).

(** [s.split(sep)] for a one-character separator; [''.split(',') == ['']]. *)
Fixpoint split (sep : ascii) (s : string) : list string :=
  match s with
  | EmptyString => [EmptyString]
  | String c r =>
      if Ascii.eqb c sep then EmptyString :: split sep r
      else match split sep r with
           | h :: t => String c h :: t
           | [] => [String c EmptyString]
           end
  end.

(** [s.split()]: the maximal runs of characters that are not white
    space. A byte that starts no white-space character belongs to a word;
    the word ends where the text ends or a white-space character starts. *)
Fixpoint split_ws (s : string) : list string :=
  match s with
  | EmptyString => []
  | String c r =>
      match ws_width s with
      | 1%nat => split_ws r
      | 2%nat => match r with
                 | String _ r1 => split_ws r1
                 | EmptyString => []
                 end
      | 3%nat => match r with
                 | String _ (String _ r2) => split_ws r2
                 | _ => []
                 end
      | _ =>
          match r with
          | EmptyString => [String c EmptyString]
          | String _ _ =>
              match ws_width r with
              | O => match split_ws r with
                     | h :: t => String c h :: t
                     | [] => [String c EmptyString]
                     end
              | _ => String c EmptyString :: split_ws r
              end
          end
      end
  end.

(** [sep.join(l)] *)
Definition join (sep : string) (l : list string) : string := String.concat sep l.

(** [s.startswith(p)] *)
Definition startswith (s p : string) : bool := String.prefix p s.

(** [c in s] for a character [c]. *)
Fixpoint contains_char (c : ascii) (s : string) : bool :=
  match s with
  | EmptyString => false
  | String d r => Ascii.eqb c d || contains_char c r
  end.

Fixpoint all_digits (s : string) : bool :=
  match s with
  | EmptyString => true
  | String c r => isdigit_char c && all_digits r
  end.

(** [s.isdigit()] of an ASCII string: non-empty and made of the digits 0
    to 9 only. *)
Definition isdigit (s : string) : bool :=
  match s with
  | EmptyString => false
  | _ => all_digits s
  end.

Fixpoint int_digits (acc : Z) (s : string) : Z :=
  match s with
  | EmptyString => acc
  | String c r => int_digits (10 * acc + (Z.of_nat (nat_of_ascii c) - 48)) r
  end.

(** The digits of a decimal literal: a digit first, then digits with
    single underscores between them. *)
Fixpoint literal_digits (after_digit : bool) (s : string) : option string :=
  match s with
  | EmptyString => if after_digit then Some EmptyString else None
  | String c r =>
      if isdigit_char c
      then match literal_digits true r with
           | Some d => Some (String c d)
           | None => None
           end
      else if Ascii.eqb c "_" && after_digit then literal_digits false r
      else None
  end.

(** The optional sign of a literal, and what follows it. *)
Definition signed (t : string) : bool * string :=
  match t with
  | String "-" u => (true, u)
  | String "+" u => (false, u)
  | _ => (false, t)
  end.

(** [int(s)] of an ASCII string: surrounding white space, an optional
    sign, a decimal literal of at most [int_max_str_digits] digits; [None]
    stands for the [ValueError] raised otherwise. *)
Definition int (s : string) : option Z :=
  let '(negative, literal) := signed (strip s) in
  match literal_digits false literal with
  | Some d =>
      if Nat.leb (String.length d) int_max_str_digits
      then Some (if negative then - int_digits 0 d else int_digits 0 d)
      else None
  | None => None
  end.

(** The longest prefix of digits and what follows it. *)
Fixpoint span_digits (s : string) : string * string :=
  match s with
  | EmptyString => (EmptyString, EmptyString)
  | String c r =>
      if isdigit_char c
      then let '(d, rest) := span_digits r in (String c d, rest)
      else (EmptyString, s)
  end.

(** [bool(s)]: a string is truthy when it is not empty. *)
Definition truthy (s : string) : bool :=
  match s with EmptyString => false | _ => true end.

(** The text before the first line feed. *)
Fixpoint first_line (s : string) : string :=
  match s with
  | EmptyString => EmptyString
  | String c r => if Ascii.eqb c "010"%char then EmptyString else String c (first_line r)
  end.

End Py.

(** ** config/settings.py *)

Module NodeConfig.
Record t := mk {
  id : Z;
  ip : string;
  name : string;
  enabled : bool;
  username : option string;
  password : option string;
  port : option Z
}.
End NodeConfig.

Module SSHConfig.
Record t := mk {
  username : string;
  port : Z;
  timeout : Z;
  key_file : option string;
  password : option string
}.
End SSHConfig.

Module ExecutionConfig.
Record t := mk {
  max_concurrent : Z;
  retry_count : Z;
  retry_delay : Z;
  command_timeout : Z
}.
End ExecutionConfig.

Module Config.
Record t := mk {
  nodes : list NodeConfig.t;
  ssh : SSHConfig.t;
  execution : ExecutionConfig.t
}.
End Config.

#[global] Instance NodeConfig_eq_dec : EqDecision NodeConfig.t.
Proof. solve_decision. Defined.

Module ConfigManager.

(** [get_nodes(enabled_only)] on the loaded configuration. *)
Definition get_nodes (cfg : Config.t) (enabled_only : bool) : list NodeConfig.t :=
  if enabled_only
  then List.filter NodeConfig.enabled (Config.nodes cfg)
  else Config.nodes cfg.

(** [get_node_by_id]: the first node of the configuration with that id. *)
Definition get_node_by_id (cfg : Config.t) (node_id : Z) : option NodeConfig.t :=
  List.find (fun node => NodeConfig.id node =? node_id) (get_nodes cfg false).

(** [get_nodes_by_ids]: one lookup per requested id, in request order; an
    id without a node contributes nothing. *)
Fixpoint get_nodes_by_ids (cfg : Config.t) (node_ids : list Z) : list NodeConfig.t :=
  match node_ids with
  | [] => []
  | node_id :: rest =>
      match get_node_by_id cfg node_id with
      | Some node => node :: get_nodes_by_ids cfg rest
      | None => get_nodes_by_ids cfg rest
      end
  end.

(** The loop of [update_node_status]: the first node with the id gets the
    flag, and the loop stops there. *)
Fixpoint update_loop (node_id : Z) (enabled : bool) (nodes : list NodeConfig.t)
  : list NodeConfig.t :=
  match nodes with
  | [] => []
  | node :: rest =>
      if NodeConfig.id node =? node_id
      then NodeConfig.mk (NodeConfig.id node) (NodeConfig.ip node) (NodeConfig.name node)
             enabled (NodeConfig.username node) (NodeConfig.password node)
             (NodeConfig.port node) :: rest
      else node :: update_loop node_id enabled rest
  end.

(** [update_node_status]: the configuration it hands to [save_config]. *)
Definition update_node_status (cfg : Config.t) (node_id : Z) (enabled : bool) : Config.t :=
  Config.mk (update_loop node_id enabled (Config.nodes cfg))
    (Config.ssh cfg) (Config.execution cfg).

End ConfigManager.

(** ** cli/node_selector.py *)

Module NodeSelector.

(** The selector keeps the node list it read when it was constructed. *)
Record t := mk { all_nodes : list NodeConfig.t }.

(** [__init__] *)
Definition init (cfg : Config.t) : t := mk (ConfigManager.get_nodes cfg false).

(** [_is_range_format]: [re.match(r'^\d+-\d+$', part)] on an ASCII string;
    [$] also matches just before a final line feed. *)
Definition _is_range_format (part : string) : bool :=
  let '(a, rest) := Py.span_digits part in
  match a, rest with
  | String _ _, String "-"%char rest1 =>
      let '(b, rest2) := Py.span_digits rest1 in
      match b with
      | String _ _ => String.eqb rest2 "" || String.eqb rest2 (String "010"%char "")
      | EmptyString => false
      end
  | _, _ => false
  end.

(** [_parse_range]: any failure of the unpacking or of [int] (a
    [ValueError], caught here) gives []. *)
Definition _parse_range (self : t) (range_str : string) : list NodeConfig.t :=
  match Py.split "-"%char range_str with
  | [start_str; end_str] =>
      match Py.int start_str, Py.int end_str with
      | Some start_id, Some end_id =>
          let '(start_id, end_id) :=
            if start_id >? end_id then (end_id, start_id) else (start_id, end_id) in
          List.filter
            (fun node => (start_id <=? NodeConfig.id node) && (NodeConfig.id node <=? end_id))
            (all_nodes self)
      | _, _ => []
      end
  | _ => []
  end.

(** [_find_single_node]: by id, then by lower-cased name, then by address.
    After the digit test, [int] fails on an ASCII identifier only when it
    has more than [int_max_str_digits] digits: Python then raises a
    [ValueError] that nothing catches here. That exception is not
    represented (the lookup by id finds nothing instead); the properties of
    the selector are stated for identifiers that are not that long. *)
Definition _find_single_node (self : t) (identifier : string) : option NodeConfig.t :=
  let by_id :=
    if Py.isdigit identifier
    then match Py.int identifier with
         | Some node_id =>
             List.find (fun node => NodeConfig.id node =? node_id) (all_nodes self)
         | None => None
         end
    else None in
  match by_id with
  | Some node => Some node
  | None =>
      match List.find (fun node => String.eqb (Py.lower (NodeConfig.name node)) identifier)
                      (all_nodes self) with
      | Some node => Some node
      | None =>
          List.find (fun node => String.eqb (NodeConfig.ip node) identifier) (all_nodes self)
      end
  end.

(** The body of the loop over [parts]: what one token appends to
    [selected_nodes]. *)
Definition part_nodes (self : t) (part : string) : list NodeConfig.t :=
  if negb (Py.truthy part) then []
  else if Py.contains_char "-"%char part && _is_range_format part
       then _parse_range self part
       else match _find_single_node self part with
            | Some node => [node]
            | None => []
            end.

(** The final loop: keep a node when its id has not been seen yet. *)
Fixpoint unique_by_id (seen_ids : gset Z) (selected_nodes : list NodeConfig.t)
  : list NodeConfig.t :=
  match selected_nodes with
  | [] => []
  | node :: rest =>
      if decide (NodeConfig.id node ∈ seen_ids)
      then unique_by_id seen_ids rest
      else node :: unique_by_id ({[NodeConfig.id node]} ∪ seen_ids) rest
  end.

(** The tokens of a selection that is neither blank nor a keyword. *)
Definition parts_of (selection : string) : list string :=
  List.map Py.strip (Py.split ","%char (Py.lower (Py.strip selection))).

Definition selected_nodes (self : t) (selection : string) : list NodeConfig.t :=
  List.flat_map (part_nodes self) (parts_of selection).

Definition is_blank (selection : string) : bool :=
  negb (Py.truthy selection) || String.eqb (Py.strip selection) "".


(** [parse_selection]. The enabled nodes come from the configuration
    manager, the other keyword lists and the token lookups from the
    selector's own [all_nodes]. *)
Definition parse_selection (cfg : Config.t) (self : t) (selection : string)
  : list NodeConfig.t :=
  if is_blank selection then ConfigManager.get_nodes cfg true
  else
    let selection := Py.lower (Py.strip selection) in
    if String.eqb selection "all" || String.eqb selection "all-enabled"
    then ConfigManager.get_nodes cfg true
    else if String.eqb selection "all-disabled"
    then List.filter (fun node => negb (NodeConfig.enabled node)) (all_nodes self)
    else if String.eqb selection "all-all"
    then all_nodes self
    else
      let parts := List.map Py.strip (Py.split ","%char selection) in
      unique_by_id ∅ (List.flat_map (part_nodes self) parts).

End NodeSelector.

(** ** os.path *)

Module OsPath.

(** [os.path.basename]: what follows the last slash. *)
Fixpoint basename (p : string) : string :=
  match p with
  | EmptyString => EmptyString
  | String c r =>
      if Py.contains_char "/"%char r then basename r
      else if Ascii.eqb c "/"%char then r else p
  end.

(** Split at the last dot: the text before it and the text from it on. *)
Fixpoint rsplit_dot (s : string) : option (string * string) :=
  match s with
  | EmptyString => None
  | String c r =>
      match rsplit_dot r with
      | Some (b, e) => Some (String c b, e)
      | None => if Ascii.eqb c "."%char then Some (EmptyString, s) else None
      end
  end.

Fixpoint all_dots (s : string) : bool :=
  match s with
  | EmptyString => true
  | String c r => Ascii.eqb c "."%char && all_dots r
  end.

(** [os.path.splitext(p)[1]]: the suffix of the last path component from
    its last dot on, unless only dots precede that dot. *)
Definition splitext_ext (p : string) : string :=
  match rsplit_dot (basename p) with
  | Some (before, ext) => if all_dots before then EmptyString else ext
  | None => EmptyString
  end.

End OsPath.

(** ** Exceptions, results of calls *)

(** The exception classes that occur: the built-in ones the engine raises
    itself, and [LibraryError] for whatever the ssh client library, the
    socket layer or the file system raise. All of them derive from
    [Exception]. *)
Inductive ExcClass :=
  | Exception | ValueError | OverflowError | FileNotFoundError | AttributeError
  | LibraryError.

Record Exn := mkExn { exc_class : ExcClass; exc_msg : string }.

(** [str(e)] *)
Definition exn_str (e : Exn) : string := exc_msg e.

(** The outcome of a call: a value, a raised exception, or [Fault] when the
    model is asked to dereference a location that holds no object (which no
    Python run can do; it is never caught). *)
Inductive Result (A : Type) :=
  | Val (a : A)
  | Raise (e : Exn)
  | Fault.
Arguments Val {A} a.
Arguments Raise {A} e.
Arguments Fault {A}.

(** ** Data of the engine *)

(** Client handles and heap locations are numbers. *)
Abbreviation Handle := nat (only parsing).
Abbreviation Loc := nat (only parsing).

(** The keyword arguments of [paramiko.SSHClient.connect]. *)
Module ConnectKwargs.
Record t := mk {
  hostname : string;
  port : Z;
  username : string;
  timeout : Z;
  key_filename : option string;
  password : option string
}.
End ConnectKwargs.

Module SSHConnection.
Record t := mk {
  node : NodeConfig.t;
  ssh_config : SSHConfig.t;
  client : option Handle;
  connected : bool;
  last_activity : Z
}.
Definition set_client (v : option Handle) (c : t) : t :=
  mk (node c) (ssh_config c) v (connected c) (last_activity c).
Definition set_connected (v : bool) (c : t) : t :=
  mk (node c) (ssh_config c) (client c) v (last_activity c).
Definition set_last_activity (v : Z) (c : t) : t :=
  mk (node c) (ssh_config c) (client c) (connected c) v.
End SSHConnection.

Inductive TaskType :=
  | SHELL_COMMAND | DOCKER_PULL | DOCKER_BUILD | DOCKER_PUSH | FILE_UPLOAD | FILE_DOWNLOAD.

(** [str(task_type)] *)
Definition TaskType_str (t : TaskType) : string :=
  match t with
  | SHELL_COMMAND => "TaskType.SHELL_COMMAND"
  | DOCKER_PULL => "TaskType.DOCKER_PULL"
  | DOCKER_BUILD => "TaskType.DOCKER_BUILD"
  | DOCKER_PUSH => "TaskType.DOCKER_PUSH"
  | FILE_UPLOAD => "TaskType.FILE_UPLOAD"
  | FILE_DOWNLOAD => "TaskType.FILE_DOWNLOAD"
  end.

Module TaskResult.
Record t := mk {
  node_id : Z;
  node_name : string;
  node_ip : string;
  task_type : TaskType;
  command : string;
  success : bool;
  exit_code : option Z;
  stdout : string;
  stderr : string;
  execution_time : Z;
  error_message : string;
  retry_count : Z
}.
(** The constructor call with the dataclass defaults. *)
Definition new (node : NodeConfig.t) (tt : TaskType) (cmd : string) : t :=
  mk (NodeConfig.id node) (NodeConfig.name node) (NodeConfig.ip node) tt cmd
     false None "" "" 0 "" 0.
Definition set_outcome (code : Z) (out err : string) (r : t) : t :=
  mk (node_id r) (node_name r) (node_ip r) (task_type r) (command r)
     (code =? 0) (Some code) out err (execution_time r) (error_message r) (retry_count r).
Definition set_error_message (msg : string) (r : t) : t :=
  mk (node_id r) (node_name r) (node_ip r) (task_type r) (command r)
     (success r) (exit_code r) (stdout r) (stderr r) (execution_time r) msg (retry_count r).
Definition set_execution_time (v : Z) (r : t) : t :=
  mk (node_id r) (node_name r) (node_ip r) (task_type r) (command r)
     (success r) (exit_code r) (stdout r) (stderr r) v (error_message r) (retry_count r).
Definition set_retry_count (v : Z) (r : t) : t :=
  mk (node_id r) (node_name r) (node_ip r) (task_type r) (command r)
     (success r) (exit_code r) (stdout r) (stderr r) (execution_time r) (error_message r) v.
End TaskResult.

Module Task.
Record t := mk {
  task_type : TaskType;
  command : string;
  node_ids : list Z;
  timeout : Z;
  retry_count : Z;
  retry_delay : Z;
  extra_params : option (gmap string string)
}.
End Task.

(** What the engine asks of its collaborators, in call order, each request
    tagged with the id of the node on whose behalf it is made. *)
Inductive Op :=
  | OpNewClient (h : Handle)
  | OpConnect (h : Handle) (kwargs : ConnectKwargs.t)
  | OpClose (h : Handle)
  | OpExec (h : Handle) (command : string) (timeout : Z)
  | OpSleep (seconds : Z).

Definition Event : Type := Z * Op.

(** ** The external collaborators

    The ssh client library, the clock, the process environment and the file
    system, as functions of an abstract environment. Times are clock ticks;
    no property below depends on their arithmetic. A collaborator that fails
    reports the message of its exception; the engine sees it as an exception
    of class [LibraryError]. [client_close] and the reading of the clock
    cannot fail; [sleep_env] is the platform's part of [time.sleep], asked
    for a delay that has passed Python's own checks. *)
Class Collaborators := {
  Env : Type;
  time_time : Env -> Z * Env;
  sleep_env : Z -> Env -> option string * Env;
  os_path_expanduser : Env -> string -> string;
  os_path_exists : Env -> string -> bool;
  os_getenv : Env -> string -> option string;
  read_text : Env -> string -> string + string;
  client_connect : Handle -> ConnectKwargs.t -> Env -> option string * Env;
  client_close : Handle -> Env -> Env;
  client_exec_command : Handle -> string -> Z -> Env -> (string + (Z * string * string)) * Env;
  transport_is_active : Handle -> Env -> option bool
}.

Definition lib_error (msg : string) : Exn := mkExn LibraryError msg.

(** Python's [a or b] on optional strings and on an optional port. *)
Definition opt_truthy (a : option string) : bool :=
  match a with Some s => Py.truthy s | None => false end.

Definition or_opt (a b : option string) : option string :=
  if opt_truthy a then a else b.

Definition or_str (a : option string) (b : string) : string :=
  match a with
  | Some s => if Py.truthy s then s else b
  | None => b
  end.

Definition or_port (a : option Z) (b : Z) : Z :=
  match a with
  | Some p => if p =? 0 then b else p
  | None => b
  end.

Declare Scope py_scope.
Delimit Scope py_scope with py.

Section Engine.

Context `{Collaborators}.

(** The loaded configuration; the managers read their [ssh_config] and
    [execution_config] from it when they are constructed. *)
Variable cfg : Config.t.

(** The state of a run: the environment of the collaborators, the heap of
    [SSHConnection] objects, the pool's dictionary [connections] from node
    id to object (in insertion order), the next client handle and the
    requests made so far. *)
Record State := mkState {
  env : Env;
  heap : list SSHConnection.t;
  connections : list (Z * Loc);
  next_handle : Handle;
  trace : list Event
}.

Definition M (A : Type) : Type := State -> Result A * State.

Definition ret {A} (a : A) : M A := fun st => (Val a, st).

Definition bind {A B} (m : M A) (k : A -> M B) : M B :=
  fun st =>
    match m st with
    | (Val a, st') => k a st'
    | (Raise e, st') => (Raise e, st')
    | (Fault, st') => (Fault, st')
    end.

Definition raise {A} (e : Exn) : M A := fun st => (Raise e, st).

(** [try: m  except Exception as e: handler e] *)
Definition try_except {A} (m : M A) (handler : Exn -> M A) : M A :=
  fun st =>
    match m st with
    | (Raise e, st') => handler e st'
    | r => r
    end.

Notation "'let*' x ':=' c1 'in' c2" := (bind c1 (fun x => c2))
  (at level 10, x name, c1 at level 100, c2 at level 200) : py_scope.
Notation "'let*' ' x ':=' c1 'in' c2" := (bind c1 (fun x => c2))
  (at level 10, x pattern, c1 at level 100, c2 at level 200) : py_scope.
Notation "c1 ;;; c2" := (bind c1 (fun _ => c2))
  (at level 100, c2 at level 200, right associativity) : py_scope.

Local Open Scope py_scope.

Definition with_env (e : Env) (st : State) : State :=
  mkState e (heap st) (connections st) (next_handle st) (trace st).
Definition with_heap (h : list SSHConnection.t) (st : State) : State :=
  mkState (env st) h (connections st) (next_handle st) (trace st).
Definition with_connections (d : list (Z * Loc)) (st : State) : State :=
  mkState (env st) (heap st) d (next_handle st) (trace st).
Definition with_trace (t : list Event) (st : State) : State :=
  mkState (env st) (heap st) (connections st) (next_handle st) t.

Definition emit (ev : Event) : M unit :=
  fun st => (Val tt, with_trace (trace st ++ [ev]) st).

(** Reading and updating the object at a location. *)
Definition load (l : Loc) : M SSHConnection.t :=
  fun st => match heap st !! l with
            | Some c => (Val c, st)
            | None => (Fault, st)
            end.

Definition update (l : Loc) (f : SSHConnection.t -> SSHConnection.t) : M unit :=
  fun st => (Val tt, with_heap (alter f l (heap st)) st).

(** [time.time()] *)
Definition now : M Z :=
  fun st => let '(t, e) := time_time (env st) in (Val t, with_env e st).

(** The longest delay, in seconds, that [time.sleep] converts to its clock
    unit: CPython counts the delay in nanoseconds in 64 bits. *)
Definition sleep_limit : Z := 9223372036.

(** [time.sleep(seconds)]: a delay that does not fit the clock unit is
    rejected with [OverflowError], a negative one with [ValueError], both
    before anything is asked of the platform; the platform may still refuse
    to sleep, with an error of its own. *)
Definition sleep (node_id : Z) (seconds : Z) : M unit :=
  if (seconds <? - sleep_limit) || (sleep_limit <? seconds)
  then raise (mkExn OverflowError "timestamp too large to convert to C _PyTime_t")
  else if seconds <? 0
  then raise (mkExn ValueError "sleep length must be non-negative")
  else fun st =>
         let '(r, e) := sleep_env seconds (env st) in
         let st' := with_trace (trace st ++ [(node_id, OpSleep seconds)]) (with_env e st) in
         match r with
         | Some msg => (Raise (lib_error msg), st')
         | None => (Val tt, st')
         end.

(** *** core/node_manager.py: SSHConnection *)

(** [paramiko.SSHClient()] *)
Definition new_client (node_id : Z) : M Handle :=
  fun st =>
    let h := next_handle st in
    (Val h, mkState (env st) (heap st) (connections st) (S h)
              (trace st ++ [(node_id, OpNewClient h)])).

Definition close_client (node_id : Z) (h : Handle) : M unit :=
  fun st =>
    (Val tt, with_trace (trace st ++ [(node_id, OpClose h)])
               (with_env (client_close h (env st)) st)).

Definition do_connect (node_id : Z) (h : Handle) (kwargs : ConnectKwargs.t) : M unit :=
  fun st =>
    let '(r, e) := client_connect h kwargs (env st) in
    let st' := with_trace (trace st ++ [(node_id, OpConnect h kwargs)]) (with_env e st) in
    match r with
    | Some msg => (Raise (lib_error msg), st')
    | None => (Val tt, st')
    end.

Definition do_exec (node_id : Z) (h : Handle) (command : string) (timeout : Z)
  : M (Z * string * string) :=
  fun st =>
    let '(r, e) := client_exec_command h command timeout (env st) in
    let st' := with_trace (trace st ++ [(node_id, OpExec h command timeout)]) (with_env e st) in
    match r with
    | inl msg => (Raise (lib_error msg), st')
    | inr out => (Val out, st')
    end.

(** The password branch of [connect], which occurs twice in the source. *)
Definition with_password (c : SSHConnection.t) (kwargs : ConnectKwargs.t)
  : M ConnectKwargs.t :=
  fun st =>
    let node := SSHConnection.node c in
    let password :=
      or_opt (NodeConfig.password node)
        (or_opt (SSHConfig.password (SSHConnection.ssh_config c))
           (os_getenv (env st) "SSH_PASSWORD")) in
    if opt_truthy password
    then (Val (ConnectKwargs.mk (ConnectKwargs.hostname kwargs) (ConnectKwargs.port kwargs)
                 (ConnectKwargs.username kwargs) (ConnectKwargs.timeout kwargs)
                 (ConnectKwargs.key_filename kwargs) password), st)
    else (Raise (mkExn ValueError ("节点 " ++ NodeConfig.name node ++ " 缺少认证信息")), st).

(** The authentication part of [connect]. [NodeConfig] declares no
    [key_file] field, so the key file is always the one of the ssh
    configuration; the password is only looked at when there is no key file
    on disk. *)
Definition with_credentials (c : SSHConnection.t) (connect_kwargs : ConnectKwargs.t)
  : M ConnectKwargs.t :=
  let key_file := SSHConfig.key_file (SSHConnection.ssh_config c) in
  match key_file with
  | Some kf =>
      if Py.truthy kf
      then fun st =>
             let expanded_key_file := os_path_expanduser (env st) kf in
             if os_path_exists (env st) expanded_key_file
             then (Val (ConnectKwargs.mk (ConnectKwargs.hostname connect_kwargs)
                          (ConnectKwargs.port connect_kwargs)
                          (ConnectKwargs.username connect_kwargs)
                          (ConnectKwargs.timeout connect_kwargs)
                          (Some expanded_key_file) None), st)
             else with_password c connect_kwargs st
      else with_password c connect_kwargs
  | None => with_password c connect_kwargs
  end.

(** [SSHConnection.connect] *)
Definition connect (self : Loc) : M bool :=
  let* c := load self in
  let node := SSHConnection.node c in
  let ssh := SSHConnection.ssh_config c in
  try_except
    (let* h := new_client (NodeConfig.id node) in
     update self (SSHConnection.set_client (Some h)) ;;;
     let username := or_str (NodeConfig.username node) (SSHConfig.username ssh) in
     let port := or_port (NodeConfig.port node) (SSHConfig.port ssh) in
     let connect_kwargs :=
       ConnectKwargs.mk (NodeConfig.ip node) port username (SSHConfig.timeout ssh) None None in
     let* connect_kwargs := with_credentials c connect_kwargs in
     do_connect (NodeConfig.id node) h connect_kwargs ;;;
     update self (SSHConnection.set_connected true) ;;;
     let* t := now in
     update self (SSHConnection.set_last_activity t) ;;;
     ret true)
    (fun e =>
       update self (SSHConnection.set_connected false) ;;;
       let* c' := load self in
       match SSHConnection.client c' with
       | Some h =>
           close_client (NodeConfig.id node) h ;;;
           update self (SSHConnection.set_client None) ;;;
           ret false
       | None => ret false
       end).

(** [SSHConnection.disconnect] *)
Definition disconnect (self : Loc) : M unit :=
  let* c := load self in
  match SSHConnection.client c with
  | Some h =>
      close_client (NodeConfig.id (SSHConnection.node c)) h ;;;
      update self (SSHConnection.set_client None)
  | None => ret tt
  end ;;;
  update self (SSHConnection.set_connected false).

(** [SSHConnection.execute_command]: the [except] clause logs and
    re-raises what it caught. *)
Definition execute_command (self : Loc) (command : string) (timeout : Z)
  : M (Z * string * string) :=
  let* c := load self in
  match SSHConnection.connected c, SSHConnection.client c with
  | true, Some h =>
      try_except
        (let* out := do_exec (NodeConfig.id (SSHConnection.node c)) h command timeout in
         let* t := now in
         update self (SSHConnection.set_last_activity t) ;;;
         ret out)
        (fun e => raise e)
  | _, _ =>
      raise (mkExn Exception ("节点 " ++ NodeConfig.name (SSHConnection.node c) ++ " 未连接"))
  end.

(** [SSHConnection.is_alive]: a failing probe counts as not alive. *)
Definition is_alive (self : Loc) : M bool :=
  let* c := load self in
  match SSHConnection.connected c, SSHConnection.client c with
  | true, Some h =>
      fun st => match transport_is_active h (env st) with
                | Some true => (Val true, st)
                | _ => (Val false, st)
                end
  | _, _ => ret false
  end.

(** *** core/node_manager.py: NodeManager *)

Fixpoint dict_get (d : list (Z * Loc)) (k : Z) : option Loc :=
  match d with
  | [] => None
  | (k', l) :: rest => if k' =? k then Some l else dict_get rest k
  end.

(** [get_connection]: the object registered for [node.id], created (not
    connected, with the current time) and registered when there is none. *)
Definition get_connection (node : NodeConfig.t) : M Loc :=
  fun st =>
    match dict_get (connections st) (NodeConfig.id node) with
    | Some l => (Val l, st)
    | None =>
        let '(t, e) := time_time (env st) in
        let l := length (heap st) in
        (Val l,
         mkState e
           (heap st ++ [SSHConnection.mk node (Config.ssh cfg) None false t])
           (connections st ++ [(NodeConfig.id node, l)])
           (next_handle st) (trace st))
    end.

(** [for x in xs: body x] *)
Fixpoint for_each {A} (xs : list A) (body : A -> M unit) : M unit :=
  match xs with
  | [] => ret tt
  | x :: rest => body x ;;; for_each rest body
  end.

(** [disconnect_all] *)
Definition disconnect_all : M unit :=
  (fun st => for_each (List.map snd (connections st)) disconnect st) ;;;
  (fun st => (Val tt, with_connections [] st)).

(** *** core/task_executor.py *)

(** The steps shared by the task and the script workers: take the node's
    connection from the pool and connect it unless it is alive. *)
Definition ensure_connection (node : NodeConfig.t) : M Loc :=
  let* connection := get_connection node in
  let* alive := is_alive connection in
  if alive then ret connection
  else
    let* ok := connect connection in
    if ok then ret connection
    else raise (mkExn Exception ("无法连接到节点 " ++ NodeConfig.name node)).

(** The command a task runs on the remote host, by task type; the two file
    transfer types are not supported. *)
Definition task_command (task : Task.t) : Exn + string :=
  match Task.task_type task with
  | SHELL_COMMAND => inr (Task.command task)
  | DOCKER_PULL => inr ("docker pull " ++ Task.command task)
  | DOCKER_BUILD =>
      let tag :=
        match Task.extra_params task with
        | Some params => default "latest" (params !! "tag")
        | None => "latest"
        end in
      inr ("docker build -t " ++ tag ++ " " ++ Task.command task)
  | DOCKER_PUSH => inr ("docker push " ++ Task.command task)
  | other => inl (mkExn Exception ("不支持的任务类型: " ++ TaskType_str other))
  end.

(** [execute_task_on_node]: every exception of the attempt ends up in the
    result's [error_message]. *)
Definition execute_task_on_node (node : NodeConfig.t) (task : Task.t) : M TaskResult.t :=
  let* start_time := now in
  let result := TaskResult.new node (Task.task_type task) (Task.command task) in
  let* result :=
    try_except
      (let* connection := ensure_connection node in
       match task_command task with
       | inr command =>
           let* '(exit_code, stdout, stderr) :=
             execute_command connection command (Task.timeout task) in
           ret (TaskResult.set_outcome exit_code stdout stderr result)
       | inl e => raise e
       end)
      (fun e => ret (TaskResult.set_error_message (exn_str e) result)) in
  let* end_time := now in
  ret (TaskResult.set_execution_time (end_time - start_time) result).

(** The loop of [execute_task_with_retry], with [n] iterations left, the
    loop variable [attempt] and the local [last_result]. *)
Fixpoint retry_loop (node : NodeConfig.t) (task : Task.t) (n : nat) (attempt : Z)
    (last_result : option TaskResult.t) : M (option TaskResult.t) :=
  match n with
  | O => ret last_result
  | S n' =>
      let* result := execute_task_on_node node task in
      let result := TaskResult.set_retry_count attempt result in
      if TaskResult.success result then ret (Some result)
      else
        (if attempt <? Task.retry_count task
         then sleep (NodeConfig.id node) (Task.retry_delay task)
         else ret tt) ;;;
        retry_loop node task n' (attempt + 1) (Some result)
  end.

(** [execute_task_with_retry]: [range(task.retry_count + 1)] is empty when
    the retry count is negative, and [last_result] is then still [None]. *)
Definition execute_task_with_retry (node : NodeConfig.t) (task : Task.t)
  : M (option TaskResult.t) :=
  retry_loop node task (Z.to_nat (Task.retry_count task + 1)) 0 None.

(** [as_completed]: the submitted futures in completion order. Which of the
    pending futures completes next is the scheduler's choice; [sched] lists
    these choices as indices into the pending futures (taken modulo their
    number; index 0 once the list is exhausted). *)
Fixpoint as_completed_aux {A} (fuel : nat) (sched : list nat) (pending : list A) : list A :=
  match fuel with
  | O => []
  | S fuel' =>
      let i := match sched with
               | [] => O
               | c :: _ => Nat.modulo c (length pending)
               end in
      match pending !! i with
      | Some x => x :: as_completed_aux fuel' (List.tl sched) (delete i pending)
      | None => []
      end
  end.

Definition as_completed {A} (sched : list nat) (futures : list A) : list A :=
  as_completed_aux (length futures) sched futures.

(** The result built in the [except] clause of the collecting loop. *)
Definition error_result (node : NodeConfig.t) (task : Task.t) (msg : string) : TaskResult.t :=
  TaskResult.set_error_message msg
    (TaskResult.new node (Task.task_type task) (Task.command task)).

Definition none_has_no_success : string :=
  "'NoneType' object has no attribute 'success'".

(** The collecting loop of [execute_task] over the futures in completion
    order. The threads of the pool are run one at a time: each worker runs
    [execute_task_with_retry] to completion when its turn comes, so the
    requests of different workers are not interleaved in [trace]. A
    returned result is appended; when the worker returned
    [None], [None] is appended and reading its [success] raises, so the
    [except] clause appends an error result as well; when the worker
    raised, the [except] clause appends an error result. *)
Fixpoint collect_results (task : Task.t) (completed : list NodeConfig.t)
    (results : list (option TaskResult.t)) : M (list (option TaskResult.t)) :=
  match completed with
  | [] => ret results
  | node :: rest =>
      fun st =>
        match execute_task_with_retry node task st with
        | (Val (Some result), st') =>
            collect_results task rest (results ++ [Some result]) st'
        | (Val None, st') =>
            collect_results task rest
              (results ++ [None; Some (error_result node task none_has_no_success)]) st'
        | (Raise e, st') =>
            collect_results task rest
              (results ++ [Some (error_result node task (exn_str e))]) st'
        | (Fault, st') => (Fault, st')
        end
  end.

(** [results] as a list of task results, when it holds no [None]. *)
Fixpoint all_results (results : list (option TaskResult.t)) : option (list TaskResult.t) :=
  match results with
  | [] => Some []
  | Some r :: rest =>
      match all_results rest with
      | Some rs => Some (r :: rs)
      | None => None
      end
  | None :: _ => None
  end.

(** The nodes a task targets: the enabled nodes when the id list is empty. *)
Definition target_nodes (node_ids : list Z) : list NodeConfig.t :=
  match node_ids with
  | [] => ConfigManager.get_nodes cfg true
  | _ => ConfigManager.get_nodes_by_ids cfg node_ids
  end.

(** [execute_task]. The thread pool refuses a worker count that is not
    positive; the success count at the end reads [success] of every
    collected element. *)
Definition execute_task (sched : list nat) (task : Task.t) : M (list TaskResult.t) :=
  let nodes := target_nodes (Task.node_ids task) in
  match nodes with
  | [] => ret []
  | _ =>
      let max_workers :=
        Z.min (Z.of_nat (length nodes))
              (ExecutionConfig.max_concurrent (Config.execution cfg)) in
      if max_workers <=? 0
      then raise (mkExn ValueError "max_workers must be greater than 0")
      else
        let* results := collect_results task (as_completed sched nodes) [] in
        match all_results results with
        | Some rs => ret rs
        | None => raise (mkExn AttributeError none_has_no_success)
        end
  end.

(** [execute_shell_command] *)
Definition execute_shell_command (sched : list nat) (command : string)
    (node_ids : option (list Z)) (timeout : Z) : M (list TaskResult.t) :=
  execute_task sched
    (Task.mk SHELL_COMMAND command (default [] node_ids) timeout
       (ExecutionConfig.retry_count (Config.execution cfg))
       (ExecutionConfig.retry_delay (Config.execution cfg)) None).

(** *** core/script_executor.py *)

Definition nl : string := String "010"%char EmptyString.
Definition dquote : string := String "034"%char EmptyString.

(** Step 3 of the staged execution: the command that runs the script. *)
Definition run_command (remote_script_path script_content args : string) : string :=
  let script_extension := Py.lower (OsPath.splitext_ext remote_script_path) in
  if String.eqb script_extension ".py"
  then "python3 " ++ remote_script_path ++ " " ++ args
  else if Py.startswith script_content "#!/usr/bin/env python"
          || Py.startswith script_content "#!/usr/bin/python"
  then "python3 " ++ remote_script_path ++ " " ++ args
  else if String.eqb script_extension ".sh" || String.eqb script_extension ".bash"
          || Py.startswith script_content "#!/bin/bash"
          || Py.startswith script_content "#!/usr/bin/bash"
  then "bash " ++ remote_script_path ++ " " ++ args
  else if Py.startswith script_content "#!"
  then remote_script_path ++ " " ++ args
  else "bash " ++ remote_script_path ++ " " ++ args.

(** [_execute_script_on_node]: create the file, make it executable, run it,
    remove it. The result already carries the outcome of the run when the
    removal is attempted, so an exception of the removal only adds its
    message. *)
Definition _execute_script_on_node (node : NodeConfig.t)
    (script_content remote_script_path args : string) (timeout : Z) : M TaskResult.t :=
  let* start_time := now in
  let result :=
    TaskResult.new node SHELL_COMMAND ("执行脚本: " ++ remote_script_path ++ " " ++ args) in
  let* result :=
    try_except
      (let* connection := ensure_connection node in
       let create_script_command :=
         nl ++ "cat > " ++ remote_script_path ++ " << 'EOF'" ++ nl
            ++ script_content ++ nl ++ "EOF" ++ nl in
       let* '(exit_code, stdout, stderr) :=
         execute_command connection create_script_command 30 in
       if negb (exit_code =? 0)
       then raise (mkExn Exception ("创建脚本文件失败: " ++ stderr))
       else
         let chmod_command := "chmod +x " ++ remote_script_path in
         let* '(exit_code, stdout, stderr) :=
           execute_command connection chmod_command 10 in
         if negb (exit_code =? 0)
         then raise (mkExn Exception ("设置脚本权限失败: " ++ stderr))
         else
           let execute_cmd := run_command remote_script_path script_content args in
           let* '(exit_code, stdout, stderr) :=
             execute_command connection execute_cmd timeout in
           let result := TaskResult.set_outcome exit_code stdout stderr result in
           let cleanup_command := "rm -f " ++ remote_script_path in
           try_except
             (execute_command connection cleanup_command 10 ;;; ret result)
             (fun e => ret (TaskResult.set_error_message (exn_str e) result)))
      (fun e => ret (TaskResult.set_error_message (exn_str e) result)) in
  let* end_time := now in
  ret (TaskResult.set_execution_time (end_time - start_time) result).

(** The loop shared by the two staged entry points:
    [for node in nodes: results.append(self._execute_script_on_node(...))]. *)
Fixpoint staged_loop (nodes : list NodeConfig.t)
    (script_content remote_script_path args : string) (timeout : Z)
    (results : list TaskResult.t) : M (list TaskResult.t) :=
  match nodes with
  | [] => ret results
  | node :: rest =>
      let* result :=
        _execute_script_on_node node script_content remote_script_path args timeout in
      staged_loop rest script_content remote_script_path args timeout (results ++ [result])
  end.

(** The nodes of a staged execution: [node_ids is None] selects the enabled
    nodes. *)
Definition staged_nodes (node_ids : option (list Z)) : list NodeConfig.t :=
  match node_ids with
  | None => ConfigManager.get_nodes cfg true
  | Some ids => ConfigManager.get_nodes_by_ids cfg ids
  end.

(** Reading a local file: [os.path.exists], then [open(...).read()]. *)
Definition read_script (script_path : string) : M string :=
  fun st =>
    if negb (os_path_exists (env st) script_path)
    then (Raise (mkExn FileNotFoundError ("脚本文件不存在: " ++ script_path)), st)
    else match read_text (env st) script_path with
         | inl msg => (Raise (lib_error msg), st)
         | inr text => (Val text, st)
         end.

(** [upload_and_execute_script] *)
Definition upload_and_execute_script (script_path : string) (node_ids : option (list Z))
    (args : string) (timeout : Z) (remote_path : string) : M (list TaskResult.t) :=
  let* script_content := read_script script_path in
  let script_name := OsPath.basename script_path in
  let remote_script_path := remote_path ++ "/" ++ script_name in
  staged_loop (staged_nodes node_ids) script_content remote_script_path args timeout [].

(** [execute_script_content] *)
Definition execute_script_content (script_content : string) (node_ids : option (list Z))
    (args : string) (timeout : Z) (script_name : string) : M (list TaskResult.t) :=
  let remote_script_path := "/tmp/" ++ script_name in
  staged_loop (staged_nodes node_ids) script_content remote_script_path args timeout [].

(** The command [execute_local_script_remotely] builds from the text of the
    file and the argument string. *)
Definition inline_command (text args : string) : string :=
  let script_content := Py.strip text in
  if Py.truthy args
  then
    let args_list := Py.split_ws args in
    let escaped_args := List.map (fun arg => dquote ++ arg ++ dquote) args_list in
    let param_setup := "set -- " ++ Py.join " " escaped_args in
    param_setup ++ nl ++ script_content
  else script_content.

(** [execute_local_script_remotely] *)
Definition execute_local_script_remotely (sched : list nat) (script_path : string)
    (node_ids : option (list Z)) (args : string) (timeout : Z) : M (list TaskResult.t) :=
  let* text := read_script script_path in
  execute_shell_command sched (inline_command text args) node_ids timeout.

(** The command [execute_script_from_url] builds: download the script to
    [/tmp], make it executable, run it with [bash], remove it. *)
Definition url_command (script_url args : string) : string :=
  let script_name := OsPath.basename script_url in
  let remote_script_path := "/tmp/" ++ script_name in
  nl ++ "# 下载脚本" ++ nl
  ++ "curl -fsSL -o " ++ remote_script_path ++ " " ++ dquote ++ script_url ++ dquote
  ++ " || wget -q -O " ++ remote_script_path ++ " " ++ dquote ++ script_url ++ dquote ++ nl
  ++ nl ++ "# 设置执行权限" ++ nl
  ++ "chmod +x " ++ remote_script_path ++ nl
  ++ nl ++ "# 执行脚本" ++ nl
  ++ "bash " ++ remote_script_path ++ " " ++ args ++ nl
  ++ nl ++ "# 清理文件" ++ nl
  ++ "rm -f " ++ remote_script_path ++ nl.

(** [execute_script_from_url] *)
Definition execute_script_from_url (sched : list nat) (script_url : string)
    (node_ids : option (list Z)) (args : string) (timeout : Z) : M (list TaskResult.t) :=
  execute_shell_command sched (url_command script_url args) node_ids timeout.

(** *** core/node_manager.py: the other operations of NodeManager *)

(** [connect_node] *)
Definition connect_node (node : NodeConfig.t) : M bool :=
  let* connection := get_connection node in
  connect connection.

(** The collecting loop of [connect_nodes] over the futures in completion
    order: [results[node.id] = success], or [False] when the worker raised. *)
Fixpoint collect_connects (completed : list NodeConfig.t) (results : gmap Z bool)
  : M (gmap Z bool) :=
  match completed with
  | [] => ret results
  | node :: rest =>
      fun st =>
        match connect_node node st with
        | (Val success, st') =>
            collect_connects rest (<[NodeConfig.id node := success]> results) st'
        | (Raise e, st') =>
            collect_connects rest (<[NodeConfig.id node := false]> results) st'
        | (Fault, st') => (Fault, st')
        end
  end.

(** [connect_nodes]: [max_workers] defaults to the smaller of the number of
    nodes and the configured ceiling; the thread pool refuses a worker
    count that is not positive. *)
Definition connect_nodes (sched : list nat) (nodes : list NodeConfig.t)
    (max_workers : option Z) : M (gmap Z bool) :=
  let max_workers :=
    match max_workers with
    | None => Z.min (Z.of_nat (length nodes))
                (ExecutionConfig.max_concurrent (Config.execution cfg))
    | Some w => w
    end in
  if max_workers <=? 0
  then raise (mkExn ValueError "max_workers must be greater than 0")
  else collect_connects (as_completed sched nodes) ∅.

(** [del d[k]] *)
Definition dict_del (d : list (Z * nat)) (k : Z) : list (Z * nat) :=
  List.filter (fun kl => negb (kl.1 =? k)) d.

(** [disconnect_node] *)
Definition disconnect_node (node_id : Z) : M unit :=
  fun st =>
    match dict_get (connections st) node_id with
    | Some l =>
        (disconnect l ;;;
         fun st' => (Val tt, with_connections (dict_del (connections st') node_id) st')) st
    | None => (Val tt, st)
    end.

(** The loop of [get_connected_nodes] over [connections.items()]. *)
Fixpoint connected_loop (items : list (Z * nat)) (connected : list Z) : M (list Z) :=
  match items with
  | [] => ret connected
  | (node_id, connection) :: rest =>
      let* alive := is_alive connection in
      connected_loop rest (if alive then connected ++ [node_id] else connected)
  end.

(** [get_connected_nodes] *)
Definition get_connected_nodes : M (list Z) :=
  fun st => connected_loop (connections st) [] st.

(** The loop of [check_connections]. *)
Fixpoint status_loop (items : list (Z * nat)) (status : gmap Z bool) : M (gmap Z bool) :=
  match items with
  | [] => ret status
  | (node_id, connection) :: rest =>
      let* alive := is_alive connection in
      status_loop rest (<[node_id := alive]> status)
  end.

(** [check_connections] *)
Definition check_connections : M (gmap Z bool) :=
  fun st => status_loop (connections st) ∅ st.

(** The first loop of [cleanup_idle_connections]: disconnect the idle
    connections and collect their keys. *)
Fixpoint idle_loop (current_time idle_timeout : Z) (items : list (Z * nat))
    (to_remove : list Z) : M (list Z) :=
  match items with
  | [] => ret to_remove
  | (node_id, connection) :: rest =>
      let* c := load connection in
      if current_time - SSHConnection.last_activity c >? idle_timeout
      then disconnect connection ;;;
           idle_loop current_time idle_timeout rest (to_remove ++ [node_id])
      else idle_loop current_time idle_timeout rest to_remove
  end.

(** [cleanup_idle_connections] *)
Definition cleanup_idle_connections (idle_timeout : Z) : M unit :=
  let* current_time := now in
  let* to_remove :=
    (fun st => idle_loop current_time idle_timeout (connections st) [] st) in
  fun st => (Val tt, with_connections (List.fold_left dict_del to_remove (connections st)) st).

(** The loop of [reconnect_failed_nodes]: a node of the pool that is not
    alive is disconnected and kept for reconnection, a node that is not in
    the pool is kept as well. *)
Fixpoint failed_loop (nodes : list NodeConfig.t) (failed_nodes : list NodeConfig.t)
  : M (list NodeConfig.t) :=
  match nodes with
  | [] => ret failed_nodes
  | node :: rest =>
      fun st =>
        match dict_get (connections st) (NodeConfig.id node) with
        | Some connection =>
            (let* alive := is_alive connection in
             if alive then failed_loop rest failed_nodes
             else disconnect connection ;;; failed_loop rest (failed_nodes ++ [node])) st
        | None => failed_loop rest (failed_nodes ++ [node]) st
        end
  end.

(** [reconnect_failed_nodes] *)
Definition reconnect_failed_nodes (sched : list nat) (nodes : list NodeConfig.t)
  : M (gmap Z bool) :=
  let* failed_nodes := failed_loop nodes [] in
  match failed_nodes with
  | [] => ret ∅
  | _ => connect_nodes sched failed_nodes None
  end.

(** *** core/task_executor.py: the image operations *)

(** [docker_pull] *)
Definition docker_pull (sched : list nat) (image_name : string)
    (node_ids : option (list Z)) (timeout : Z) : M (list TaskResult.t) :=
  execute_task sched
    (Task.mk DOCKER_PULL image_name (default [] node_ids) timeout
       (ExecutionConfig.retry_count (Config.execution cfg))
       (ExecutionConfig.retry_delay (Config.execution cfg)) None).

(** [docker_build] *)
Definition docker_build (sched : list nat) (dockerfile_path tag : string)
    (node_ids : option (list Z)) (timeout : Z) : M (list TaskResult.t) :=
  execute_task sched
    (Task.mk DOCKER_BUILD dockerfile_path (default [] node_ids) timeout
       (ExecutionConfig.retry_count (Config.execution cfg))
       (ExecutionConfig.retry_delay (Config.execution cfg))
       (Some {["tag" := tag]})).

(** [docker_push] *)
Definition docker_push (sched : list nat) (image_name : string)
    (node_ids : option (list Z)) (timeout : Z) : M (list TaskResult.t) :=
  execute_task sched
    (Task.mk DOCKER_PUSH image_name (default [] node_ids) timeout
       (ExecutionConfig.retry_count (Config.execution cfg))
       (ExecutionConfig.retry_delay (Config.execution cfg)) None).

End Engine.

Arguments State {_}.
Arguments M {_} A.

(** ** A sample fleet and sample collaborators

    Seven nodes, node 1 disabled. The sample host answers every command
    with exit code 0 and the output [hi], except the command [false], which
    exits with 1; the address [10.0.0.9] cannot be reached; the local files
    are [deploy.sh] and [locked.sh], which cannot be read; the clock
    advances by one tick per reading, and the platform never refuses to
    sleep. *)

Definition sample_node (i : Z) (nm ipa : string) (en : bool) : NodeConfig.t :=
  NodeConfig.mk i ipa nm en None None None.

Definition sample_nodes : list NodeConfig.t :=
  [sample_node 0 "node-0" "10.0.0.1" true; sample_node 1 "Node-1" "10.0.0.2" false;
   sample_node 2 "node-2" "10.0.0.3" true; sample_node 3 "node-3" "10.0.0.4" true;
   sample_node 4 "node-4" "10.0.0.5" true; sample_node 5 "node-5" "10.0.0.9" true;
   sample_node 10 "node-10" "10.0.0.7" true].

Definition sample_config_with (execution : ExecutionConfig.t) : Config.t :=
  Config.mk sample_nodes (SSHConfig.mk "root" 22 30 None (Some "secret")) execution.

Definition sample_config : Config.t :=
  sample_config_with (ExecutionConfig.mk 10 3 5 300).

Definition sample_selector : NodeSelector.t := NodeSelector.init sample_config.

#[local] Instance sample_host : Collaborators := {|
  Env := Z;
  time_time := fun e => (e, e + 1);
  sleep_env := fun d e => (None, e + d);
  os_path_expanduser := fun _ p => p;
  os_path_exists := fun _ p => String.eqb p "deploy.sh" || String.eqb p "locked.sh";
  os_getenv := fun _ _ => None;
  read_text := fun _ p =>
    if String.eqb p "deploy.sh" then inr ("  echo $1 $2" ++ String "010"%char "")
    else inl "Permission denied";
  client_connect := fun _ kwargs e =>
    (if String.eqb (ConnectKwargs.hostname kwargs) "10.0.0.9"
     then Some "timed out" else None, e);
  client_close := fun _ e => e;
  client_exec_command := fun _ command _ e =>
    (inr (if String.eqb command "false" then 1 else 0, "hi", ""), e);
  transport_is_active := fun _ _ => Some true
|}.

Definition initial_state `{Collaborators} (e : Env) : State := mkState e [] [] O [].

(** A state of the sample host with one object per given node, registered
    in the pool, none of them connected. *)
Definition pool_state (nodes : list NodeConfig.t) : @State sample_host :=
  mkState 0%Z
    (List.map (fun node => SSHConnection.mk node (Config.ssh sample_config) None false 0) nodes)
    (List.combine (List.map NodeConfig.id nodes) (List.seq 0 (length nodes)))
    O [].

(** A state of the sample host in which node 2 is connected through
    handle 0. *)
Definition connected_state : @State sample_host :=
  mkState 7%Z
    [SSHConnection.mk (sample_node 2 "node-2" "10.0.0.3" true)
       (Config.ssh sample_config) (Some O) true 3]
    [(2, O)] 1%nat [].

Definition node_2 : NodeConfig.t := sample_node 2 "node-2" "10.0.0.3" true.
Definition node_5 : NodeConfig.t := sample_node 5 "node-5" "10.0.0.9" true.

(** The command [false] on node 2 of the sample host, three retries. *)
Definition failing_task (retry_delay : Z) : Task.t :=
  Task.mk SHELL_COMMAND "false" [2] 300 3 retry_delay None.

(** [echo hi] on the given nodes of the sample fleet. *)
Definition echo_task (node_ids : list Z) (retry_count retry_delay : Z) : Task.t :=
  Task.mk SHELL_COMMAND "echo hi" node_ids 300 retry_count retry_delay None.


(** No character of [s] is white space: no white-space character starts
    at any position of [s]. *)
Fixpoint no_space (s : string) : bool :=
  match s with
  | EmptyString => true
  | String c r => Nat.eqb (Py.ws_width s) 0 && no_space r
  end.

(** No character of [s] is a line feed. *)
Fixpoint no_lf (s : string) : bool :=
  match s with
  | EmptyString => true
  | String c r => negb (Ascii.eqb c "010"%char) && no_lf r
  end.

(** ** Invariant of the pool, and the shape of a run *)

Section Invariants.

Context `{Collaborators}.

(** Every entry of the pool's dictionary points to an object of the heap,
    and that object was created for a node with the entry's key as id. *)
Definition wf (st : State) : Prop :=
  Forall (fun kl => ∃ c, heap st !! kl.2 = Some c
                         ∧ NodeConfig.id (SSHConnection.node c) = kl.1)
         (connections st).

(** Objects are never freed, and keep the node they were created for. *)
Definition objects_kept (st st' : State) : Prop :=
  ∀ l c, heap st !! l = Some c →
         ∃ c', heap st' !! l = Some c' ∧ SSHConnection.node c' = SSHConnection.node c.

(** [evolves T st st']: [st'] is reached from [st] keeping the objects and
    the invariant, and the requests made in between all satisfy [T]. *)
Definition evolves (T : Event → Prop) (st st' : State) : Prop :=
  objects_kept st st' ∧ (wf st → wf st')
  ∧ ∃ seg : list Event, trace st' = (trace st ++ seg)%list ∧ Forall T seg.

(** [wp T m st Q E]: run from [st], the computation [m] does not dereference
    a dangling location; it either returns a value satisfying [Q] or raises
    an exception satisfying [E], in a state that [evolves] from [st]. *)
Definition wp {A} (T : Event → Prop) (m : M A) (st : State)
    (Q : A → State → Prop) (E : Exn → State → Prop) : Prop :=
  match m st with
  | (Val a, st') => evolves T st st' ∧ Q a st'
  | (Raise e, st') => evolves T st st' ∧ E e st'
  | (Fault, _) => False
  end.

(** [time.sleep] accepts the delay [d]: it passes Python's checks and the
    platform does not refuse it. *)
Definition sleeps (d : Z) : Prop :=
  0 ≤ d ≤ sleep_limit ∧ ∀ e, (sleep_env d e).1 = None.

(** The object at [l] is disconnected: flag cleared, no client handle. *)
Definition cleared (st : State) (l : nat) : Prop :=
  ∃ c, heap st !! l = Some c
       ∧ SSHConnection.connected c = false ∧ SSHConnection.client c = None.

(** Location [l] holds an object created for a node with id [i]. *)
Definition holds (st : State) (l : nat) (i : Z) : Prop :=
  ∃ c, heap st !! l = Some c ∧ NodeConfig.id (SSHConnection.node c) = i.

(** The requests made on behalf of node [i]. *)
Definition for_node (i : Z) : Event → Prop := fun ev => ev.1 = i.

Variable cfg : Config.t.

(** [attempts node task st k r st']: starting in [st], [k] attempts
    of the task on the node have been made one after the other, each failed
    one followed by the pause [task.retry_delay]; [r] is the result of the
    last of them and [st'] the state after it. *)
Inductive attempts (node : NodeConfig.t) (task : Task.t)
  : State → nat → TaskResult.t → State → Prop :=
  | attempts_first st r st' :
      execute_task_on_node cfg node task st = (Val r, st') →
      attempts node task st 1 r st'
  | attempts_next st k r1 st1 st2 r2 st3 :
      attempts node task st k r1 st1 →
      TaskResult.success r1 = false →
      sleep (NodeConfig.id node) (Task.retry_delay task) st1 = (Val tt, st2) →
      execute_task_on_node cfg node task st2 = (Val r2, st3) →
      attempts node task st (S k) r2 st3.

(** What [is_alive] answers for the object at [l] in state [st]. *)
Definition alive (st : State) (l : nat) : bool :=
  match heap st !! l with
  | Some c =>
      SSHConnection.connected c
      && match SSHConnection.client c with
         | Some h => bool_decide (transport_is_active h (env st) = Some true)
         | None => false
         end
  | None => false
  end.

(** The entry [kl] of the pool is idle at time [t]: its object has not been
    used for more than [idle_timeout]. *)
Definition idle (t idle_timeout : Z) (st : State) (kl : Z * nat) : bool :=
  match heap st !! kl.2 with
  | Some c => t - SSHConnection.last_activity c >? idle_timeout
  | None => false
  end.

(** Objects are kept, with their node and their last activity. *)
Definition kept (st st' : State) : Prop :=
  ∀ l c, heap st !! l = Some c →
         ∃ c', heap st' !! l = Some c'
               ∧ SSHConnection.node c' = SSHConnection.node c
               ∧ SSHConnection.last_activity c' = SSHConnection.last_activity c.

(** The requests that open or close a connection of node [i]. *)
Definition handshake (i : Z) : Event → Prop :=
  fun ev => ev.1 = i
            ∧ match ev.2 with
              | OpNewClient _ | OpConnect _ _ | OpClose _ => True
              | _ => False
              end.

(** The requests a worker may make for [task] on node [i]: opening and
    closing connections, the command of the task with the task's time limit,
    and the pause between two attempts. *)
Definition task_request (i : Z) (task : Task.t) : Event → Prop :=
  fun ev => ev.1 = i
            ∧ match ev.2 with
              | OpExec _ command timeout =>
                  task_command task = inr command ∧ timeout = Task.timeout task
              | OpSleep seconds => seconds = Task.retry_delay task
              | _ => True
              end.

(** The requests the workers of [task] may make when the task is run on
    [nodes]. *)
Definition targeted (nodes : list NodeConfig.t) (task : Task.t) : Event → Prop :=
  fun ev => ∃ node, node ∈ nodes ∧ task_request (NodeConfig.id node) task ev.

(** The object at [l] belongs to node [i] and is connected through the
    client handle [h]. *)
Definition connected_at (st : State) (l : nat) (i : Z) (h : nat) : Prop :=
  ∃ c, heap st !! l = Some c
       ∧ NodeConfig.id (SSHConnection.node c) = i
       ∧ SSHConnection.connected c = true
       ∧ SSHConnection.client c = Some h.

(** The message of the exception raised when a node cannot be connected. *)
Definition cannot_connect (node : NodeConfig.t) : string :=
  "无法连接到节点 " ++ NodeConfig.name node.

(** The requests [seg] of one attempt of [task] on [node] that gave the
    result [r]. They are connection requests [hs], followed by nothing when
    the node could not be connected or the task type is not supported, and
    otherwise by exactly one command request, whose answer by the client
    (in some environment) is what the result reports. *)
Definition attempt_outcome (node : NodeConfig.t) (task : Task.t) (r : TaskResult.t)
    (seg : list Event) : Prop :=
  ∃ hs,
    Forall (handshake (NodeConfig.id node)) hs
    ∧ ((seg = hs ∧ TaskResult.exit_code r = None
        ∧ TaskResult.error_message r = cannot_connect node)
       ∨ (∃ e, task_command task = inl e ∧ seg = hs
               ∧ TaskResult.exit_code r = None
               ∧ TaskResult.error_message r = exn_str e)
       ∨ (∃ h command e0,
            task_command task = inr command
            ∧ seg = (hs ++ [(NodeConfig.id node, OpExec h command (Task.timeout task))])%list
            ∧ match (client_exec_command h command (Task.timeout task) e0).1 with
              | inr (code, out, err) =>
                  TaskResult.exit_code r = Some code
                  ∧ TaskResult.stdout r = out ∧ TaskResult.stderr r = err
              | inl msg =>
                  TaskResult.exit_code r = None ∧ TaskResult.error_message r = msg
              end)).

(** The four commands of a staged execution, each with its time limit:
    create the file, make it executable, run it, remove it. *)
Definition staged_steps (script_content remote_script_path args : string) (timeout : Z)
  : list (string * Z) :=
  [ (nl ++ "cat > " ++ remote_script_path ++ " << 'EOF'" ++ nl
        ++ script_content ++ nl ++ "EOF" ++ nl, 30);
    ("chmod +x " ++ remote_script_path, 10);
    (run_command remote_script_path script_content args, timeout);
    ("rm -f " ++ remote_script_path, 10) ].

(** The requests [seg] of the staged worker on [node] that gave the result
    [r]: connection requests, then the first [k] of the four steps, all
    through the same client handle. *)
Definition staged_outcome (node : NodeConfig.t)
    (script_content remote_script_path args : string) (timeout : Z)
    (r : TaskResult.t) (seg : list Event) : Prop :=
  ∃ hs h k,
    Forall (handshake (NodeConfig.id node)) hs
    ∧ seg = (hs ++ List.map (fun ct => (NodeConfig.id node, OpExec h ct.1 ct.2))
                     (take k (staged_steps script_content remote_script_path args timeout)))%list
    ∧ (k ≤ 4)%nat
    ∧ (is_Some (TaskResult.exit_code r) ↔ k = 4%nat)
    ∧ (k = O → TaskResult.error_message r = cannot_connect node).

(** The fields of the result of one attempt of [task] on [node]. *)
Definition attempt_fields (node : NodeConfig.t) (task : Task.t) (r : TaskResult.t) : Prop :=
  TaskResult.node_id r = NodeConfig.id node
  ∧ TaskResult.node_name r = NodeConfig.name node
  ∧ TaskResult.node_ip r = NodeConfig.ip node
  ∧ TaskResult.task_type r = Task.task_type task
  ∧ TaskResult.command r = Task.command task
  ∧ TaskResult.retry_count r = 0
  ∧ match TaskResult.exit_code r with
    | Some code =>
        TaskResult.success r = (code =? 0) ∧ TaskResult.error_message r = ""
    | None =>
        TaskResult.success r = false
        ∧ TaskResult.stdout r = "" ∧ TaskResult.stderr r = ""
    end.

(** The fields of the result of the staged worker on [node]. *)
Definition staged_fields (node : NodeConfig.t) (remote_script_path args : string)
    (r : TaskResult.t) : Prop :=
  TaskResult.node_id r = NodeConfig.id node
  ∧ TaskResult.node_name r = NodeConfig.name node
  ∧ TaskResult.node_ip r = NodeConfig.ip node
  ∧ TaskResult.task_type r = SHELL_COMMAND
  ∧ TaskResult.command r = "执行脚本: " ++ remote_script_path ++ " " ++ args
  ∧ TaskResult.retry_count r = 0
  ∧ match TaskResult.exit_code r with
    | Some code => TaskResult.success r = (code =? 0)
    | None =>
        TaskResult.success r = false
        ∧ TaskResult.stdout r = "" ∧ TaskResult.stderr r = ""
    end.

(** [ready node task st0 k st]: [k] attempts have been made from [st0], all
    of them failed, and [st] is the state in which the next one starts. *)
Definition ready (node : NodeConfig.t) (task : Task.t) (st0 : State) (k : nat)
    (st : State) : Prop :=
  (k = O ∧ st = st0)
  ∨ ∃ r1 st1, attempts node task st0 k r1 st1
              ∧ TaskResult.success r1 = false
              ∧ sleep (NodeConfig.id node) (Task.retry_delay task) st1 = (Val tt, st).

End Invariants.

(** * Properties *)

(** ** Node selection *)

Section NodeSelectorFacts.

Import NodeSelector.



Lemma unique_by_id_sublist seen l : sublist (unique_by_id seen l) l.
Proof.
  revert seen. induction l as [|a l IH]; intros seen; simpl.
  - constructor.
  - destruct (decide (NodeConfig.id a ∈ seen)).
    + apply sublist_cons, IH.
    + apply sublist_skip, IH.
Qed.




Lemma NoDup_ids_inj (l : list NodeConfig.t) n m :
  NoDup (List.map NodeConfig.id l) → n ∈ l → m ∈ l →
  NodeConfig.id n = NodeConfig.id m → n = m.
Proof.
  induction l as [|a l IH]; intros Hnd Hn Hm Hid; [inversion Hn|].
  simpl in Hnd. apply NoDup_cons in Hnd as [Ha Hnd].
  assert (Hmem : ∀ x, x ∈ l → NodeConfig.id x ∈ List.map NodeConfig.id l).
  { intros x Hx. apply list_elem_of_In, in_map. by apply list_elem_of_In. }
  apply elem_of_cons in Hn as [->|Hn]; apply elem_of_cons in Hm as [->|Hm].
  - done.
  - exfalso. apply Ha. rewrite Hid. by apply Hmem.
  - exfalso. apply Ha. rewrite <- Hid. by apply Hmem.
  - by apply IH.
Qed.

Lemma keyword_not_blank selection kw :
  Py.lower (Py.strip selection) = kw → kw ≠ "" → is_blank selection = false.
Proof.
  intros Hkw Hne. unfold is_blank.
  destruct selection as [|c r]; [by subst kw|]. simpl.
  destruct (String.eqb_spec (Py.strip (String c r)) "") as [Heq|]; [|done].
  rewrite Heq in Hkw. by subst kw.
Qed.






(** The scenario of the specification, and a selection whose tokens
    overlap. *)
Example parse_selection_scenario :
  List.map NodeConfig.id (parse_selection sample_config sample_selector "0,2-4,10")
  = [0; 2; 3; 4; 10]
  ∧ List.map NodeConfig.id
      (parse_selection sample_config sample_selector "3,0,2-4,node-0,10")
    = [3; 0; 2; 4; 10].
Proof. split; reflexivity. Qed.

(** A node that is produced twice stays where it was produced first. *)
Example parse_selection_repeated_token :
  List.map NodeConfig.id (selected_nodes sample_selector "2,3,2") = [2; 3; 2]
  ∧ List.map NodeConfig.id (parse_selection sample_config sample_selector "2,3,2")
    = [2; 3].
Proof. split; reflexivity. Qed.

(** C6. Over a fixed node set, for any spelling of the three keywords
    (case and surrounding blanks are ignored): every node selected by
    [all-enabled] or by [all-disabled] is selected by [all-all], and no node,
    and no node id, is selected by both [all-enabled] and [all-disabled]. *)
Theorem keyword_selections_partition cfg self s_enabled s_disabled s_all :
  all_nodes self = Config.nodes cfg →
  NoDup (List.map NodeConfig.id (Config.nodes cfg)) →
  Py.lower (Py.strip s_enabled) = "all-enabled" →
  Py.lower (Py.strip s_disabled) = "all-disabled" →
  Py.lower (Py.strip s_all) = "all-all" →
  let enabled := parse_selection cfg self s_enabled in
  let disabled := parse_selection cfg self s_disabled in
  let everyone := parse_selection cfg self s_all in
  (∀ n, n ∈ enabled ∨ n ∈ disabled → n ∈ everyone) ∧
  (∀ n, n ∈ enabled → n ∉ disabled) ∧
  (∀ n m, n ∈ enabled → m ∈ disabled → NodeConfig.id n ≠ NodeConfig.id m).
Proof.
  intros Hfix Hnd He Hd Ha. unfold parse_selection.
  rewrite (keyword_not_blank _ _ He), (keyword_not_blank _ _ Hd),
    (keyword_not_blank _ _ Ha) by done.
  rewrite He, Hd, Ha. simpl. unfold ConfigManager.get_nodes. rewrite Hfix.
  set (N := Config.nodes cfg) in *.
  assert (Hen : ∀ n, n ∈ List.filter NodeConfig.enabled N →
                     n ∈ N ∧ NodeConfig.enabled n = true).
  { intros n Hn. apply list_elem_of_In, List.filter_In in Hn as [Hn Hb].
    by apply list_elem_of_In in Hn. }
  assert (Hdis : ∀ n, n ∈ List.filter (fun node => negb (NodeConfig.enabled node)) N →
                      n ∈ N ∧ NodeConfig.enabled n = false).
  { intros n Hn. apply list_elem_of_In, List.filter_In in Hn as [Hn Hb].
    apply list_elem_of_In in Hn. by apply negb_true_iff in Hb. }
  split; [|split].
  - intros n [Hn|Hn]; [by apply Hen in Hn as [? _]|by apply Hdis in Hn as [? _]].
  - intros n Hn Hn'. apply Hen in Hn as [_ Hn]. apply Hdis in Hn' as [_ Hn'].
    congruence.
  - intros n m Hn Hm Hid. apply Hen in Hn as [Hn Hbn]. apply Hdis in Hm as [Hm Hbm].
    assert (n = m) by eauto using NoDup_ids_inj. congruence.
Qed.

Lemma keyword_selections_partition_witness :
  let enabled := parse_selection sample_config sample_selector " ALL-Enabled" in
  let disabled := parse_selection sample_config sample_selector "all-disabled" in
  let everyone := parse_selection sample_config sample_selector "All-All " in
  (∀ n, n ∈ enabled ∨ n ∈ disabled → n ∈ everyone) ∧
  (∀ n, n ∈ enabled → n ∉ disabled) ∧
  (∀ n m, n ∈ enabled → m ∈ disabled → NodeConfig.id n ≠ NodeConfig.id m).
Proof.
  apply (keyword_selections_partition sample_config sample_selector
           " ALL-Enabled" "all-disabled" "All-All ");
    [reflexivity|refine (bool_decide_unpack _ _); vm_compute; exact I
    |reflexivity|reflexivity|reflexivity].
Defined.

End NodeSelectorFacts.

(** ** The engine: general facts *)

Section Rules.

Context `{Collaborators}.

Local Open Scope list_scope.

Lemma evolves_refl T st : evolves T st st.
Proof.
  split; [|split; [done|]].
  - intros l c Hl. eauto.
  - exists []. by rewrite app_nil_r.
Qed.

Lemma evolves_trans T st1 st2 st3 :
  evolves T st1 st2 → evolves T st2 st3 → evolves T st1 st3.
Proof.
  intros (Hk1 & Hw1 & seg1 & Ht1 & Hs1) (Hk2 & Hw2 & seg2 & Ht2 & Hs2).
  split; [|split; [auto|]].
  - intros l c Hl. destruct (Hk1 _ _ Hl) as (c1 & Hl1 & Hn1).
    destruct (Hk2 _ _ Hl1) as (c2 & Hl2 & Hn2). exists c2. split; [done|congruence].
  - exists (seg1 ++ seg2). split; [by rewrite Ht2, Ht1, app_assoc|].
    by apply Forall_app.
Qed.

Lemma evolves_weaken (T T' : Event → Prop) st st' :
  (∀ ev, T ev → T' ev) → evolves T st st' → evolves T' st st'.
Proof.
  intros HT (Hk & Hw & seg & Ht & Hs). split; [done|split; [done|]].
  exists seg. split; [done|]. eapply Forall_impl; eauto.
Qed.

(** States that differ in the environment and in the trace only. *)
Lemma evolves_emit T st e' evs :
  Forall T evs →
  evolves T st (mkState e' (heap st) (connections st) (next_handle st) (trace st ++ evs)).
Proof.
  intros Hevs. split; [|split; [done|]].
  - intros l c Hl. eauto.
  - by exists evs.
Qed.

Lemma evolves_env T st e' : evolves T st (with_env e' st).
Proof.
  split; [|split; [done|]].
  - intros l c Hl. eauto.
  - exists []. by rewrite app_nil_r.
Qed.

Lemma evolves_alter T st l f :
  (∀ c, SSHConnection.node (f c) = SSHConnection.node c) →
  evolves T st (with_heap (alter f l (heap st)) st).
Proof.
  intros Hf.
  assert (Hkept : objects_kept st (with_heap (alter f l (heap st)) st)).
  { intros l' c Hl'. simpl. destruct (decide (l = l')) as [->|Hne].
    - exists (f c). rewrite list_lookup_alter_eq, Hl'. by split.
    - exists c. by rewrite list_lookup_alter_ne. }
  split; [done|split].
  - unfold wf. simpl. intros Hwf. eapply Forall_impl; [exact Hwf|].
    intros [k l'] (c & Hl' & Hid). simpl in *.
    destruct (Hkept _ _ Hl') as (c' & Hl'' & Hn). exists c'. split; [done|congruence].
  - exists []. by rewrite app_nil_r.
Qed.

Lemma wp_ret {A} T (a : A) st Q E : Q a st → wp T (ret a) st Q E.
Proof. intros HQ. split; [apply evolves_refl|done]. Qed.

Lemma wp_raise {A} T e st (Q : A → State → Prop) E : E e st → wp T (raise e) st Q E.
Proof. intros HE. split; [apply evolves_refl|done]. Qed.

Lemma wp_bind {A B} T (m : M A) (k : A → M B) st Q E :
  wp T m st (fun a st' => wp T (k a) st' Q E) E → wp T (bind m k) st Q E.
Proof.
  unfold wp, bind. destruct (m st) as [[a|e|] st1]; [|done|done].
  intros [Hev Hk]. destruct (k a st1) as [[b|e|] st2]; [| |done].
  - destruct Hk as [Hev' HQ]. eauto using evolves_trans.
  - destruct Hk as [Hev' HE]. eauto using evolves_trans.
Qed.

Lemma wp_try {A} T (m : M A) (h : Exn → M A) st Q E :
  wp T m st Q (fun e st' => wp T (h e) st' Q E) → wp T (try_except m h) st Q E.
Proof.
  unfold wp, try_except. destruct (m st) as [[a|e|] st1]; [done| |done].
  intros [Hev Hh]. destruct (h e st1) as [[b|e'|] st2]; [| |done].
  - destruct Hh as [Hev' HQ]. eauto using evolves_trans.
  - destruct Hh as [Hev' HE]. eauto using evolves_trans.
Qed.

Lemma wp_mono {A} (T T' : Event → Prop) (m : M A) st (Q Q' : A → State → Prop)
    (E E' : Exn → State → Prop) :
  (∀ ev, T ev → T' ev) → (∀ a st', evolves T st st' → Q a st' → Q' a st') →
  (∀ e st', evolves T st st' → E e st' → E' e st') →
  wp T m st Q E → wp T' m st Q' E'.
Proof.
  intros HT HQ HE. unfold wp. destruct (m st) as [[a|e|] st1]; [| |done].
  - intros [Hev Ha]. split; [by eapply evolves_weaken|by apply HQ].
  - intros [Hev He]. split; [by eapply evolves_weaken|by apply HE].
Qed.

Lemma wp_load T l c st (Q : SSHConnection.t → State → Prop) E :
  heap st !! l = Some c → Q c st → wp T (load l) st Q E.
Proof.
  intros Hl HQ. unfold wp, load. rewrite Hl. split; [apply evolves_refl|done].
Qed.

Lemma wp_update T l f st (Q : unit → State → Prop) E :
  (∀ c, SSHConnection.node (f c) = SSHConnection.node c) →
  Q tt (with_heap (alter f l (heap st)) st) → wp T (update l f) st Q E.
Proof. intros Hf HQ. split; [by apply evolves_alter|done]. Qed.

Lemma wp_now T st (Q : Z → State → Prop) E :
  Q (time_time (env st)).1 (with_env (time_time (env st)).2 st) → wp T now st Q E.
Proof.
  intros HQ. unfold wp, now. destruct (time_time (env st)) as [t e] eqn:Ht.
  split; [apply evolves_env|done].
Qed.

Lemma wp_new_client (T : Event → Prop) i st (Q : Handle → State → Prop) E :
  T (i, OpNewClient (next_handle st)) →
  Q (next_handle st)
    (mkState (env st) (heap st) (connections st) (S (next_handle st))
       (trace st ++ [(i, OpNewClient (next_handle st))])) →
  wp T (new_client i) st Q E.
Proof.
  intros HT HQ. split; [|done]. split; [|split; [done|]].
  - intros l c Hl. eauto.
  - eexists. split; [done|]. by constructor.
Qed.

Lemma wp_close_client (T : Event → Prop) i h st (Q : unit → State → Prop) E :
  T (i, OpClose h) →
  Q tt (with_trace (trace st ++ [(i, OpClose h)]) (with_env (client_close h (env st)) st)) →
  wp T (close_client i h) st Q E.
Proof.
  intros HT HQ. split; [|done]. apply (evolves_emit T st _ [(i, OpClose h)]).
  by constructor.
Qed.

Lemma wp_do_connect (T : Event → Prop) i h kw st (Q : unit → State → Prop)
    (E : Exn → State → Prop) :
  T (i, OpConnect h kw) →
  (let st' := with_trace (trace st ++ [(i, OpConnect h kw)])
                (with_env (client_connect h kw (env st)).2 st) in
   match (client_connect h kw (env st)).1 with
   | Some msg => E (lib_error msg) st'
   | None => Q tt st'
   end) →
  wp T (do_connect i h kw) st Q E.
Proof.
  intros HT HQ. unfold wp, do_connect.
  destruct (client_connect h kw (env st)) as [[msg|] e]; simpl in HQ;
    (split; [|done]); apply (evolves_emit T st _ [(i, OpConnect h kw)]);
    by constructor.
Qed.

Lemma wp_do_exec (T : Event → Prop) i h cmd t st (Q : Z * string * string → State → Prop)
    (E : Exn → State → Prop) :
  T (i, OpExec h cmd t) →
  (let st' := with_trace (trace st ++ [(i, OpExec h cmd t)])
                (with_env (client_exec_command h cmd t (env st)).2 st) in
   match (client_exec_command h cmd t (env st)).1 with
   | inl msg => E (lib_error msg) st'
   | inr out => Q out st'
   end) →
  wp T (do_exec i h cmd t) st Q E.
Proof.
  intros HT HQ. unfold wp, do_exec.
  destruct (client_exec_command h cmd t (env st)) as [[msg|out] e]; simpl in HQ;
    (split; [|done]); apply (evolves_emit T st _ [(i, OpExec h cmd t)]);
    by constructor.
Qed.

Lemma wp_sleep (T : Event → Prop) i d st (Q : unit → State → Prop)
    (E : Exn → State → Prop) :
  T (i, OpSleep d) →
  (∀ e st', ¬ sleeps d → E e st') →
  (∀ e', Q tt (with_trace (trace st ++ [(i, OpSleep d)]) (with_env e' st))) →
  wp T (sleep i d) st Q E.
Proof.
  intros HT HE HQ. unfold wp, sleep.
  destruct ((d <? - sleep_limit) || (sleep_limit <? d)) eqn:Hrange.
  { split; [apply evolves_refl|]. apply HE. intros [Hd _].
    apply orb_true_iff in Hrange as [Hlow|Hhigh]; lia. }
  destruct (Z.ltb_spec d 0) as [Hneg|Hpos].
  { split; [apply evolves_refl|]. apply HE. intros [Hd _]. lia. }
  destruct (sleep_env d (env st)) as [[msg|] e'] eqn:Hs.
  - split; [apply (evolves_emit T st _ [(i, OpSleep d)]); by constructor|].
    apply HE. intros [_ Hall]. specialize (Hall (env st)). by rewrite Hs in Hall.
  - split; [apply (evolves_emit T st _ [(i, OpSleep d)]); by constructor|apply HQ].
Qed.

Lemma wp_with_credentials T c kw st (Q : ConnectKwargs.t → State → Prop)
    (E : Exn → State → Prop) :
  (∀ kw', Q kw' st) → (∀ e, E e st) → wp T (with_credentials c kw) st Q E.
Proof.
  intros HQ HE.
  assert (Hpw : wp T (with_password c kw) st Q E).
  { unfold wp, with_password. destruct (opt_truthy _); (split; [apply evolves_refl|done]). }
  unfold with_credentials. destruct (SSHConfig.key_file _) as [kf|]; [|done].
  destruct (Py.truthy kf); [|done].
  unfold wp. destruct (os_path_exists _ _); [|exact Hpw].
  split; [apply evolves_refl|done].
Qed.

(** Inversion of a run that returns a value. *)
Lemma bind_val {A B} (m : M A) (k : A → M B) st b st' :
  bind m k st = (Val b, st') →
  ∃ a st1, m st = (Val a, st1) ∧ k a st1 = (Val b, st').
Proof.
  unfold bind. destruct (m st) as [[a|e|] st1]; [eauto|done|done].
Qed.

Lemma try_val {A} (m : M A) (h : Exn → M A) st a st' :
  try_except m h st = (Val a, st') →
  m st = (Val a, st') ∨ ∃ e st1, m st = (Raise e, st1) ∧ h e st1 = (Val a, st').
Proof.
  unfold try_except. destruct (m st) as [[a0|e|] st1]; [auto|eauto|done].
Qed.

Lemma ret_val {A} (a b : A) st st' : ret a st = (Val b, st') → a = b ∧ st = st'.
Proof. unfold ret. by intros [= -> ->]. Qed.

(** The continuation of a bind may use that the state has evolved. *)
Lemma wp_bind_ev {A B} T (m : M A) (k : A → M B) st Q E :
  wp T m st (fun a st' => evolves T st st' → wp T (k a) st' Q E) E →
  wp T (bind m k) st Q E.
Proof.
  intros Hm. apply wp_bind. eapply wp_mono; [| | |exact Hm]; simpl; auto.
Qed.

Lemma wp_try_ev {A} T (m : M A) (h : Exn → M A) st Q E :
  wp T m st Q (fun e st' => evolves T st st' → wp T (h e) st' Q E) →
  wp T (try_except m h) st Q E.
Proof.
  intros Hm. apply wp_try. eapply wp_mono; [| | |exact Hm]; simpl; auto.
Qed.

Lemma holds_evolves T st st' l i : evolves T st st' → holds st l i → holds st' l i.
Proof.
  intros (Hk & _) (c & Hl & Hid). destruct (Hk _ _ Hl) as (c' & Hl' & Hn).
  exists c'. split; [done|congruence].
Qed.

Lemma wf_evolves T st st' : evolves T st st' → wf st → wf st'.
Proof. intros (_ & Hw & _). exact Hw. Qed.

(** A call that cannot fault and cannot raise returns. *)
Lemma wp_returns {A} T (m : M A) st Q :
  wp T m st Q (fun _ _ => False) →
  ∃ a st', m st = (Val a, st') ∧ evolves T st st' ∧ Q a st'.
Proof.
  unfold wp. destruct (m st) as [[a|e|] st']; [|by intros []|done].
  intros [Hev HQ]. eauto.
Qed.

End Rules.

Ltac wp_step :=
  first
    [ apply wp_bind
    | apply wp_try
    | apply wp_ret
    | apply wp_raise
    | apply wp_update; [by intros []|]
    | apply wp_now
    | apply wp_new_client; [done|]
    | apply wp_close_client; [done|]
    | apply wp_do_connect; [done|]
    | apply wp_do_exec; [done|] ].

(** ** SSHConnection *)

Section ConnectionFacts.

Context `{Collaborators}.

Local Open Scope list_scope.

Lemma connect_spec self c st :
  heap st !! self = Some c →
  wp (for_node (NodeConfig.id (SSHConnection.node c))) (connect self) st
    (fun b st' =>
       ∃ c', heap st' !! self = Some c'
             ∧ SSHConnection.node c' = SSHConnection.node c
             ∧ if b
               then SSHConnection.connected c' = true
                    ∧ SSHConnection.client c' = Some (next_handle st)
                    ∧ ∃ e, time_time e = (SSHConnection.last_activity c', env st')
               else SSHConnection.connected c' = false
                    ∧ SSHConnection.client c' = None
                    ∧ last (trace st')
                      = Some (NodeConfig.id (SSHConnection.node c), OpClose (next_handle st)))
    (fun _ _ => False).
Proof.
  intros Hl. unfold connect.
  apply wp_bind, (wp_load _ _ c); [done|].
  apply wp_try. repeat wp_step.
  apply wp_with_credentials.
  - intros kw. repeat wp_step. simpl.
    destruct (client_connect _ _ _) as [[msg|] e] eqn:Hc; simpl.
    + repeat wp_step. simpl.
      eapply wp_load; [simpl; rewrite !list_lookup_alter_eq, Hl; reflexivity|].
      simpl. repeat wp_step. simpl.
      rewrite !list_lookup_alter_eq, Hl. simpl. eexists. split; [reflexivity|].
      simpl. repeat split. by rewrite last_snoc.
    + repeat wp_step. simpl.
      rewrite !list_lookup_alter_eq, Hl. simpl. eexists. split; [reflexivity|].
      simpl. repeat split. exists e. by destruct (time_time e).
  - intros e. repeat wp_step. simpl.
    eapply wp_load; [simpl; rewrite !list_lookup_alter_eq, Hl; reflexivity|].
    simpl. repeat wp_step. simpl.
    rewrite !list_lookup_alter_eq, Hl. simpl. eexists. split; [reflexivity|].
    simpl. repeat split. by rewrite last_snoc.
Qed.

(** What the authentication part of [connect] returns. *)
Lemma with_credentials_run c kw st :
  let ssh := SSHConnection.ssh_config c in
  let key :=
    match SSHConfig.key_file ssh with
    | Some kf =>
        if Py.truthy kf && os_path_exists (env st) (os_path_expanduser (env st) kf)
        then Some (os_path_expanduser (env st) kf) else None
    | None => None
    end in
  let password :=
    or_opt (NodeConfig.password (SSHConnection.node c))
      (or_opt (SSHConfig.password ssh) (os_getenv (env st) "SSH_PASSWORD")) in
  let kwargs key_filename password :=
    ConnectKwargs.mk (ConnectKwargs.hostname kw) (ConnectKwargs.port kw)
      (ConnectKwargs.username kw) (ConnectKwargs.timeout kw) key_filename password in
  with_credentials c kw st
  = (match key with
     | Some k => Val (kwargs (Some k) None)
     | None =>
         if opt_truthy password
         then Val (kwargs (ConnectKwargs.key_filename kw) password)
         else Raise (mkExn ValueError
                       ("节点 " ++ NodeConfig.name (SSHConnection.node c) ++ " 缺少认证信息"))
     end, st).
Proof.
  intros ssh key password kwargs. subst ssh key password kwargs. cbv zeta.
  unfold with_credentials, with_password.
  destruct (SSHConfig.key_file (SSHConnection.ssh_config c)) as [kf|];
    [destruct (Py.truthy kf); cbn [andb];
     [destruct (os_path_exists (env st) (os_path_expanduser (env st) kf))|]|];
    try reflexivity; by destruct (opt_truthy _).
Qed.

(** C3. [connect] on a connection object never raises: it returns a
    boolean, and which one is decided by the credentials and by the
    handshake. With credentials and a handshake that succeeds it returns
    [True]: the object is marked connected, keeps the client opened by this
    call, and its [last_activity] is the reading of the clock taken after
    the handshake. With credentials and a handshake that fails it returns
    [False]: the object is marked not connected, the client opened by this
    call is closed and the handle cleared. Without credentials no handshake
    is requested, and the outcome is the same: [False], not connected, the
    client closed and cleared. On a failure [last_activity] is left as it
    was. *)
Theorem connect_never_raises self c st :
  heap st !! self = Some c →
  let node := SSHConnection.node c in
  let ssh := SSHConnection.ssh_config c in
  let i := NodeConfig.id node in
  let h := next_handle st in
  let connect_kwargs :=
    ConnectKwargs.mk (NodeConfig.ip node)
      (or_port (NodeConfig.port node) (SSHConfig.port ssh))
      (or_str (NodeConfig.username node) (SSHConfig.username ssh))
      (SSHConfig.timeout ssh) None None in
  ∃ b st' c',
    connect self st = (Val b, st')
    ∧ heap st' !! self = Some c'
    ∧ SSHConnection.node c' = node
    ∧ SSHConnection.ssh_config c' = ssh
    ∧ match (with_credentials c connect_kwargs st).1 with
      | Val kw =>
          let handshake := client_connect h kw (env st) in
          match handshake.1 with
          | None =>
              b = true
              ∧ SSHConnection.connected c' = true
              ∧ SSHConnection.client c' = Some h
              ∧ SSHConnection.last_activity c' = (time_time handshake.2).1
              ∧ env st' = (time_time handshake.2).2
              ∧ trace st' = trace st ++ [(i, OpNewClient h); (i, OpConnect h kw)]
          | Some msg =>
              b = false
              ∧ SSHConnection.connected c' = false
              ∧ SSHConnection.client c' = None
              ∧ SSHConnection.last_activity c' = SSHConnection.last_activity c
              ∧ env st' = client_close h handshake.2
              ∧ trace st'
                = trace st ++ [(i, OpNewClient h); (i, OpConnect h kw); (i, OpClose h)]
          end
      | _ =>
          b = false
          ∧ SSHConnection.connected c' = false
          ∧ SSHConnection.client c' = None
          ∧ SSHConnection.last_activity c' = SSHConnection.last_activity c
          ∧ env st' = client_close h (env st)
          ∧ trace st' = trace st ++ [(i, OpNewClient h); (i, OpClose h)]
      end.
Proof.
  intros Hl node ssh i h connect_kwargs.
  unfold connect, bind at 1, load. rewrite Hl.
  unfold try_except, bind at 1, new_client.
  unfold bind at 1, update.
  unfold bind at 1. rewrite !with_credentials_run.
  subst connect_kwargs.
  cbn [env heap connections next_handle trace with_heap with_env with_trace
       ConnectKwargs.hostname ConnectKwargs.port ConnectKwargs.username
       ConnectKwargs.timeout ConnectKwargs.key_filename fst snd].
  fold node ssh i h.
  set (key := match SSHConfig.key_file ssh with
              | Some kf =>
                  if Py.truthy kf && os_path_exists (env st) (os_path_expanduser (env st) kf)
                  then Some (os_path_expanduser (env st) kf) else None
              | None => None
              end).
  set (password := or_opt (NodeConfig.password node)
                     (or_opt (SSHConfig.password ssh) (os_getenv (env st) "SSH_PASSWORD"))).
  clearbody key password.
  destruct key as [k|]; [|destruct (opt_truthy password)].
  all: unfold bind, do_connect, now, ret, raise, load, close_client;
       cbn [env heap connections next_handle trace with_heap with_env with_trace
            ConnectKwargs.key_filename fst snd].
  1,2: match goal with
       | |- context [client_connect ?a ?b ?c] =>
           destruct (client_connect a b c) as [[msg|] e]
       end.
  all: cbn [env heap connections next_handle trace with_heap with_env with_trace
            ConnectKwargs.key_filename fst snd];
       rewrite ?list_lookup_alter_eq, ?Hl;
       cbn [env heap connections next_handle trace with_heap with_env with_trace
            option_map fmap option_fmap SSHConnection.client SSHConnection.set_client
            SSHConnection.set_connected fst snd].
  all: try match goal with
            | |- context [time_time ?x] => destruct (time_time x) as [t e0]
            end.
  all: eexists _, _, _; (split; [reflexivity|]);
       cbn [env heap trace with_heap with_env with_trace fst snd];
       rewrite ?list_lookup_alter_eq, ?Hl;
       (split; [reflexivity|]); cbn; rewrite <- ?app_assoc; done.
Qed.

(** C4. [execute_command] raises the not-connected error exactly when the
    object is not marked connected or holds no client handle. When it is
    connected through handle [h]: if the client returns an exit status and
    the two outputs, these are returned and [last_activity] becomes a clock
    reading taken after the command; if the client fails, its error is
    raised as it is and the object is not touched. *)
Theorem execute_command_outcomes self c command timeout st :
  heap st !! self = Some c →
  let not_connected :=
    mkExn Exception ("节点 " ++ NodeConfig.name (SSHConnection.node c) ++ " 未连接")%string in
  ((execute_command self command timeout st).1 = Raise not_connected
   ↔ SSHConnection.connected c = false ∨ SSHConnection.client c = None)
  ∧ ∀ h, SSHConnection.connected c = true → SSHConnection.client c = Some h →
      let i := NodeConfig.id (SSHConnection.node c) in
      let st1 := with_trace (trace st ++ [(i, OpExec h command timeout)])
                   (with_env (client_exec_command h command timeout (env st)).2 st) in
      match (client_exec_command h command timeout (env st)).1 with
      | inr out =>
          ∃ st', execute_command self command timeout st = (Val out, st')
                 ∧ heap st' !! self
                   = Some (SSHConnection.set_last_activity (time_time (env st1)).1 c)
                 ∧ env st' = (time_time (env st1)).2
                 ∧ trace st' = trace st1
      | inl msg =>
          execute_command self command timeout st = (Raise (lib_error msg), st1)
      end.
Proof.
  intros Hl not_connected. unfold execute_command, bind, load. rewrite Hl.
  destruct (SSHConnection.connected c) eqn:Hconn;
    [destruct (SSHConnection.client c) as [h|] eqn:Hcl|].
  - split.
    + unfold try_except, bind, do_exec, raise.
      destruct (client_exec_command h command timeout (env st)) as [[msg|out] e].
      * simpl. split; [discriminate|]. intros [?|?]; discriminate.
      * simpl. unfold now. simpl. destruct (time_time e) as [t e'].
        simpl. split; [discriminate|]. intros [?|?]; discriminate.
    + intros h' _ [= <-]. simpl.
      unfold try_except, bind, do_exec, raise.
      destruct (client_exec_command h command timeout (env st)) as [[msg|out] e];
        simpl; [reflexivity|].
      unfold now. simpl. destruct (time_time e) as [t e']. simpl.
      eexists. split; [reflexivity|]. simpl.
      rewrite list_lookup_alter_eq, Hl. done.
  - split; [|intros h _ [=]]. simpl. split; [auto|done].
  - split; [|intros h [=]]. simpl. split; [auto|done].
Qed.

End ConnectionFacts.

Lemma connect_never_raises_witness :
  let st := pool_state [node_2; node_5] in
  let c := SSHConnection.mk node_5 (Config.ssh sample_config) None false 0 in
  let kw := ConnectKwargs.mk "10.0.0.9" 22 "root" 30 None (Some "secret") in
  heap st !! 1%nat = Some c
  ∧ ∃ b st' c',
      connect 1 st = (Val b, st')
      ∧ heap st' !! 1%nat = Some c'
      ∧ b = false
      ∧ SSHConnection.connected c' = false
      ∧ SSHConnection.client c' = None
      ∧ trace st' = [(5, OpNewClient 0); (5, OpConnect 0 kw); (5, OpClose 0)].
Proof.
  intros st c kw. split; [reflexivity|].
  destruct (connect_never_raises 1 c st eq_refl)
    as (b & st' & c' & Hrun & Hl & _ & _ & Hb & Hconn & Hcl & _ & _ & Htr).
  exists b, st', c'.
  split; [exact Hrun|]. split; [exact Hl|]. split; [exact Hb|].
  split; [exact Hconn|]. split; [exact Hcl|exact Htr].
Defined.

(** On the sample host: node 2 connects, node 5 cannot be reached. *)
Example connect_sample :
  (connect 0 (pool_state [node_2; node_5])).1 = Val true
  ∧ (connect 1 (pool_state [node_2; node_5])).1 = Val false
  ∧ trace (connect 1 (pool_state [node_2; node_5])).2
    = [(5, OpNewClient 0);
       (5, OpConnect 0 (ConnectKwargs.mk "10.0.0.9" 22 "root" 30 None (Some "secret")));
       (5, OpClose 0)].
Proof. repeat split; reflexivity. Qed.

Lemma execute_command_outcomes_witness :
  let st := connected_state in
  let c := SSHConnection.mk node_2 (Config.ssh sample_config) (Some O) true 3 in
  heap st !! O = Some c
  ∧ ((execute_command 0 "echo hi" 300 st).1
       = Raise (mkExn Exception "节点 node-2 未连接")
     ↔ SSHConnection.connected c = false ∨ SSHConnection.client c = None)
  ∧ ∃ st', execute_command 0 "echo hi" 300 st = (Val (0, "hi", ""), st')
           ∧ heap st' !! O = Some (SSHConnection.set_last_activity 7 c)
           ∧ env st' = 8
           ∧ trace st' = [(2, OpExec 0 "echo hi" 300)].
Proof.
  intros st c. split; [reflexivity|].
  destruct (execute_command_outcomes 0 c "echo hi" 300 st eq_refl) as [Hiff Hrun].
  split; [exact Hiff|].
  exact (Hrun O eq_refl eq_refl).
Defined.

(** On a fresh, not yet connected object the call is refused. *)
Example execute_command_not_connected :
  (execute_command 0 "echo hi" 300 (pool_state [node_2])).1
  = Raise (mkExn Exception "节点 node-2 未连接").
Proof. reflexivity. Qed.

(** ** NodeManager *)

Section PoolFacts.

Context `{Collaborators}.

Local Open Scope list_scope.

Lemma cleared_alter f l l' st :
  (∀ c, SSHConnection.connected c = false → SSHConnection.client c = None →
        SSHConnection.connected (f c) = false ∧ SSHConnection.client (f c) = None) →
  cleared st l' → cleared (with_heap (alter f l (heap st)) st) l'.
Proof.
  intros Hf (c & Hl & Hc & Hh). unfold cleared. simpl.
  destruct (decide (l = l')) as [->|Hne].
  - exists (f c). rewrite list_lookup_alter_eq, Hl. split; [done|]. by apply Hf.
  - exists c. by rewrite list_lookup_alter_ne.
Qed.

Lemma disconnect_run l c st :
  heap st !! l = Some c →
  ∃ st', disconnect l st = (Val tt, st')
         ∧ connections st' = connections st
         ∧ cleared st' l
         ∧ (∀ l', cleared st l' → cleared st' l')
         ∧ (∀ l', is_Some (heap st !! l') → is_Some (heap st' !! l')).
Proof.
  intros Hl. unfold disconnect, bind, load. rewrite Hl.
  destruct (SSHConnection.client c) as [h|] eqn:Hcl; simpl;
    (eexists; split; [reflexivity|]); simpl; (split; [done|]).
  - split; [|split].
    + unfold cleared. simpl. eexists. rewrite !list_lookup_alter_eq, Hl. done.
    + intros l' Hc.
      apply (cleared_alter (SSHConnection.set_client None) l l') in Hc; [|by intros []].
      apply (cleared_alter (SSHConnection.set_connected false) l l') in Hc; [|by intros []].
      exact Hc.
    + intros l' [c' Hl']. destruct (decide (l = l')) as [->|Hne].
      * rewrite !list_lookup_alter_eq, Hl'. by eexists.
      * rewrite !list_lookup_alter_ne by done. by eexists.
  - split; [|split].
    + unfold cleared. simpl. eexists. rewrite !list_lookup_alter_eq, Hl. done.
    + intros l' Hc.
      by apply (cleared_alter (SSHConnection.set_connected false) l l') in Hc;
        [|intros []].
    + intros l' [c' Hl']. destruct (decide (l = l')) as [->|Hne].
      * rewrite !list_lookup_alter_eq, Hl'. by eexists.
      * rewrite !list_lookup_alter_ne by done. by eexists.
Qed.

Lemma for_each_disconnect ls st :
  (∀ l, l ∈ ls → is_Some (heap st !! l)) →
  ∃ st', for_each ls disconnect st = (Val tt, st')
         ∧ connections st' = connections st
         ∧ (∀ l, l ∈ ls → cleared st' l)
         ∧ (∀ l, cleared st l → cleared st' l).
Proof.
  revert st. induction ls as [|l ls IH]; intros st Hvalid; simpl.
  - exists st. split; [done|]. split; [done|]. split; [|done].
    intros l Hl. inversion Hl.
  - destruct (Hvalid l) as [c Hl]; [left|].
    destruct (disconnect_run l c st Hl) as (st1 & Hrun & Hconn & Hcl & Hkeep & Hsome).
    destruct (IH st1) as (st2 & Hrun2 & Hconn2 & Hcl2 & Hkeep2).
    { intros l' Hl'. apply Hsome, Hvalid. by right. }
    exists st2. unfold bind. rewrite Hrun, Hrun2.
    split; [done|]. split; [congruence|]. split; [|auto].
    intros l' [->|Hl']%elem_of_cons; auto.
Qed.

(** C9. On a pool that satisfies its invariant, [disconnect_all] returns
    without raising and leaves the dictionary empty; every object the
    dictionary held has its connected flag cleared and no client handle; a
    second call right after returns as well and leaves the very same
    state, hence again an empty dictionary and the same cleared objects. *)
Theorem disconnect_all_idempotent st :
  wf st →
  ∃ st1,
    disconnect_all st = (Val tt, st1)
    ∧ connections st1 = []
    ∧ (∀ k l, (k, l) ∈ connections st →
         ∃ c, heap st1 !! l = Some c
              ∧ SSHConnection.connected c = false ∧ SSHConnection.client c = None)
    ∧ disconnect_all st1 = (Val tt, st1).
Proof.
  intros Hwf.
  destruct (for_each_disconnect (List.map snd (connections st)) st)
    as (st' & Hrun & Hconn & Hcl & _).
  { intros l Hl. apply list_elem_of_In, in_map_iff in Hl as ([k l'] & <- & Hin).
    unfold wf in Hwf. rewrite Forall_forall in Hwf.
    destruct (Hwf (k, l')) as (c & Hc & _); [by apply list_elem_of_In|]. by eexists. }
  exists (with_connections [] st'). unfold disconnect_all, bind. rewrite Hrun.
  split; [done|]. split; [done|]. split.
  - intros k l Hin. apply (Hcl l).
    apply list_elem_of_In, in_map_iff. exists (k, l). split; [done|].
    by apply list_elem_of_In.
  - reflexivity.
Qed.

End PoolFacts.

(** A state of the sample host in which nodes 2 and 3 are connected. *)
Lemma disconnect_all_idempotent_witness :
  let st : @State sample_host :=
    mkState 7%Z
      [SSHConnection.mk node_2 (Config.ssh sample_config) (Some O) true 3;
       SSHConnection.mk (sample_node 3 "node-3" "10.0.0.4" true)
         (Config.ssh sample_config) (Some 1%nat) true 5]
      [(2, O); (3, 1%nat)] 2%nat [] in
  wf st
  ∧ ∃ st1,
      disconnect_all st = (Val tt, st1)
      ∧ connections st1 = []
      ∧ (∀ k l, (k, l) ∈ connections st →
           ∃ c, heap st1 !! l = Some c
                ∧ SSHConnection.connected c = false ∧ SSHConnection.client c = None)
      ∧ disconnect_all st1 = (Val tt, st1).
Proof.
  intros st.
  assert (Hwf : wf st).
  { repeat constructor; simpl; eexists; (split; [reflexivity|reflexivity]). }
  split; [exact Hwf|]. exact (disconnect_all_idempotent st Hwf).
Defined.

Example disconnect_all_sample :
  let st1 := (disconnect_all connected_state).2 in
  connections st1 = [] ∧ trace st1 = [(2, OpClose 0)]
  ∧ List.map SSHConnection.connected (heap st1) = [false]
  ∧ (disconnect_all st1).2 = st1.
Proof. repeat split; reflexivity. Qed.

(** ** The workers *)

Section WorkerFacts.

Context `{Collaborators}.

Variable cfg : Config.t.

Local Open Scope list_scope.

Lemma dict_get_elem d k l : dict_get d k = Some l → (k, l) ∈ d.
Proof.
  induction d as [|[k' l'] d IH]; simpl; [done|].
  destruct (Z.eqb_spec k' k) as [->|Hne].
  - intros [= ->]. left.
  - intros Hd. right. auto.
Qed.

Lemma get_connection_spec T node st (E : Exn → State → Prop) :
  wf st →
  wp T (get_connection cfg node) st (fun l st' => holds st' l (NodeConfig.id node)) E.
Proof.
  intros Hwf. unfold wp, get_connection.
  destruct (dict_get (connections st) (NodeConfig.id node)) as [l|] eqn:Hd.
  - split; [apply evolves_refl|].
    apply dict_get_elem in Hd. unfold wf in Hwf. rewrite Forall_forall in Hwf.
    exact (Hwf _ Hd).
  - destruct (time_time (env st)) as [t e]. split.
    + split; [|split].
      * intros l c Hl. exists c. split; [|done]. simpl. by apply lookup_app_l_Some.
      * intros _. unfold wf. simpl. apply Forall_app. split.
        -- eapply Forall_impl; [exact Hwf|]. intros [k l] (c & Hl & Hid). simpl in *.
           exists c. split; [|done]. by apply lookup_app_l_Some.
        -- constructor; [|constructor]. simpl. eexists.
           split; [by apply list_lookup_middle|done].
      * exists []. simpl. by rewrite app_nil_r.
    + eexists. simpl. split; [by apply list_lookup_middle|done].
Qed.

Lemma is_alive_spec T l i st (E : Exn → State → Prop) :
  holds st l i → wp T (is_alive l) st (fun _ st' => st' = st) E.
Proof.
  intros (c & Hl & _). unfold is_alive. apply wp_bind, (wp_load _ _ c); [done|].
  destruct (SSHConnection.connected c), (SSHConnection.client c) as [h|];
    try by apply wp_ret.
  unfold wp. destruct (transport_is_active h (env st)) as [[|]|];
    (split; [apply evolves_refl|done]).
Qed.

Lemma connect_holds l i st :
  holds st l i → wp (for_node i) (connect l) st (fun _ _ => True) (fun _ _ => False).
Proof.
  intros (c & Hl & <-). eapply wp_mono; [| | |exact (connect_spec l c st Hl)]; auto.
Qed.

Lemma execute_command_spec l i command timeout st :
  holds st l i →
  wp (for_node i) (execute_command l command timeout) st
    (fun _ st' => ∃ h, last (trace st') = Some (i, OpExec h command timeout))
    (fun _ _ => True).
Proof.
  intros (c & Hl & <-). unfold execute_command.
  apply wp_bind, (wp_load _ _ c); [done|].
  destruct (SSHConnection.connected c), (SSHConnection.client c) as [h|];
    try by apply wp_raise.
  repeat wp_step. simpl.
  destruct (client_exec_command h command timeout (env st)) as [[msg|out] e]; simpl.
  - by repeat wp_step.
  - repeat wp_step. simpl. exists h. by rewrite last_snoc.
Qed.

Lemma ensure_connection_spec node st :
  wf st →
  wp (for_node (NodeConfig.id node)) (ensure_connection cfg node) st
    (fun l st' => holds st' l (NodeConfig.id node)) (fun _ _ => True).
Proof.
  intros Hwf. unfold ensure_connection.
  apply wp_bind. eapply wp_mono; [| | |exact (get_connection_spec _ node st _ Hwf)];
    [done| |intros e st' _ HE; exact HE].
  intros l st1 _ Hl. simpl.
  apply wp_bind. eapply wp_mono; [| | |exact (is_alive_spec _ l _ st1 _ Hl)];
    [done| |intros e st' _ HE; exact HE].
  intros alive st2 _ ->. simpl. destruct alive; [by apply wp_ret|].
  apply wp_bind_ev. eapply wp_mono; [| | |exact (connect_holds l _ st1 Hl)];
    [done| |by intros].
  intros ok st3 _ _ Hev. destruct ok.
  - apply wp_ret. by eapply holds_evolves.
  - by apply wp_raise.
Qed.

(** An attempt never raises, and its result names the node. *)
Lemma execute_task_on_node_spec node task st :
  wf st →
  wp (for_node (NodeConfig.id node)) (execute_task_on_node cfg node task) st
    (fun r st' => TaskResult.node_id r = NodeConfig.id node) (fun _ _ => False).
Proof.
  intros Hwf. unfold execute_task_on_node.
  apply wp_bind, wp_now. apply wp_bind.
  set (st1 := with_env _ st).
  assert (Hwf1 : wf st1) by exact Hwf.
  apply wp_try. apply wp_bind.
  eapply wp_mono; [| | |exact (ensure_connection_spec node st1 Hwf1)];
    [done| |].
  - intros l st2 _ Hl. simpl. destruct (task_command task) as [e|command].
    + apply wp_raise. repeat wp_step. done.
    + apply wp_bind.
      eapply wp_mono; [| | |exact (execute_command_spec l _ command _ st2 Hl)]; [done| |].
      * intros [[code out] err] st3 _ _. repeat wp_step. done.
      * intros e st3 _ _. repeat wp_step. done.
  - intros e st2 _ _. repeat wp_step. done.
Qed.

(** *** Retries *)

Lemma attempts_after_ready node task st0 k st r st' :
  ready cfg node task st0 k st →
  execute_task_on_node cfg node task st = (Val r, st') →
  attempts cfg node task st0 (S k) r st'.
Proof.
  intros [[-> ->]|(r1 & st1 & Hatt & Hfail & Hsleep)] Hrun.
  - by constructor.
  - by econstructor.
Qed.

Lemma attempts_last_run node task st0 k r st' :
  attempts cfg node task st0 k r st' →
  ∃ st, execute_task_on_node cfg node task st = (Val r, st').
Proof. destruct 1; eauto. Qed.

(** What the loop returns is the result of the last attempt made, with the
    index of that attempt as [retry_count]; the loop stops at the first
    success or when the attempts are used up. *)
Lemma retry_loop_last_attempt node task st0 n :
  ∀ k st last_result r st',
    retry_loop cfg node task n (Z.of_nat k) last_result st = (Val (Some r), st') →
    Z.of_nat k + Z.of_nat n = Task.retry_count task + 1 →
    match n with
    | O => ∃ r0, last_result = Some (TaskResult.set_retry_count (Z.of_nat k - 1) r0)
                 ∧ attempts cfg node task st0 k r0 st
                 ∧ TaskResult.success r0 = false
    | S _ => ready cfg node task st0 k st
    end →
    ∃ k' r0,
      attempts cfg node task st0 k' r0 st'
      ∧ r = TaskResult.set_retry_count (Z.of_nat k' - 1) r0
      ∧ (TaskResult.success r0 = true ∨ Z.of_nat k' = Task.retry_count task + 1).
Proof.
  induction n as [|n IH]; intros k st last_result r st' Hrun Hcount Hinv.
  - simpl in Hrun. unfold ret in Hrun. simplify_eq.
    destruct Hinv as (r0 & [= ->] & Hatt & Hfail).
    exists k, r0. split; [done|]. split; [done|]. right. lia.
  - simpl in Hrun. unfold bind at 1 in Hrun.
    destruct (execute_task_on_node cfg node task st) as [[r0|e|] st1] eqn:Hexec;
      [|done|done].
    pose proof (attempts_after_ready _ _ _ _ _ _ _ Hinv Hexec) as Hatt.
    assert (Hk : Z.of_nat (S k) - 1 = Z.of_nat k) by lia.
    destruct (TaskResult.success r0) eqn:Hs0.
    + unfold ret in Hrun. simplify_eq.
      exists (S k), r0. rewrite Hk. split; [done|]. split; [done|]. by left.
    + unfold bind in Hrun.
      destruct (Z.ltb_spec (Z.of_nat k) (Task.retry_count task)) as [Hlt|Hge].
      * destruct (sleep (NodeConfig.id node) (Task.retry_delay task) st1)
          as [[[]|e|] st2] eqn:Hsleep; [|done|done].
        replace (Z.of_nat k + 1) with (Z.of_nat (S k)) in Hrun by lia.
        apply (IH _ _ _ _ _ Hrun); [lia|].
        destruct n as [|n']; [lia|]. right. eauto.
      * unfold ret at 1 in Hrun.
        replace (Z.of_nat k + 1) with (Z.of_nat (S k)) in Hrun by lia.
        apply (IH _ _ _ _ _ Hrun); [lia|].
        destruct n as [|n']; [|lia]. rewrite Hk. eauto.
Qed.

(** The loop does not fault; it raises only when the pause is refused. *)
Lemma retry_loop_spec node task n :
  ∀ attempt last_result st,
    wf st →
    (∀ r, last_result = Some r → TaskResult.node_id r = NodeConfig.id node) →
    wp (for_node (NodeConfig.id node)) (retry_loop cfg node task n attempt last_result) st
      (fun o st' =>
         match o with
         | Some r => TaskResult.node_id r = NodeConfig.id node
         | None => n = O ∧ last_result = None
         end)
      (fun _ _ => ¬ sleeps (Task.retry_delay task)).
Proof.
  induction n as [|n IH]; intros attempt last_result st Hwf Hlast; simpl.
  - apply wp_ret. destruct last_result; auto.
  - apply wp_bind_ev.
    eapply wp_mono; [| | |exact (execute_task_on_node_spec node task st Hwf)];
      [done| |by intros].
    intros r st1 _ Hid Hev1. pose proof (wf_evolves _ _ _ Hev1 Hwf) as Hwf1.
    destruct (TaskResult.success _); [by apply wp_ret|].
    assert (Hnext : ∀ st2, wf st2 →
      wp (for_node (NodeConfig.id node))
        (retry_loop cfg node task n (attempt + 1)
           (Some (TaskResult.set_retry_count attempt r))) st2
        (fun o _ => match o with
                    | Some r' => TaskResult.node_id r' = NodeConfig.id node
                    | None => S n = O ∧ last_result = None
                    end)
        (fun _ _ => ¬ sleeps (Task.retry_delay task))).
    { intros st2 Hwf2. eapply wp_mono; [| | |apply (IH _ _ st2 Hwf2)].
      - done.
      - intros [r'|] ? _; [done|]. by intros [_ [=]].
      - by intros.
      - by intros r' [= <-]. }
    apply wp_bind_ev. destruct (attempt <? Task.retry_count task).
    + apply wp_sleep; [done|auto|].
      intros e' Hev2. apply Hnext. exact (wf_evolves _ _ _ Hev2 Hwf1).
    + apply wp_ret. intros _. by apply Hnext.
Qed.

(** With a non-negative retry count the worker returns a result for its
    node, unless the pause raises. *)
Lemma execute_task_with_retry_spec node task st :
  wf st → 0 ≤ Task.retry_count task →
  wp (for_node (NodeConfig.id node)) (execute_task_with_retry cfg node task) st
    (fun o _ => ∃ r, o = Some r ∧ TaskResult.node_id r = NodeConfig.id node)
    (fun _ _ => ¬ sleeps (Task.retry_delay task)).
Proof.
  intros Hwf Hrc. unfold execute_task_with_retry.
  eapply wp_mono; [| | |apply (retry_loop_spec node task _ 0 None st Hwf)];
    [done| |by intros|done].
  intros [r|] st' _; [eauto|]. intros [Hn _].
  assert (Z.to_nat (Task.retry_count task + 1) ≠ O) by lia. done.
Qed.

(** A command that returns was answered by the client. *)
Lemma execute_command_val l command timeout st out st' :
  execute_command l command timeout st = (Val out, st') →
  ∃ h, (client_exec_command h command timeout (env st)).1 = inr out.
Proof.
  unfold execute_command. intros (c & st1 & Hload & Hrun)%bind_val.
  unfold load in Hload. destruct (heap st !! l); [|done]. simplify_eq.
  destruct (SSHConnection.connected c), (SSHConnection.client c) as [h|]; try done.
  apply try_val in Hrun as [Hrun|(e & st2 & _ & Hraise)]; [|done].
  apply bind_val in Hrun as (out0 & st2 & Hexec & Hrest).
  apply bind_val in Hrest as (t & st3 & _ & Hrest).
  apply bind_val in Hrest as ([] & st4 & _ & [-> _]%ret_val).
  exists h. unfold do_exec in Hexec.
  destruct (client_exec_command h command timeout (env st1)) as [[msg|o] e];
    by simplify_eq.
Qed.

(** An attempt whose command cannot exit with status 0 fails. *)
Lemma nonzero_exit_fails node task :
  (∀ command h e,
     task_command task = inr command →
     match (client_exec_command h command (Task.timeout task) e).1 with
     | inr (code, _, _) => code ≠ 0
     | inl _ => True
     end) →
  ∀ st r st',
    execute_task_on_node cfg node task st = (Val r, st') →
    TaskResult.success r = false.
Proof.
  intros Hexit st r st'. unfold execute_task_on_node.
  intros (t0 & st1 & _ & Hrun)%bind_val.
  apply bind_val in Hrun as (result & st2 & Htry & Hrest).
  apply bind_val in Hrest as (t1 & st3 & _ & [<- _]%ret_val). simpl.
  apply try_val in Htry as [Hbody|(e & st4 & _ & [<- _]%ret_val)]; [|done].
  apply bind_val in Hbody as (l & st4 & _ & Hbody).
  destruct (task_command task) as [e|command] eqn:Hcmd; [done|].
  apply bind_val in Hbody as ([[code out] err] & st5 & Hexec & [<- _]%ret_val).
  apply execute_command_val in Hexec as (h & Hclient).
  specialize (Hexit command h (env st4) eq_refl). rewrite Hclient in Hexit.
  simpl. by apply Z.eqb_neq.
Qed.

(** C2, as it holds. First, whatever [execute_task_with_retry] returns is
    the result of the last attempt it made, with the number of retries
    consumed (the attempts made, minus one) as [retry_count]; it stops at
    the first success or after [task.retry_count + 1] attempts. Second, when
    every attempt fails, [task.retry_count] is 3 and [task.retry_delay] is
    a delay that [time.sleep] accepts (not negative, not too long for the
    clock unit, and not refused by the platform), exactly one result is
    returned: that of the fourth attempt, with [retry_count = 3] and
    [success = False]. *)
Theorem retry_accounting node task st :
  (∀ r st',
     0 ≤ Task.retry_count task →
     execute_task_with_retry cfg node task st = (Val (Some r), st') →
     ∃ k r0,
       attempts cfg node task st k r0 st'
       ∧ r = TaskResult.set_retry_count (Z.of_nat k - 1) r0
       ∧ (TaskResult.success r0 = true ∨ Z.of_nat k = Task.retry_count task + 1))
  ∧ (wf st →
     Task.retry_count task = 3 →
     sleeps (Task.retry_delay task) →
     (∀ s r s', execute_task_on_node cfg node task s = (Val r, s') →
                TaskResult.success r = false) →
     ∃ r r0 st',
       execute_task_with_retry cfg node task st = (Val (Some r), st')
       ∧ attempts cfg node task st 4 r0 st'
       ∧ r = TaskResult.set_retry_count 3 r0
       ∧ TaskResult.retry_count r = 3
       ∧ TaskResult.success r = false).
Proof.
  assert (Hgen : ∀ r st',
     0 ≤ Task.retry_count task →
     execute_task_with_retry cfg node task st = (Val (Some r), st') →
     ∃ k r0,
       attempts cfg node task st k r0 st'
       ∧ r = TaskResult.set_retry_count (Z.of_nat k - 1) r0
       ∧ (TaskResult.success r0 = true ∨ Z.of_nat k = Task.retry_count task + 1)).
  { intros r st' Hrc Hrun. unfold execute_task_with_retry in Hrun.
    apply (retry_loop_last_attempt node task st _ O _ _ _ _ Hrun); [simpl; lia|].
    destruct (Z.to_nat (Task.retry_count task + 1)) eqn:Hn; [lia|]. by left. }
  split; [exact Hgen|].
  intros Hwf Hrc Hdelay Hfail.
  assert (Hrc0 : 0 ≤ Task.retry_count task) by lia.
  pose proof (execute_task_with_retry_spec node task st Hwf Hrc0) as Hspec.
  unfold wp in Hspec.
  destruct (execute_task_with_retry cfg node task st) as [[o|e|] st'] eqn:Hrun;
    [|by destruct Hspec as [_ Hneg]|done].
  destruct Hspec as [_ (r & -> & _)].
  destruct (Hgen r st' Hrc0 eq_refl) as (k & r0 & Hatt & -> & Hstop).
  destruct (attempts_last_run _ _ _ _ _ _ Hatt) as (s & Hlast).
  pose proof (Hfail _ _ _ Hlast) as Hr0.
  destruct Hstop as [Hs|Hk]; [congruence|].
  assert (k = 4%nat) as -> by lia.
  exists (TaskResult.set_retry_count 3 r0), r0, st'. simpl. auto.
Qed.

End WorkerFacts.

Lemma failing_task_always_fails retry_delay :
  ∀ s r s',
    execute_task_on_node sample_config node_2 (failing_task retry_delay) s = (Val r, s') →
    TaskResult.success r = false.
Proof.
  apply nonzero_exit_fails. intros command h e [= <-]. simpl. done.
Qed.

Lemma retry_accounting_witness :
  let task := failing_task 5 in
  let st := initial_state (0 : @Env sample_host) in
  (wf st ∧ Task.retry_count task = 3 ∧ sleeps (Task.retry_delay task)
   ∧ ∀ s r s', execute_task_on_node sample_config node_2 task s = (Val r, s') →
               TaskResult.success r = false)
  ∧ ∃ r r0 st',
      execute_task_with_retry sample_config node_2 task st = (Val (Some r), st')
      ∧ attempts sample_config node_2 task st 4 r0 st'
      ∧ r = TaskResult.set_retry_count 3 r0
      ∧ TaskResult.retry_count r = 3
      ∧ TaskResult.success r = false.
Proof.
  intros task st.
  assert (Hwf : wf st) by constructor.
  assert (Hdelay : sleeps (Task.retry_delay task)).
  { split; [unfold sleep_limit; simpl; lia|]. intros e. reflexivity. }
  split.
  { split; [exact Hwf|]. split; [reflexivity|].
    split; [exact Hdelay|apply failing_task_always_fails]. }
  exact (proj2 (retry_accounting sample_config node_2 task st)
           Hwf eq_refl Hdelay (failing_task_always_fails 5)).
Defined.

(** The run of the witness: four executions of the command, a pause after
    each of the first three. *)
Example retry_accounting_run :
  ∃ r st',
    execute_task_with_retry sample_config node_2 (failing_task 5)
      (initial_state (0 : @Env sample_host)) = (Val (Some r), st')
    ∧ TaskResult.retry_count r = 3
    ∧ TaskResult.exit_code r = Some 1
    ∧ List.map snd (trace st')
      = [OpNewClient 0;
         OpConnect 0 (ConnectKwargs.mk "10.0.0.3" 22 "root" 30 None (Some "secret"));
         OpExec 0 "false" 300; OpSleep 5; OpExec 0 "false" 300; OpSleep 5;
         OpExec 0 "false" 300; OpSleep 5; OpExec 0 "false" 300].
Proof. eexists _, _. split; [vm_compute; reflexivity|]. repeat split. Qed.

(** With a negative delay the pause after the first failed attempt is
    refused, and the worker raises instead of returning a result. *)
Lemma retry_negative_delay_counterexample :
  let task := failing_task (-1) in
  let st := initial_state (0 : @Env sample_host) in
  (wf st ∧ Task.retry_count task = 3
   ∧ ∀ s r s', execute_task_on_node sample_config node_2 task s = (Val r, s') →
               TaskResult.success r = false)
  ∧ (execute_task_with_retry sample_config node_2 task st).1
    = Raise (mkExn ValueError "sleep length must be non-negative")
  ∧ ¬ ∃ r st', execute_task_with_retry sample_config node_2 task st = (Val (Some r), st').
Proof.
  intros task st.
  split; [repeat split; [constructor|apply failing_task_always_fails]|].
  split; [reflexivity|].
  intros (r & st' & Hrun).
  assert (Hfst : (execute_task_with_retry sample_config node_2 task st).1
                 = Raise (mkExn ValueError "sleep length must be non-negative"))
    by reflexivity.
  rewrite Hrun in Hfst. discriminate.
Qed.

(** A delay of ten thousand million seconds does not fit the clock unit of
    [time.sleep]: the pause after the first failed attempt raises
    [OverflowError], and so does the worker. *)
Example retry_overlong_delay_raises :
  (execute_task_with_retry sample_config node_2 (failing_task 10000000000)
     (initial_state (0 : @Env sample_host))).1
  = Raise (mkExn OverflowError "timestamp too large to convert to C _PyTime_t").
Proof. reflexivity. Qed.

(** ** The dispatcher *)

Section DispatcherFacts.

Context `{Collaborators}.

Variable cfg : Config.t.

Local Open Scope list_scope.

(** Whatever the scheduler chooses, every future completes exactly once. *)
Lemma as_completed_aux_Permutation {A} fuel :
  ∀ sched (pending : list A),
    length pending = fuel → as_completed_aux fuel sched pending ≡ₚ pending.
Proof.
  induction fuel as [|fuel IH]; intros sched pending Hlen; simpl.
  - by destruct pending.
  - set (i := match sched with [] => O | c :: _ => Nat.modulo c (length pending) end).
    assert (Hi : (i < length pending)%nat).
    { subst i. destruct sched as [|c ?]; [lia|]. apply Nat.mod_upper_bound. lia. }
    destruct (lookup_lt_is_Some_2 pending i Hi) as [x Hx]. rewrite Hx.
    etrans; [|symmetry; exact (delete_Permutation pending i x Hx)].
    constructor. apply IH. rewrite length_delete by eauto. lia.
Qed.

Lemma as_completed_Permutation {A} sched (futures : list A) :
  as_completed sched futures ≡ₚ futures.
Proof. by apply as_completed_aux_Permutation. Qed.

(** Conversely, every order of the futures is the completion order of some
    schedule. *)
Lemma as_completed_any_order {A} (order : list A) :
  ∀ futures, order ≡ₚ futures → ∃ sched, as_completed sched futures = order.
Proof.
  unfold as_completed.
  induction order as [|x order IH]; intros futures Hperm.
  - apply Permutation_nil_l in Hperm as <-. by exists [].
  - assert (Hx : x ∈ futures) by (rewrite <- Hperm; left).
    apply list_elem_of_lookup in Hx as [i Hi].
    pose proof (lookup_lt_Some _ _ _ Hi) as Hlt.
    assert (Hrest : order ≡ₚ delete i futures).
    { apply (Permutation_cons_inv (a := x)).
      etrans; [exact Hperm|exact (delete_Permutation futures i x Hi)]. }
    destruct (IH _ Hrest) as [sched Hsched].
    exists (i :: sched).
    rewrite length_delete in Hsched by eauto.
    destruct (length futures) as [|n] eqn:Hlen; [lia|].
    cbn [as_completed_aux List.tl].
    rewrite Nat.mod_small by lia. rewrite Hi.
    simpl in Hsched. rewrite Nat.sub_0_r in Hsched. by rewrite Hsched.
Qed.

Lemma all_results_Some rs : all_results (List.map Some rs) = Some rs.
Proof. induction rs as [|r rs IH]; simpl; [done|]. by rewrite IH. Qed.

(** With a non-negative retry count, the collecting loop appends exactly one
    result per completed future, carrying the id of the future's node. *)
Lemma collect_results_spec task completed :
  0 ≤ Task.retry_count task →
  ∀ results st,
    wf st →
    ∃ news st',
      collect_results cfg task completed results st
      = (Val (results ++ List.map Some news), st')
      ∧ wf st'
      ∧ List.map TaskResult.node_id news = List.map NodeConfig.id completed.
Proof.
  intros Hrc. induction completed as [|node rest IH]; intros results st Hwf; simpl.
  - exists [], st. by rewrite app_nil_r.
  - pose proof (execute_task_with_retry_spec cfg node task st Hwf Hrc) as Hworker.
    unfold wp in Hworker.
    destruct (execute_task_with_retry cfg node task st) as [[o|e|] st1]; [| |done].
    + destruct Hworker as [Hev (r & -> & Hid)].
      destruct (IH (results ++ [Some r]) st1) as (news & st' & Hrun & Hwf' & Hids);
        [by eapply wf_evolves|].
      exists (r :: news), st'. rewrite Hrun. simpl.
      rewrite <- app_assoc. split; [done|]. split; [done|]. by rewrite Hid, Hids.
    + destruct Hworker as [Hev _].
      destruct (IH (results ++ [Some (error_result node task (exn_str e))]) st1)
        as (news & st' & Hrun & Hwf' & Hids); [by eapply wf_evolves|].
      exists (error_result node task (exn_str e) :: news), st'. rewrite Hrun. simpl.
      rewrite <- app_assoc. split; [done|]. split; [done|]. by rewrite Hids.
Qed.

(** Under the same conditions [execute_task] returns, and its results carry
    the ids of the resolved nodes in completion order. *)
Lemma execute_task_completion_order sched task st :
  wf st →
  0 ≤ Task.retry_count task →
  0 < ExecutionConfig.max_concurrent (Config.execution cfg) →
  ∃ results st',
    execute_task cfg sched task st = (Val results, st')
    ∧ List.map TaskResult.node_id results
      = List.map NodeConfig.id
          (as_completed sched (target_nodes cfg (Task.node_ids task))).
Proof.
  intros Hwf Hrc Hmc. unfold execute_task.
  generalize (target_nodes cfg (Task.node_ids task)). intros nodes.
  destruct (collect_results_spec task (as_completed sched nodes) Hrc [] st Hwf)
    as (news & st' & Hrun & _ & Hids).
  destruct nodes as [|node rest]; [by exists [], st|].
  destruct (Z.leb_spec
              (Z.min (Z.of_nat (length (node :: rest)))
                 (ExecutionConfig.max_concurrent (Config.execution cfg))) 0)
    as [Hle|_].
  { simpl length in Hle. lia. }
  exists news, st'. unfold bind. rewrite Hrun. simpl. by rewrite all_results_Some.
Qed.

(** C1, as it holds. When the pool satisfies its invariant, the task's retry
    count is not negative and the configured concurrency ceiling is
    positive, [execute_task] returns, whatever the collaborators do and in
    whatever order the workers complete; its results are as many as the
    nodes the id list resolves to, they carry these nodes' ids in
    completion order, that is, each resolved node exactly once up to order;
    and no id occurs twice when the resolved nodes have distinct ids. *)
Theorem execute_task_one_result_per_node sched task st :
  wf st →
  0 ≤ Task.retry_count task →
  0 < ExecutionConfig.max_concurrent (Config.execution cfg) →
  let nodes := target_nodes cfg (Task.node_ids task) in
  ∃ results st',
    execute_task cfg sched task st = (Val results, st')
    ∧ length results = length nodes
    ∧ List.map TaskResult.node_id results
      = List.map NodeConfig.id (as_completed sched nodes)
    ∧ List.map TaskResult.node_id results ≡ₚ List.map NodeConfig.id nodes
    ∧ (NoDup (List.map NodeConfig.id nodes) →
       NoDup (List.map TaskResult.node_id results)).
Proof.
  intros Hwf Hrc Hmc nodes.
  destruct (execute_task_completion_order sched task st Hwf Hrc Hmc)
    as (results & st' & Hrun & Hids). fold nodes in Hids.
  assert (Hperm : List.map TaskResult.node_id results ≡ₚ List.map NodeConfig.id nodes).
  { rewrite Hids. apply Permutation_map, as_completed_Permutation. }
  exists results, st'. split; [done|]. split; [|split; [done|split; [done|]]].
  - rewrite <- (length_map TaskResult.node_id results),
      <- (length_map NodeConfig.id nodes).
    by apply Permutation_length.
  - intros Hnd. by rewrite Hperm.
Qed.

End DispatcherFacts.

Lemma execute_task_one_result_per_node_witness :
  let task := echo_task [2; 5; 77] 3 5 in
  let st := initial_state (0 : @Env sample_host) in
  let nodes := target_nodes sample_config (Task.node_ids task) in
  (wf st ∧ 0 ≤ Task.retry_count task
   ∧ 0 < ExecutionConfig.max_concurrent (Config.execution sample_config))
  ∧ ∃ results st',
      execute_task sample_config [1%nat] task st = (Val results, st')
      ∧ length results = length nodes
      ∧ List.map TaskResult.node_id results
        = List.map NodeConfig.id (as_completed [1%nat] nodes)
      ∧ List.map TaskResult.node_id results ≡ₚ List.map NodeConfig.id nodes
      ∧ (NoDup (List.map NodeConfig.id nodes) →
         NoDup (List.map TaskResult.node_id results)).
Proof.
  intros task st nodes.
  assert (Hwf : wf st) by constructor.
  assert (Hrc : 0 ≤ Task.retry_count task) by (simpl; lia).
  assert (Hmc : 0 < ExecutionConfig.max_concurrent (Config.execution sample_config))
    by (simpl; lia).
  split; [auto|].
  exact (execute_task_one_result_per_node sample_config [1%nat] task st Hwf Hrc Hmc).
Defined.

(** An id listed twice is resolved twice and served twice: two results for
    node 2. *)
Lemma execute_task_duplicate_ids_counterexample :
  let task := echo_task [2; 2] 3 5 in
  let st := initial_state (0 : @Env sample_host) in
  length (target_nodes sample_config (Task.node_ids task)) = 2%nat
  ∧ ∃ results st',
      execute_task sample_config [] task st = (Val results, st')
      ∧ List.map TaskResult.node_id results = [2; 2]
      ∧ ¬ NoDup (List.map TaskResult.node_id results).
Proof.
  intros task st. split; [reflexivity|].
  eexists _, _. split; [vm_compute; reflexivity|]. split; [reflexivity|].
  simpl. intros Hnd. apply NoDup_cons in Hnd as [Hnotin _]. apply Hnotin. left.
Qed.

(** The scenario of the specification, with nodes 2 (reachable) and 5 (not
    reachable): one success with exit code 0, one failure without exit code
    and with a message; when node 5's worker completes first its result
    comes first. *)
Example execute_task_scenario :
  ∃ r2 r5 st' st'',
    execute_task sample_config [] (echo_task [2; 5] 3 5)
      (initial_state (0 : @Env sample_host)) = (Val [r2; r5], st')
    ∧ execute_task sample_config [1%nat] (echo_task [2; 5] 3 5)
        (initial_state (0 : @Env sample_host)) = (Val [r5; r2], st'')
    ∧ (TaskResult.node_id r2, TaskResult.success r2, TaskResult.exit_code r2,
       TaskResult.stdout r2) = (2, true, Some 0, "hi")
    ∧ (TaskResult.node_id r5, TaskResult.success r5, TaskResult.exit_code r5,
       TaskResult.retry_count r5) = (5, false, None, 3)
    ∧ TaskResult.error_message r5 = "无法连接到节点 node-5".
Proof.
  eexists _, _, _, _. split; [vm_compute; reflexivity|].
  split; [vm_compute; reflexivity|]. repeat split.
Qed.

(** A worker that raises: with a negative delay the pause is refused, and
    the collecting loop emits the error result for the node. *)
Example execute_task_worker_raises :
  ∃ r st',
    execute_task sample_config []
      (Task.mk SHELL_COMMAND "false" [2] 300 3 (-1) None)
      (initial_state (0 : @Env sample_host)) = (Val [r], st')
    ∧ (TaskResult.node_id r, TaskResult.success r, TaskResult.exit_code r,
       TaskResult.retry_count r) = (2, false, None, 0)
    ∧ TaskResult.error_message r = "sleep length must be non-negative".
Proof. eexists _, _. split; [vm_compute; reflexivity|]. repeat split. Qed.

(** Outside the hypotheses of the theorem: a negative retry count makes the
    worker return nothing and the final count fail; a concurrency ceiling
    of zero is refused by the thread pool. *)
Example execute_task_degenerate_settings :
  (execute_task sample_config [] (echo_task [2] (-1) 5)
     (initial_state (0 : @Env sample_host))).1
  = Raise (mkExn AttributeError "'NoneType' object has no attribute 'success'")
  ∧ (execute_task (sample_config_with (ExecutionConfig.mk 0 3 5 300)) []
       (echo_task [2] 3 5) (initial_state (0 : @Env sample_host))).1
    = Raise (mkExn ValueError "max_workers must be greater than 0").
Proof. split; reflexivity. Qed.

(** ** Staged script execution *)

Section ScriptFacts.

Context `{Collaborators}.

Variable cfg : Config.t.

Local Open Scope list_scope.

Lemma evolves_trace_elem T st st' ev :
  evolves T st st' → ev ∈ trace st → ev ∈ trace st'.
Proof.
  intros (_ & _ & seg & -> & _) Hev. apply elem_of_app. by left.
Qed.

(** The staged worker never raises; its result names the node, and when it
    reports an exit code, the command that produced it is the one chosen
    by [run_command], run with the caller's timeout. *)
Lemma _execute_script_on_node_spec node script_content remote_script_path args timeout st :
  wf st →
  wp (for_node (NodeConfig.id node))
    (_execute_script_on_node cfg node script_content remote_script_path args timeout) st
    (fun r st' =>
       TaskResult.node_id r = NodeConfig.id node
       ∧ ∀ code, TaskResult.exit_code r = Some code →
           ∃ h, (NodeConfig.id node,
                 OpExec h (run_command remote_script_path script_content args) timeout)
                ∈ trace st')
    (fun _ _ => False).
Proof.
  intros Hwf. unfold _execute_script_on_node.
  apply wp_bind, wp_now. set (st1 := with_env _ st).
  assert (Hwf1 : wf st1) by exact Hwf.
  apply wp_bind, wp_try, wp_bind.
  assert (Hhandler : ∀ e st',
    wp (for_node (NodeConfig.id node))
      (ret (TaskResult.set_error_message (exn_str e)
              (TaskResult.new node SHELL_COMMAND
                 ("执行脚本: " ++ remote_script_path ++ " " ++ args)%string))) st'
      (fun result st'' =>
         wp (for_node (NodeConfig.id node))
           (bind now (fun end_time =>
              ret (TaskResult.set_execution_time
                     (end_time - (time_time (env st)).1) result))) st''
           (fun r st' =>
              TaskResult.node_id r = NodeConfig.id node
              ∧ ∀ code, TaskResult.exit_code r = Some code →
                  ∃ h, (NodeConfig.id node,
                        OpExec h (run_command remote_script_path script_content args)
                          timeout) ∈ trace st')
           (fun _ _ => False))
      (fun _ _ => False)).
  { intros e st'. repeat wp_step. simpl. split; [done|]. intros code [=]. }
  eapply wp_mono; [| | |exact (ensure_connection_spec cfg node st1 Hwf1)];
    [done| |intros e st2 _ _; apply Hhandler].
  intros l st2 _ Hl. simpl.
  apply wp_bind_ev.
  eapply wp_mono; [| | |exact (execute_command_spec l _ _ 30 st2 Hl)];
    [done| |intros e st3 _ _; apply Hhandler].
  intros [[code out] err] st3 _ _ Hev3.
  pose proof (holds_evolves _ _ _ _ _ Hev3 Hl) as Hl3.
  destruct (negb (code =? 0)); [apply wp_raise, Hhandler|].
  apply wp_bind_ev.
  eapply wp_mono; [| | |exact (execute_command_spec l _ _ 10 st3 Hl3)];
    [done| |intros e st4 _ _; apply Hhandler].
  intros [[code' out'] err'] st4 _ _ Hev4.
  pose proof (holds_evolves _ _ _ _ _ Hev4 Hl3) as Hl4.
  destruct (negb (code' =? 0)); [apply wp_raise, Hhandler|].
  apply wp_bind_ev.
  eapply wp_mono; [| | |exact (execute_command_spec l _ _ timeout st4 Hl4)];
    [done| |intros e st5 _ _; apply Hhandler].
  intros [[code'' out''] err''] st5 _ (h & Hlast) Hev5.
  pose proof (holds_evolves _ _ _ _ _ Hev5 Hl4) as Hl5.
  apply last_Some_elem_of in Hlast.
  apply wp_try_ev, wp_bind_ev.
  eapply wp_mono; [| | |exact (execute_command_spec l _ _ 10 st5 Hl5)]; [done| |].
  - intros ? st6 _ _ Hev6. repeat wp_step. simpl. split; [done|].
    intros _ _. exists h. by eapply evolves_trace_elem.
  - intros e st6 _ _ Hev6. repeat wp_step. simpl. split; [done|].
    intros _ _. exists h. by eapply evolves_trace_elem.
Qed.

(** The ids of the nodes [get_nodes_by_ids] returns are the requested ids,
    in request order, without those that no configured node carries. *)
Lemma get_nodes_by_ids_ids node_ids :
  List.map NodeConfig.id (ConfigManager.get_nodes_by_ids cfg node_ids)
  = List.filter
      (fun i => existsb (fun node => NodeConfig.id node =? i) (Config.nodes cfg))
      node_ids.
Proof.
  induction node_ids as [|i ids IH]; simpl; [done|].
  unfold ConfigManager.get_node_by_id, ConfigManager.get_nodes.
  destruct (List.find _ (Config.nodes cfg)) as [node|] eqn:Hfind.
  - apply List.find_some in Hfind as [Hin Hid].
    assert (Hex : existsb (fun node => NodeConfig.id node =? i) (Config.nodes cfg) = true).
    { apply existsb_exists. eauto. }
    rewrite Hex. simpl. apply Z.eqb_eq in Hid. by rewrite Hid, IH.
  - destruct (existsb _ (Config.nodes cfg)) eqn:Hex; [|done].
    apply existsb_exists in Hex as (node & Hin & Hid).
    by rewrite (List.find_none _ _ Hfind node Hin) in Hid.
Qed.

(** The loop runs the workers one after the other, in list order: the
    results follow the nodes, and the requests made are the concatenation,
    in that order, of one block of requests per node. *)
Lemma staged_loop_spec script_content remote_script_path args timeout nodes :
  ∀ results st,
    wf st →
    ∃ news st' blocks,
      staged_loop cfg nodes script_content remote_script_path args timeout results st
      = (Val (results ++ news), st')
      ∧ wf st'
      ∧ List.map TaskResult.node_id news = List.map NodeConfig.id nodes
      ∧ trace st' = trace st ++ concat blocks
      ∧ Forall2 (fun node block => Forall (for_node (NodeConfig.id node)) block)
          nodes blocks.
Proof.
  induction nodes as [|node rest IH]; intros results st Hwf; simpl.
  - exists [], st, []. rewrite !app_nil_r. repeat split; [done|constructor].
  - destruct (wp_returns _ _ _ _
                (_execute_script_on_node_spec node script_content remote_script_path
                   args timeout st Hwf))
      as (r & st1 & Hrun & Hev & Hid & _).
    destruct Hev as (_ & Hwf1 & block & Htrace & Hblock).
    destruct (IH (results ++ [r]) st1 (Hwf1 Hwf))
      as (news & st' & blocks & Hloop & Hwf' & Hids & Htrace' & Hblocks).
    exists (r :: news), st', (block :: blocks). unfold bind. rewrite Hrun, Hloop.
    rewrite <- app_assoc. split; [done|]. split; [done|].
    split; [simpl; by rewrite Hid, Hids|].
    split; [simpl; by rewrite Htrace', Htrace, app_assoc|].
    by constructor.
Qed.

(** C10. On a pool that satisfies its invariant, both staged entry points
    return (the upload variant once the local file has been read), with one
    result per resolved node, in the order of the resolved nodes; the
    requests they make are one block per node, the blocks following each
    other in that same order, so the nodes are served strictly one after
    another. The resolved nodes of an id list are the listed ids in list
    order, without the ids that no configured node carries. The results of
    [execute_task], in contrast, follow the completion order of the
    workers. *)
Theorem staged_execution_in_resolution_order
    script_content script_path remote_path script_name node_ids args timeout st :
  wf st →
  let nodes := staged_nodes cfg node_ids in
  let in_node_order (run : Result (list TaskResult.t) * State) :=
    ∃ results st' blocks,
      run = (Val results, st')
      ∧ List.map TaskResult.node_id results = List.map NodeConfig.id nodes
      ∧ trace st' = trace st ++ concat blocks
      ∧ Forall2 (fun node block => Forall (for_node (NodeConfig.id node)) block)
          nodes blocks in
  in_node_order
    (execute_script_content cfg script_content node_ids args timeout script_name st)
  ∧ (os_path_exists (env st) script_path = true →
     (∃ text, read_text (env st) script_path = inr text) →
     in_node_order
       (upload_and_execute_script cfg script_path node_ids args timeout remote_path st))
  ∧ (∀ ids, node_ids = Some ids →
       List.map NodeConfig.id nodes
       = List.filter
           (fun i => existsb (fun node => NodeConfig.id node =? i) (Config.nodes cfg))
           ids)
  ∧ (∀ sched task,
       0 ≤ Task.retry_count task →
       0 < ExecutionConfig.max_concurrent (Config.execution cfg) →
       ∃ results st',
         execute_task cfg sched task st = (Val results, st')
         ∧ List.map TaskResult.node_id results
           = List.map NodeConfig.id
               (as_completed sched (target_nodes cfg (Task.node_ids task)))).
Proof.
  intros Hwf nodes in_node_order.
  assert (Hloop : ∀ text path,
    in_node_order (staged_loop cfg nodes text path args timeout [] st)).
  { intros text path.
    destruct (staged_loop_spec text path args timeout nodes [] st Hwf)
      as (news & st' & blocks & Hrun & _ & Hids & Htrace & Hblocks).
    by exists news, st', blocks. }
  split; [apply Hloop|]. split; [|split].
  - intros Hexists [text Hread].
    unfold upload_and_execute_script, bind, read_script. rewrite Hexists, Hread. simpl.
    apply Hloop.
  - intros ids ->. apply get_nodes_by_ids_ids.
  - intros sched task Hrc Hmc. by apply execute_task_completion_order.
Qed.

End ScriptFacts.

Lemma staged_execution_in_resolution_order_witness :
  let st := initial_state (0 : @Env sample_host) in
  let nodes := staged_nodes sample_config (Some [5; 77; 2]) in
  let in_node_order (run : Result (list TaskResult.t) * State) :=
    ∃ results st' blocks,
      run = (Val results, st')
      ∧ List.map TaskResult.node_id results = List.map NodeConfig.id nodes
      ∧ trace st' = (trace st ++ concat blocks)%list
      ∧ Forall2 (fun node block => Forall (for_node (NodeConfig.id node)) block)
          nodes blocks in
  wf st
  ∧ in_node_order
      (execute_script_content sample_config "echo ok" (Some [5; 77; 2]) "" 600
         "temp_script.sh" st)
  ∧ (os_path_exists (env st) "deploy.sh" = true →
     (∃ text, read_text (env st) "deploy.sh" = inr text) →
     in_node_order
       (upload_and_execute_script sample_config "deploy.sh" (Some [5; 77; 2]) "" 600
          "/tmp" st)).
Proof.
  intros st nodes in_node_order.
  assert (Hwf : wf st) by constructor.
  split; [exact Hwf|].
  destruct (staged_execution_in_resolution_order sample_config "echo ok" "deploy.sh"
              "/tmp" "temp_script.sh" (Some [5; 77; 2]) "" 600 st Hwf)
    as (Hcontent & Hupload & _).
  split; [exact Hcontent|exact Hupload].
Defined.

(** The run of the witness: node 5 first (it cannot be reached), then
    node 2 with its four steps. *)
Example staged_execution_run :
  ∃ r5 r2 st',
    execute_script_content sample_config "echo ok" (Some [5; 77; 2]) "" 600
      "temp_script.sh" (initial_state (0 : @Env sample_host)) = (Val [r5; r2], st')
    ∧ (TaskResult.node_id r5, TaskResult.success r5) = (5, false)
    ∧ (TaskResult.node_id r2, TaskResult.success r2) = (2, true)
    ∧ List.map fst (trace st') = [5; 5; 5; 2; 2; 2; 2; 2; 2].
Proof. eexists _, _, _. split; [vm_compute; reflexivity|]. repeat split. Qed.

(** ** The command of the run step, and the inline command *)

Section CommandFacts.

Context `{Collaborators}.

Variable cfg : Config.t.

(** C7, as it holds. The command of the run step is chosen in this order:
    [python3] when the extension of the remote path is [.py] (in any case)
    or the content starts with [#!/usr/bin/env python] or
    [#!/usr/bin/python]; otherwise [bash] when the extension is [.sh] or
    [.bash], or the content starts with [#!/bin/bash] or [#!/usr/bin/bash],
    or the content does not start with [#!]; otherwise (any other content
    starting with [#!], [#!/bin/sh] included) the file itself is executed.
    And whenever the staged worker reports an exit code, the command that
    produced it is this one, run with the caller's timeout. *)
Theorem run_step_interpreter node script_content remote_script_path args timeout st :
  let ext := Py.lower (OsPath.splitext_ext remote_script_path) in
  let python :=
    ext = ".py"
    ∨ Py.startswith script_content "#!/usr/bin/env python" = true
    ∨ Py.startswith script_content "#!/usr/bin/python" = true in
  let shell :=
    ext = ".sh" ∨ ext = ".bash"
    ∨ Py.startswith script_content "#!/bin/bash" = true
    ∨ Py.startswith script_content "#!/usr/bin/bash" = true
    ∨ Py.startswith script_content "#!" = false in
  let command := run_command remote_script_path script_content args in
  (python → command = "python3 " ++ remote_script_path ++ " " ++ args)
  ∧ (¬ python → shell → command = "bash " ++ remote_script_path ++ " " ++ args)
  ∧ (¬ python → ¬ shell → command = remote_script_path ++ " " ++ args)
  ∧ (wf st →
     ∃ r st',
       _execute_script_on_node cfg node script_content remote_script_path args timeout st
       = (Val r, st')
       ∧ ∀ code, TaskResult.exit_code r = Some code →
           ∃ h, (NodeConfig.id node, OpExec h command timeout) ∈ trace st').
Proof.
  intros ext python shell command.
  assert (Htable :
    (python → command = "python3 " ++ remote_script_path ++ " " ++ args)
    ∧ (¬ python → shell → command = "bash " ++ remote_script_path ++ " " ++ args)
    ∧ (¬ python → ¬ shell → command = remote_script_path ++ " " ++ args)).
  { subst python shell command. unfold run_command. fold ext.
    destruct (String.eqb_spec ext ".py") as [Hpy|Hpy]; [tauto|].
    destruct (Py.startswith script_content "#!/usr/bin/env python"); [tauto|].
    destruct (Py.startswith script_content "#!/usr/bin/python"); [tauto|]. simpl.
    assert (Hnp : ¬ (ext = ".py" ∨ false = true ∨ false = true))
      by (intros [?|[?|?]]; done).
    destruct (String.eqb_spec ext ".sh") as [Hsh|Hsh]; [tauto|].
    destruct (String.eqb_spec ext ".bash") as [Hbash|Hbash]; [tauto|].
    destruct (Py.startswith script_content "#!/bin/bash"); [tauto|].
    destruct (Py.startswith script_content "#!/usr/bin/bash"); [tauto|]. simpl.
    destruct (Py.startswith script_content "#!").
    - split; [tauto|]. split; [|done].
      intros _ [?|[?|[?|[?|?]]]]; done.
    - tauto. }
  destruct Htable as (Hp & Hs & Hd). split; [done|]. split; [done|]. split; [done|].
  intros Hwf.
  destruct (wp_returns _ _ _ _
              (_execute_script_on_node_spec cfg node script_content remote_script_path
                 args timeout st Hwf))
    as (r & st' & Hrun & _ & _ & Hcode).
  by exists r, st'.
Qed.


End CommandFacts.

Lemma run_step_interpreter_witness :
  let st := initial_state (0 : @Env sample_host) in
  let script_content := "#!/usr/bin/perl" in
  let command := run_command "/tmp/report.txt" script_content "-v" in
  ¬ (Py.lower (OsPath.splitext_ext "/tmp/report.txt") = ".py"
     ∨ Py.startswith script_content "#!/usr/bin/env python" = true
     ∨ Py.startswith script_content "#!/usr/bin/python" = true)
  ∧ ¬ (Py.lower (OsPath.splitext_ext "/tmp/report.txt") = ".sh"
       ∨ Py.lower (OsPath.splitext_ext "/tmp/report.txt") = ".bash"
       ∨ Py.startswith script_content "#!/bin/bash" = true
       ∨ Py.startswith script_content "#!/usr/bin/bash" = true
       ∨ Py.startswith script_content "#!" = false)
  ∧ wf st
  ∧ command = "/tmp/report.txt -v"
  ∧ ∃ r st',
      _execute_script_on_node sample_config node_2 script_content "/tmp/report.txt"
        "-v" 600 st = (Val r, st')
      ∧ ∀ code, TaskResult.exit_code r = Some code →
          ∃ h, (NodeConfig.id node_2, OpExec h command 600) ∈ trace st'.
Proof.
  intros st script_content command.
  assert (Hnp : ¬ (Py.lower (OsPath.splitext_ext "/tmp/report.txt") = ".py"
     ∨ Py.startswith script_content "#!/usr/bin/env python" = true
     ∨ Py.startswith script_content "#!/usr/bin/python" = true))
    by (intros [?|[?|?]]; discriminate).
  assert (Hns : ¬ (Py.lower (OsPath.splitext_ext "/tmp/report.txt") = ".sh"
       ∨ Py.lower (OsPath.splitext_ext "/tmp/report.txt") = ".bash"
       ∨ Py.startswith script_content "#!/bin/bash" = true
       ∨ Py.startswith script_content "#!/usr/bin/bash" = true
       ∨ Py.startswith script_content "#!" = false))
    by (intros [?|[?|[?|[?|?]]]]; discriminate).
  assert (Hwf : wf st) by constructor.
  destruct (run_step_interpreter sample_config node_2 script_content "/tmp/report.txt"
              "-v" 600 st) as (_ & _ & Hdirect & Hrun).
  split; [exact Hnp|]. split; [exact Hns|]. split; [exact Hwf|].
  split; [exact (Hdirect Hnp Hns)|exact (Hrun Hwf)].
Defined.

(** A script with an [sh] shebang and no telling extension is executed
    directly, not through [bash]. *)
Lemma sh_shebang_counterexample :
  let script_content := "#!/bin/sh" ++ nl ++ "echo ok" in
  Py.startswith script_content "#!/bin/sh" = true
  ∧ OsPath.splitext_ext "/tmp/run" = ""
  ∧ run_command "/tmp/run" script_content "x" = "/tmp/run x"
  ∧ run_command "/tmp/run" script_content "x" ≠ "bash /tmp/run x".
Proof. repeat split. discriminate. Qed.

(** The order matters: a Python shebang wins over an [.sh] extension, and
    the extension is compared in lower case. *)
Example run_command_samples :
  run_command "/tmp/job.sh" "#!/usr/bin/env python3" "" = "python3 /tmp/job.sh "
  ∧ run_command "/tmp/JOB.PY" "" "a b" = "python3 /tmp/JOB.PY a b"
  ∧ run_command "/tmp/job.bash" "#!/usr/bin/perl" "" = "bash /tmp/job.bash "
  ∧ run_command "/tmp/v1.2/job" "echo ok" "" = "bash /tmp/v1.2/job "
  ∧ run_command "/tmp/.profile" "#!/bin/zsh" "" = "/tmp/.profile ".
Proof. repeat split. Qed.



(** * Further properties *)

(** ** Strings *)

Section StringFacts.

Lemma append_cons c (s t : string) : String c s ++ t = String c (s ++ t).
Proof. reflexivity. Qed.

Lemma append_nil_l (t : string) : "" ++ t = t.
Proof. reflexivity. Qed.

Lemma append_nil_r (s : string) : s ++ "" = s.
Proof. induction s as [|c s IH]; [done|]. by rewrite append_cons, IH. Qed.

Lemma digit_not_dash c : Py.isdigit_char c = true → Ascii.eqb c "-" = false.
Proof. destruct c as [[] [] [] [] [] [] [] []]; by vm_compute. Qed.

Lemma isdigit_all_digits s : Py.isdigit s = true → Py.all_digits s = true.
Proof. by destruct s. Qed.

Lemma lstrip_cons c r :
  Py.lstrip (String c r)
  = match Py.ws_width (String c r) with
    | 1%nat => Py.lstrip r
    | 2%nat => match r with
               | String _ r1 => Py.lstrip r1
               | EmptyString => String c r
               end
    | 3%nat => match r with
               | String _ (String _ r2) => Py.lstrip r2
               | _ => String c r
               end
    | _ => String c r
    end.
Proof. reflexivity. Qed.

Lemma all_ws_cons c r :
  Py.all_ws (String c r)
  = match Py.ws_width (String c r) with
    | 1%nat => Py.all_ws r
    | 2%nat => match r with
               | String _ r1 => Py.all_ws r1
               | EmptyString => false
               end
    | 3%nat => match r with
               | String _ (String _ r2) => Py.all_ws r2
               | _ => false
               end
    | _ => false
    end.
Proof. reflexivity. Qed.

Lemma rstrip_cons c r :
  Py.rstrip (String c r)
  = if Py.all_ws (String c r) then EmptyString else String c (Py.rstrip r).
Proof. reflexivity. Qed.

(** No white-space character starts with a digit. *)
Lemma digit_ws_width c r : Py.isdigit_char c = true → Py.ws_width (String c r) = O.
Proof.
  destruct r as [|c1 [|c2 r2]];
    destruct c as [[] [] [] [] [] [] [] []]; intros Hc; try discriminate Hc; reflexivity.
Qed.

Lemma strip_digits s : Py.all_digits s = true → Py.strip s = s.
Proof.
  intros Hs. unfold Py.strip.
  assert (Hl : Py.lstrip s = s).
  { destruct s as [|c r]; [done|]. simpl in Hs. apply andb_true_iff in Hs as [Hc _].
    by rewrite lstrip_cons, (digit_ws_width c r Hc). }
  rewrite Hl. clear Hl. induction s as [|c r IH]; [done|].
  simpl in Hs. apply andb_true_iff in Hs as [Hc Hr].
  by rewrite rstrip_cons, all_ws_cons, (digit_ws_width c r Hc), (IH Hr).
Qed.

Lemma signed_digit c r : Py.isdigit_char c = true → Py.signed (String c r) = (false, String c r).
Proof. destruct c as [[] [] [] [] [] [] [] []]; intros Hc; try discriminate Hc; reflexivity. Qed.

Lemma literal_digits_all s : Py.all_digits s = true → Py.literal_digits true s = Some s.
Proof.
  induction s as [|c s IH]; simpl; [done|].
  intros [Hc Hs]%andb_true_iff. by rewrite Hc, IH.
Qed.

(** [int] of a string of digits, not longer than [int] accepts, is the
    number the digits denote. *)
Lemma int_digits_string s :
  Py.isdigit s = true → (String.length s ≤ Py.int_max_str_digits)%nat →
  Py.int s = Some (Py.int_digits 0 s).
Proof.
  intros Hs Hlen. unfold Py.int.
  rewrite strip_digits by by apply isdigit_all_digits.
  destruct s as [|c r]; [done|]. simpl in Hs.
  apply andb_true_iff in Hs as [Hc Hr].
  rewrite (signed_digit c r Hc). simpl Py.literal_digits. rewrite Hc.
  rewrite (literal_digits_all r Hr).
  by rewrite (proj2 (Nat.leb_le _ _) Hlen).
Qed.

Lemma split_no_dash s : Py.all_digits s = true → Py.split "-" s = [s].
Proof.
  induction s as [|c s IH]; simpl; [done|].
  intros [Hc Hs]%andb_true_iff. by rewrite (digit_not_dash c Hc), IH.
Qed.

Lemma split_range a b :
  Py.all_digits a = true → Py.all_digits b = true →
  Py.split "-" (a ++ "-" ++ b) = [a; b].
Proof.
  intros Ha Hb. induction a as [|c a IH].
  - rewrite append_nil_l, append_cons, append_nil_l. simpl. by rewrite split_no_dash.
  - apply andb_true_iff in Ha as [Hc Ha]. rewrite append_cons. simpl.
    by rewrite (digit_not_dash c Hc), IH.
Qed.

Lemma span_digits_all s : Py.all_digits s = true → Py.span_digits s = (s, "").
Proof.
  induction s as [|c s IH]; simpl; [done|].
  intros [Hc Hs]%andb_true_iff. by rewrite Hc, IH.
Qed.

Lemma span_digits_range a b :
  Py.all_digits a = true → Py.span_digits (a ++ "-" ++ b) = (a, "-" ++ b).
Proof.
  induction a as [|c a IH]; [done|].
  intros [Hc Ha]%andb_true_iff. rewrite append_cons. simpl. by rewrite Hc, IH.
Qed.

End StringFacts.

(** ** Node selection, continued *)

Section SelectorFacts.

Import NodeSelector.

(** X1. For two non-empty strings of ASCII digits [a] and [b], neither
    longer than the [int_max_str_digits] digits that [int] converts, the
    token [a-b] has the range format and selects exactly the nodes whose id
    lies between the smaller and the larger of the two numbers, in the order
    of the node list; the token [b-a] selects the same nodes. *)
Theorem parse_range_between self a b :
  Py.isdigit a = true → Py.isdigit b = true →
  (String.length a ≤ Py.int_max_str_digits)%nat →
  (String.length b ≤ Py.int_max_str_digits)%nat →
  let lo := Z.min (Py.int_digits 0 a) (Py.int_digits 0 b) in
  let hi := Z.max (Py.int_digits 0 a) (Py.int_digits 0 b) in
  _is_range_format (a ++ "-" ++ b) = true
  ∧ part_nodes self (a ++ "-" ++ b)
    = List.filter (fun node => (lo <=? NodeConfig.id node) && (NodeConfig.id node <=? hi))
        (all_nodes self)
  ∧ part_nodes self (b ++ "-" ++ a) = part_nodes self (a ++ "-" ++ b).
Proof.
  intros Ha Hb Hla Hlb lo hi.
  assert (Hfmt : ∀ x y, Py.isdigit x = true → Py.isdigit y = true →
                        _is_range_format (x ++ "-" ++ y) = true).
  { intros x y Hx Hy. unfold _is_range_format.
    rewrite span_digits_range by by apply isdigit_all_digits.
    destruct x as [|c x]; [done|]. rewrite append_cons, append_nil_l.
    rewrite span_digits_all by by apply isdigit_all_digits. by destruct y. }
  assert (Hpart : ∀ x y, Py.isdigit x = true → Py.isdigit y = true →
    (String.length x ≤ Py.int_max_str_digits)%nat →
    (String.length y ≤ Py.int_max_str_digits)%nat →
    part_nodes self (x ++ "-" ++ y)
    = List.filter
        (fun node =>
           (Z.min (Py.int_digits 0 x) (Py.int_digits 0 y) <=? NodeConfig.id node)
           && (NodeConfig.id node <=? Z.max (Py.int_digits 0 x) (Py.int_digits 0 y)))
        (all_nodes self)).
  { intros x y Hx Hy Hlx Hly. unfold part_nodes.
    assert (Htruthy : Py.truthy (x ++ "-" ++ y) = true) by by destruct x.
    assert (Hdash : Py.contains_char "-" (x ++ "-" ++ y) = true).
    { clear. induction x as [|c x IH]; [done|]. rewrite append_cons. simpl.
      rewrite IH. apply orb_true_r. }
    rewrite Htruthy, Hdash, (Hfmt x y Hx Hy). simpl.
    unfold _parse_range.
    rewrite split_range by by apply isdigit_all_digits.
    rewrite !int_digits_string by done.
    destruct (Z.gtb_spec (Py.int_digits 0 x) (Py.int_digits 0 y)) as [Hgt|Hle].
    - by rewrite Z.min_r, Z.max_l by lia.
    - by rewrite Z.min_l, Z.max_r by lia. }
  split; [by apply Hfmt|]. split; [by apply Hpart|].
  rewrite !Hpart by done. by rewrite Z.min_comm, Z.max_comm.
Qed.

Lemma parse_range_between_witness :
  (Py.isdigit "12" = true ∧ Py.isdigit "3" = true
   ∧ (String.length "12" ≤ Py.int_max_str_digits)%nat
   ∧ (String.length "3" ≤ Py.int_max_str_digits)%nat)
  ∧ _is_range_format "12-3" = true
  ∧ part_nodes sample_selector "12-3"
    = List.filter (fun node => (3 <=? NodeConfig.id node) && (NodeConfig.id node <=? 12))
        (all_nodes sample_selector)
  ∧ part_nodes sample_selector "3-12" = part_nodes sample_selector "12-3".
Proof.
  assert (H12 : (String.length "12" ≤ Py.int_max_str_digits)%nat)
    by (unfold Py.int_max_str_digits; simpl; lia).
  assert (H3 : (String.length "3" ≤ Py.int_max_str_digits)%nat)
    by (unfold Py.int_max_str_digits; simpl; lia).
  split; [split; [reflexivity|split; [reflexivity|split; [exact H12|exact H3]]]|].
  exact (parse_range_between sample_selector "12" "3" eq_refl eq_refl H12 H3).
Defined.

Lemma find_None_iff {A} (f : A → bool) (l : list A) :
  List.find f l = None ↔ ∀ x, x ∈ l → f x = false.
Proof.
  split.
  - intros Hnone x Hx. apply (List.find_none f l Hnone). by apply list_elem_of_In.
  - intros Hall. destruct (List.find f l) as [x|] eqn:Hfind; [|done].
    apply List.find_some in Hfind as [Hin Hfx].
    rewrite (Hall x) in Hfx; [done|]. by apply list_elem_of_In.
Qed.

Lemma find_Some_elem {A} (f : A → bool) (l : list A) x :
  List.find f l = Some x → x ∈ l ∧ f x = true.
Proof. intros [Hin Hfx]%List.find_some. split; [by apply list_elem_of_In|done]. Qed.

Lemma find_single_node_elem self identifier n :
  _find_single_node self identifier = Some n → n ∈ all_nodes self.
Proof.
  unfold _find_single_node.
  destruct (if Py.isdigit identifier then _ else None) as [n0|] eqn:Hid.
  - intros [= <-]. destruct (Py.isdigit identifier); [|done].
    destruct (Py.int identifier); [|done]. by apply find_Some_elem in Hid as [? _].
  - destruct (List.find _ (all_nodes self)) as [n1|] eqn:Hname.
    + intros [= <-]. by apply find_Some_elem in Hname as [? _].
    + by intros [? _]%find_Some_elem.
Qed.

(** X2. For an ASCII identifier of at most [int_max_str_digits] characters
    and nodes with ASCII names: a single identifier resolves to a node of
    the selector's list that it names by id (when all its characters are
    digits), by lower-cased name, or by address; it resolves to nothing
    exactly when no node is named in any of the three ways; and a numeric
    identifier that is the id of some node always resolves to a node with
    that id, whatever the names and addresses of the other nodes. *)
Theorem find_single_node_spec self identifier :
  Py.isascii identifier = true →
  (String.length identifier ≤ Py.int_max_str_digits)%nat →
  Forall (fun node => Py.isascii (NodeConfig.name node) = true) (all_nodes self) →
  (∀ n, _find_single_node self identifier = Some n →
        n ∈ all_nodes self
        ∧ ((Py.isdigit identifier = true ∧ Py.int identifier = Some (NodeConfig.id n))
           ∨ Py.lower (NodeConfig.name n) = identifier
           ∨ NodeConfig.ip n = identifier))
  ∧ (_find_single_node self identifier = None ↔
     ∀ n, n ∈ all_nodes self →
          ¬ (Py.isdigit identifier = true ∧ Py.int identifier = Some (NodeConfig.id n))
          ∧ Py.lower (NodeConfig.name n) ≠ identifier
          ∧ NodeConfig.ip n ≠ identifier)
  ∧ (∀ m, Py.isdigit identifier = true → m ∈ all_nodes self →
          Py.int identifier = Some (NodeConfig.id m) →
          ∃ n, _find_single_node self identifier = Some n
               ∧ NodeConfig.id n = NodeConfig.id m).
Proof.
  intros _ Hlen _. unfold _find_single_node.
  set (by_name := List.find
         (fun node => String.eqb (Py.lower (NodeConfig.name node)) identifier)
         (all_nodes self)).
  set (by_ip := List.find (fun node => String.eqb (NodeConfig.ip node) identifier)
                  (all_nodes self)).
  assert (Hname : ∀ n, by_name = Some n →
            n ∈ all_nodes self ∧ Py.lower (NodeConfig.name n) = identifier).
  { intros n [Hin Heq]%find_Some_elem. by apply String.eqb_eq in Heq. }
  assert (Hip : ∀ n, by_ip = Some n → n ∈ all_nodes self ∧ NodeConfig.ip n = identifier).
  { intros n [Hin Heq]%find_Some_elem. by apply String.eqb_eq in Heq. }
  assert (Hname_none : by_name = None →
            ∀ n, n ∈ all_nodes self → Py.lower (NodeConfig.name n) ≠ identifier).
  { intros Hnone n Hn Heq. pose proof (proj1 (find_None_iff _ _) Hnone n Hn) as Hf.
    simpl in Hf. by apply String.eqb_neq in Hf. }
  assert (Hip_none : by_ip = None →
            ∀ n, n ∈ all_nodes self → NodeConfig.ip n ≠ identifier).
  { intros Hnone n Hn Heq. pose proof (proj1 (find_None_iff _ _) Hnone n Hn) as Hf.
    simpl in Hf. by apply String.eqb_neq in Hf. }
  destruct (Py.isdigit identifier) eqn:Hdigit.
  - rewrite (int_digits_string identifier Hdigit Hlen).
    set (i := Py.int_digits 0 identifier).
    destruct (List.find (fun node => NodeConfig.id node =? i) (all_nodes self))
      as [n0|] eqn:Hid.
    + apply find_Some_elem in Hid as [Hin0 Heq0]. apply Z.eqb_eq in Heq0.
      split; [|split].
      * intros n [= <-]. split; [done|]. left. split; [done|]. by rewrite Heq0.
      * split; [done|]. intros Hall. destruct (Hall n0 Hin0) as [Hno _].
        exfalso. apply Hno. split; [done|]. by rewrite Heq0.
      * intros m _ Hm [= Hmi]. exists n0. split; [done|]. congruence.
    + rewrite find_None_iff in Hid. split; [|split].
      * intros n Hn. destruct by_name as [n1|] eqn:Hbn.
        -- injection Hn as <-. destruct (Hname n1 eq_refl). auto.
        -- destruct (Hip n Hn). auto.
      * split.
        -- intros Hnone n Hn. destruct by_name as [n1|] eqn:Hbn; [done|].
           split; [|split; [by apply Hname_none|by apply Hip_none]].
           intros [_ [= Hi]]. specialize (Hid n Hn). simpl in Hid.
           apply Z.eqb_neq in Hid. congruence.
        -- intros Hall. destruct by_name as [n1|] eqn:Hbn.
           { destruct (Hname n1 eq_refl) as [Hin1 Heq1].
             destruct (Hall n1 Hin1) as (_ & Hne & _). done. }
           destruct by_ip as [n2|] eqn:Hbi; [|done].
           destruct (Hip n2 eq_refl) as [Hin2 Heq2].
           destruct (Hall n2 Hin2) as (_ & _ & Hne). done.
      * intros m _ Hm [= Hmi]. specialize (Hid m Hm). simpl in Hid.
        apply Z.eqb_neq in Hid. congruence.
  - split; [|split].
    + intros n Hn. destruct by_name as [n1|] eqn:Hbn.
      * injection Hn as <-. destruct (Hname n1 eq_refl). auto.
      * destruct (Hip n Hn). auto.
    + split.
      * intros Hnone n Hn. destruct by_name as [n1|] eqn:Hbn; [done|].
        split; [by intros [[=] _]|]. split; [by apply Hname_none|by apply Hip_none].
      * intros Hall. destruct by_name as [n1|] eqn:Hbn.
        { destruct (Hname n1 eq_refl) as [Hin1 Heq1].
          destruct (Hall n1 Hin1) as (_ & Hne & _). done. }
        destruct by_ip as [n2|] eqn:Hbi; [|done].
        destruct (Hip n2 eq_refl) as [Hin2 Heq2].
        destruct (Hall n2 Hin2) as (_ & _ & Hne). done.
    + intros m [=].
Qed.

Lemma part_nodes_subset self part n : n ∈ part_nodes self part → n ∈ all_nodes self.
Proof.
  unfold part_nodes. destruct (negb (Py.truthy part)); [by intros ?%elem_of_nil|].
  destruct (Py.contains_char "-" part && _is_range_format part).
  - unfold _parse_range. destruct (Py.split "-" part) as [|x [|y [|z l]]];
      try by intros ?%elem_of_nil.
    destruct (Py.int x), (Py.int y); try by intros ?%elem_of_nil.
    destruct (_ >? _); intros [Hin _]%list_elem_of_In%List.filter_In;
      by apply list_elem_of_In.
  - destruct (_find_single_node self part) as [m|] eqn:Hfind;
      [|by intros ?%elem_of_nil].
    intros ->%list_elem_of_singleton. by eapply find_single_node_elem.
Qed.

Lemma parse_selection_elem cfg self selection n :
  n ∈ parse_selection cfg self selection →
  n ∈ all_nodes self ∨ n ∈ Config.nodes cfg.
Proof.
  unfold parse_selection, ConfigManager.get_nodes.
  assert (Hfilter : ∀ (f : NodeConfig.t → bool) l, n ∈ List.filter f l → n ∈ l).
  { intros f l [Hin _]%list_elem_of_In%List.filter_In. by apply list_elem_of_In. }
  destruct (is_blank selection); [right; eauto|].
  destruct (_ || _); [right; eauto|].
  destruct (String.eqb _ "all-disabled"); [left; eauto|].
  destruct (String.eqb _ "all-all"); [by left|].
  intros Hn. left.
  pose proof (elem_of_sublist _ _ _ Hn (unique_by_id_sublist _ _)) as Hsub.
  apply list_elem_of_In, in_flat_map in Hsub as (part & _ & Hpart).
  eapply part_nodes_subset. by apply list_elem_of_In.
Qed.

(** X3. For an ASCII selection of at most [int_max_str_digits] characters
    and nodes with ASCII names: every node [parse_selection] returns comes
    from the node lists it was given, the selector's own list or the
    configuration's; with a fixed node set, every selected node is a
    configured node. Unknown ids, names or addresses never produce a
    node. *)
Theorem parse_selection_subset cfg self selection n :
  Py.isascii selection = true →
  (String.length selection ≤ Py.int_max_str_digits)%nat →
  Forall (fun node => Py.isascii (NodeConfig.name node) = true) (all_nodes self) →
  n ∈ parse_selection cfg self selection →
  (n ∈ all_nodes self ∨ n ∈ Config.nodes cfg)
  ∧ (all_nodes self = Config.nodes cfg → n ∈ Config.nodes cfg).
Proof.
  intros _ _ _ Hn. pose proof (parse_selection_elem cfg self selection n Hn) as Hin.
  split; [done|]. intros Hfix. rewrite Hfix in Hin. by destruct Hin.
Qed.

Lemma parse_selection_subset_witness :
  let n := sample_node 3 "node-3" "10.0.0.4" true in
  (Py.isascii "0,2-4,10" = true
   ∧ (String.length "0,2-4,10" ≤ Py.int_max_str_digits)%nat
   ∧ Forall (fun node => Py.isascii (NodeConfig.name node) = true)
       (all_nodes sample_selector)
   ∧ n ∈ parse_selection sample_config sample_selector "0,2-4,10")
  ∧ (n ∈ all_nodes sample_selector ∨ n ∈ Config.nodes sample_config)
  ∧ (all_nodes sample_selector = Config.nodes sample_config →
     n ∈ Config.nodes sample_config).
Proof.
  intros n.
  assert (Hlen : (String.length "0,2-4,10" ≤ Py.int_max_str_digits)%nat)
    by (unfold Py.int_max_str_digits; simpl; lia).
  assert (Hnames : Forall (fun node => Py.isascii (NodeConfig.name node) = true)
                     (all_nodes sample_selector))
    by (repeat constructor).
  assert (Hn : n ∈ parse_selection sample_config sample_selector "0,2-4,10").
  { apply list_elem_of_In. vm_compute. tauto. }
  split; [split; [reflexivity|split; [exact Hlen|split; [exact Hnames|exact Hn]]]|].
  exact (parse_selection_subset sample_config sample_selector "0,2-4,10" n
           eq_refl Hlen Hnames Hn).
Defined.

End SelectorFacts.

Lemma find_single_node_spec_witness :
  (Py.isascii "10" = true
   ∧ (String.length "10" ≤ Py.int_max_str_digits)%nat
   ∧ Forall (fun node => Py.isascii (NodeConfig.name node) = true)
       (NodeSelector.all_nodes sample_selector)
   ∧ Py.isdigit "10" = true
   ∧ sample_node 10 "node-10" "10.0.0.7" true ∈ NodeSelector.all_nodes sample_selector)
  ∧ ∃ n, NodeSelector._find_single_node sample_selector "10" = Some n
         ∧ NodeConfig.id n = 10.
Proof.
  assert (Hlen : (String.length "10" ≤ Py.int_max_str_digits)%nat)
    by (unfold Py.int_max_str_digits; simpl; lia).
  assert (Hnames : Forall (fun node => Py.isascii (NodeConfig.name node) = true)
                     (NodeSelector.all_nodes sample_selector))
    by (repeat constructor).
  assert (Hin : sample_node 10 "node-10" "10.0.0.7" true
                ∈ NodeSelector.all_nodes sample_selector).
  { apply list_elem_of_In. vm_compute. tauto. }
  split; [split; [reflexivity|split; [exact Hlen|split; [exact Hnames|split;
    [reflexivity|exact Hin]]]]|].
  exact (proj2 (proj2 (find_single_node_spec sample_selector "10" eq_refl Hlen Hnames))
           (sample_node 10 "node-10" "10.0.0.7" true) eq_refl Hin eq_refl).
Defined.

(** ** The configuration manager *)

Section ConfigFacts.

Import ConfigManager.

Variable cfg : Config.t.

(** X4. [get_node_by_id] returns a configured node with the requested id,
    and nothing exactly when no configured node has that id; when the ids
    of the configuration are unique, looking up the id of a configured node
    gives that node back. *)
Theorem get_node_by_id_spec node_id :
  (∀ n, get_node_by_id cfg node_id = Some n →
        n ∈ Config.nodes cfg ∧ NodeConfig.id n = node_id)
  ∧ (get_node_by_id cfg node_id = None ↔
     node_id ∉ List.map NodeConfig.id (Config.nodes cfg))
  ∧ (NoDup (List.map NodeConfig.id (Config.nodes cfg)) →
     ∀ n, n ∈ Config.nodes cfg → get_node_by_id cfg (NodeConfig.id n) = Some n).
Proof.
  unfold get_node_by_id, get_nodes. split; [|split].
  - intros n [Hin Heq]%find_Some_elem. by apply Z.eqb_eq in Heq.
  - rewrite find_None_iff. split.
    + intros Hall Hin. apply list_elem_of_In, in_map_iff in Hin as (n & Hid & Hn).
      specialize (Hall n (proj2 (list_elem_of_In _ _) Hn)). simpl in Hall.
      by apply Z.eqb_neq in Hall.
    + intros Hnot n Hn. apply Z.eqb_neq. intros Hid. apply Hnot.
      apply list_elem_of_In, in_map_iff. exists n. split; [done|].
      by apply list_elem_of_In.
  - intros Hnd n Hn.
    destruct (List.find (fun node => NodeConfig.id node =? NodeConfig.id n)
                (Config.nodes cfg)) as [m|] eqn:Hfind.
    + apply find_Some_elem in Hfind as [Hm Heq]. apply Z.eqb_eq in Heq.
      f_equal. by eapply NoDup_ids_inj.
    + rewrite find_None_iff in Hfind. specialize (Hfind n Hn). simpl in Hfind.
      by rewrite Z.eqb_refl in Hfind.
Qed.

End ConfigFacts.

Lemma get_node_by_id_spec_witness :
  NoDup (List.map NodeConfig.id (Config.nodes sample_config))
  ∧ node_5 ∈ Config.nodes sample_config
  ∧ ConfigManager.get_node_by_id sample_config (NodeConfig.id node_5) = Some node_5.
Proof.
  assert (Hnd : NoDup (List.map NodeConfig.id (Config.nodes sample_config)))
    by (refine (bool_decide_unpack _ _); vm_compute; exact I).
  assert (Hin : node_5 ∈ Config.nodes sample_config).
  { apply list_elem_of_In. vm_compute. tauto. }
  split; [exact Hnd|]. split; [exact Hin|].
  exact (proj2 (proj2 (get_node_by_id_spec sample_config 5)) Hnd node_5 Hin).
Defined.

Section ResolutionFacts.

Import ConfigManager.

Variable cfg : Config.t.

Lemma get_nodes_by_ids_of_nodes selected :
  NoDup (List.map NodeConfig.id (Config.nodes cfg)) →
  (∀ n, n ∈ selected → n ∈ Config.nodes cfg) →
  get_nodes_by_ids cfg (List.map NodeConfig.id selected) = selected.
Proof.
  intros Hnd. induction selected as [|n rest IH]; intros Hsub; simpl; [done|].
  assert (Hlookup : get_node_by_id cfg (NodeConfig.id n) = Some n).
  { unfold get_node_by_id, get_nodes.
    destruct (List.find _ (Config.nodes cfg)) as [m|] eqn:Hfind.
    - apply find_Some_elem in Hfind as [Hm Heq]. apply Z.eqb_eq in Heq.
      f_equal. eapply NoDup_ids_inj; eauto. apply Hsub. left.
    - rewrite find_None_iff in Hfind.
      specialize (Hfind n (Hsub n ltac:(left))). simpl in Hfind.
      by rewrite Z.eqb_refl in Hfind. }
  rewrite Hlookup, IH; [done|]. intros m Hm. apply Hsub. by right.
Qed.

Lemma get_nodes_by_ids_elem node_ids n :
  n ∈ get_nodes_by_ids cfg node_ids →
  n ∈ Config.nodes cfg ∧ NodeConfig.id n ∈ node_ids.
Proof.
  induction node_ids as [|i ids IH]; simpl; [by intros ?%elem_of_nil|].
  destruct (get_node_by_id cfg i) as [m|] eqn:Hget.
  - unfold get_node_by_id, get_nodes in Hget.
    apply find_Some_elem in Hget as [Hm Heq]. apply Z.eqb_eq in Heq.
    intros [->|Hn]%elem_of_cons.
    + split; [done|]. rewrite Heq. left.
    + destruct (IH Hn). split; [done|]. by right.
  - intros Hn. destruct (IH Hn). split; [done|]. by right.
Qed.

(** X5. [get_nodes_by_ids] returns configured nodes only, each with a
    requested id, and never more nodes than ids; the enabled flag plays no
    part. When the ids of the configuration are unique, resolving the ids
    of a list of configured nodes gives that list back. *)
Theorem get_nodes_by_ids_round_trip node_ids :
  (∀ n, n ∈ get_nodes_by_ids cfg node_ids →
        n ∈ Config.nodes cfg ∧ NodeConfig.id n ∈ node_ids)
  ∧ (length (get_nodes_by_ids cfg node_ids) ≤ length node_ids)%nat
  ∧ (NoDup (List.map NodeConfig.id (Config.nodes cfg)) →
     ∀ selected, (∀ n, n ∈ selected → n ∈ Config.nodes cfg) →
                 node_ids = List.map NodeConfig.id selected →
                 get_nodes_by_ids cfg node_ids = selected).
Proof.
  split; [apply get_nodes_by_ids_elem|]. split.
  - induction node_ids as [|i ids IH]; simpl; [done|].
    destruct (get_node_by_id cfg i); simpl; lia.
  - intros Hnd selected Hsub ->. by apply get_nodes_by_ids_of_nodes.
Qed.

End ResolutionFacts.

Lemma get_nodes_by_ids_round_trip_witness :
  let selected := [node_5; sample_node 1 "Node-1" "10.0.0.2" false] in
  NoDup (List.map NodeConfig.id (Config.nodes sample_config))
  ∧ (∀ n, n ∈ selected → n ∈ Config.nodes sample_config)
  ∧ ConfigManager.get_nodes_by_ids sample_config [5; 1] = selected.
Proof.
  intros selected.
  assert (Hnd : NoDup (List.map NodeConfig.id (Config.nodes sample_config)))
    by (refine (bool_decide_unpack _ _); vm_compute; exact I).
  assert (Hsub : ∀ n, n ∈ selected → n ∈ Config.nodes sample_config).
  { intros n Hn. apply list_elem_of_In in Hn. apply list_elem_of_In.
    vm_compute in Hn. vm_compute. tauto. }
  split; [exact Hnd|]. split; [exact Hsub|].
  exact (proj2 (proj2 (get_nodes_by_ids_round_trip sample_config [5; 1]))
           Hnd selected Hsub eq_refl).
Defined.

(** ** The pool, continued *)

Section PoolOperations.

Context `{Collaborators}.

Variable cfg : Config.t.

Local Open Scope list_scope.

Lemma dict_get_None d k : dict_get d k = None ↔ k ∉ List.map fst d.
Proof.
  induction d as [|[k' l'] d IH]; simpl.
  - split; [intros _ Hin; by apply elem_of_nil in Hin|done].
  - destruct (Z.eqb_spec k' k) as [->|Hne].
    + split; [done|]. intros Hnot. exfalso. apply Hnot. left.
    + rewrite IH. split.
      * intros Hnot [?|?]%elem_of_cons; [congruence|done].
      * intros Hnot Hin. apply Hnot. by right.
Qed.

Lemma dict_get_snoc d k l k' :
  dict_get (d ++ [(k, l)]) k'
  = match dict_get d k' with
    | Some l' => Some l'
    | None => if k =? k' then Some l else None
    end.
Proof.
  induction d as [|[k0 l0] d IH]; simpl; [done|].
  by destruct (k0 =? k').
Qed.

Lemma dict_get_del_eq d k : dict_get (dict_del d k) k = None.
Proof.
  induction d as [|[k' l'] d IH]; simpl; [done|].
  destruct (Z.eqb_spec k' k) as [->|Hne]; simpl; [done|].
  destruct (Z.eqb_spec k' k); [done|]. exact IH.
Qed.

Lemma dict_get_del_ne d k k' : k' ≠ k → dict_get (dict_del d k) k' = dict_get d k'.
Proof.
  intros Hne. induction d as [|[k0 l0] d IH]; simpl; [done|].
  destruct (Z.eqb_spec k0 k) as [->|Hne0]; simpl.
  - destruct (Z.eqb_spec k k'); [congruence|done].
  - by rewrite IH.
Qed.

(** X6. On a pool that satisfies its invariant and has one entry per key,
    [get_connection] returns an object created for a node with the requested
    id and registered under that id; an id that already has an object gets
    that object and the state is left as it was; asking again returns the
    same object without changing anything; the entries of other ids are
    not touched, and the pool still has one entry per key. *)
Theorem get_connection_one_per_node node st :
  wf st →
  NoDup (List.map fst (connections st)) →
  ∃ l st1,
    get_connection cfg node st = (Val l, st1)
    ∧ dict_get (connections st1) (NodeConfig.id node) = Some l
    ∧ holds st1 l (NodeConfig.id node)
    ∧ (∀ l0, dict_get (connections st) (NodeConfig.id node) = Some l0 →
             l = l0 ∧ st1 = st)
    ∧ get_connection cfg node st1 = (Val l, st1)
    ∧ (∀ k, k ≠ NodeConfig.id node →
            dict_get (connections st1) k = dict_get (connections st) k)
    ∧ wf st1
    ∧ NoDup (List.map fst (connections st1)).
Proof.
  intros Hwf Hnd.
  pose proof (get_connection_spec cfg (fun _ => True) node st (fun _ _ => False) Hwf)
    as Hspec.
  unfold wp in Hspec. unfold get_connection in *.
  destruct (dict_get (connections st) (NodeConfig.id node)) as [l|] eqn:Hget.
  - destruct Hspec as [_ Hholds]. exists l, st. rewrite Hget.
    split; [done|]. split; [done|]. split; [done|].
    split; [by intros l0 [= ->]|]. split; [done|]. split; [done|]. done.
  - destruct (time_time (env st)) as [t e]. destruct Hspec as [Hev Hholds].
    eexists _, _. split; [reflexivity|]. simpl.
    assert (Hnew : dict_get (connections st ++ [(NodeConfig.id node, length (heap st))])
                     (NodeConfig.id node) = Some (length (heap st))).
    { by rewrite dict_get_snoc, Hget, Z.eqb_refl. }
    rewrite Hnew. split; [done|]. split; [done|]. split; [done|]. split; [done|].
    split; [|split].
    + intros k Hk. rewrite dict_get_snoc.
      destruct (dict_get (connections st) k); [done|].
      destruct (Z.eqb_spec (NodeConfig.id node) k); [congruence|done].
    + by apply (wf_evolves _ _ _ Hev).
    + rewrite map_app. simpl. apply NoDup_app. split; [done|]. split.
      * intros k Hk ->%list_elem_of_singleton. by apply dict_get_None in Hget.
      * apply NoDup_singleton.
Qed.

(** X7. [SSHConnection.disconnect] on an object: the first call closes the
    client handle, if there is one, and clears handle and flag; a second
    call makes no request and changes nothing. *)
Theorem disconnect_twice l c st :
  heap st !! l = Some c →
  ∃ st1,
    disconnect l st = (Val tt, st1)
    ∧ cleared st1 l
    ∧ trace st1
      = trace st ++ match SSHConnection.client c with
                    | Some h => [(NodeConfig.id (SSHConnection.node c), OpClose h)]
                    | None => []
                    end
    ∧ disconnect l st1 = (Val tt, st1).
Proof.
  intros Hl. unfold disconnect, bind, load. rewrite Hl.
  destruct st as [e hp d nh tr]. simpl in *.
  assert (Halter : ∀ hp' : list SSHConnection.t,
            hp' !! l = Some (SSHConnection.set_connected false
                                             (SSHConnection.set_client None c)) →
            alter (SSHConnection.set_connected false) l hp' = hp').
  { intros hp' Hl'. apply list_eq. intros i. destruct (decide (l = i)) as [->|Hne].
    - by rewrite list_lookup_alter_eq, Hl'.
    - by rewrite list_lookup_alter_ne. }
  destruct (SSHConnection.client c) as [h|] eqn:Hcl; simpl.
  - eexists. split; [reflexivity|].
    assert (Hl1 : alter (SSHConnection.set_connected false) l
                    (alter (SSHConnection.set_client None) l hp) !! l
                  = Some (SSHConnection.set_connected false
                            (SSHConnection.set_client None c))).
    { by rewrite !list_lookup_alter_eq, Hl. }
    split; [unfold cleared; simpl; rewrite Hl1; by eexists|].
    split; [done|]. simpl. rewrite Hl1. simpl.
    unfold update, with_heap. simpl. by rewrite (Halter _ Hl1).
  - eexists. split; [reflexivity|].
    assert (Hl1 : alter (SSHConnection.set_connected false) l hp !! l
                  = Some (SSHConnection.set_connected false
                            (SSHConnection.set_client None c))).
    { rewrite !list_lookup_alter_eq, Hl. simpl. f_equal.
      destruct c; simpl in *. by subst. }
    split; [unfold cleared; simpl; rewrite Hl1; by eexists|].
    split; [by rewrite app_nil_r|]. simpl. rewrite Hl1. simpl.
    unfold update, with_heap. simpl. by rewrite (Halter _ Hl1).
Qed.

Lemma disconnect_holds l i st :
  holds st l i →
  wp (for_node i) (disconnect l) st
    (fun _ st' => cleared st' l ∧ connections st' = connections st) (fun _ _ => False).
Proof.
  intros (c & Hl & <-).
  destruct (disconnect_run l c st Hl) as (st1 & Hrun & Hconn & Hcl & _).
  assert (Hwp : wp (for_node (NodeConfig.id (SSHConnection.node c))) (disconnect l) st
                  (fun _ _ => True) (fun _ _ => False)).
  { unfold disconnect. apply wp_bind, (wp_load _ _ c); [done|].
    destruct (SSHConnection.client c); repeat wp_step; done. }
  unfold wp in *. rewrite Hrun in *. destruct Hwp as [Hev _]. done.
Qed.

Lemma wf_holds st k l : wf st → dict_get (connections st) k = Some l → holds st l k.
Proof.
  intros Hwf Hget. apply dict_get_elem in Hget.
  unfold wf in Hwf. rewrite Forall_forall in Hwf. exact (Hwf _ Hget).
Qed.

Lemma wf_dict_del st k : wf st → wf (with_connections (dict_del (connections st) k) st).
Proof.
  unfold wf, dict_del. simpl. rewrite !Forall_forall.
  intros Hwf kl Hkl. apply Hwf.
  apply list_elem_of_In, List.filter_In in Hkl as [Hin _]. by apply list_elem_of_In.
Qed.

(** X8. On a pool that satisfies its invariant, [disconnect_node] returns;
    afterwards the id has no entry, the object it had is disconnected, the
    entries of the other ids are as before and the invariant still holds;
    for an id without an entry nothing happens at all. *)
Theorem disconnect_node_removes node_id st :
  wf st →
  ∃ st',
    disconnect_node node_id st = (Val tt, st')
    ∧ dict_get (connections st') node_id = None
    ∧ (∀ l, dict_get (connections st) node_id = Some l → cleared st' l)
    ∧ (dict_get (connections st) node_id = None → st' = st)
    ∧ (∀ k, k ≠ node_id → dict_get (connections st') k = dict_get (connections st) k)
    ∧ wf st'.
Proof.
  intros Hwf. unfold disconnect_node.
  destruct (dict_get (connections st) node_id) as [l|] eqn:Hget.
  - pose proof (disconnect_holds l node_id st (wf_holds _ _ _ Hwf Hget)) as Hwp.
    apply wp_returns in Hwp as ([] & st1 & Hrun & Hev & Hcl & Hconn).
    eexists. unfold bind. rewrite Hrun. split; [reflexivity|]. simpl.
    rewrite Hconn. split; [apply dict_get_del_eq|]. split; [by intros l0 [= <-]|].
    split; [done|]. split; [intros k Hk; by apply dict_get_del_ne|].
    rewrite <- Hconn. apply wf_dict_del. by apply (wf_evolves _ _ _ Hev).
  - exists st. repeat split; done.
Qed.

End PoolOperations.

Lemma get_connection_one_per_node_witness :
  let st := connected_state in
  (wf st ∧ NoDup (List.map fst (connections st)))
  ∧ ∃ l st1,
      get_connection sample_config node_5 st = (Val l, st1)
      ∧ dict_get (connections st1) (NodeConfig.id node_5) = Some l
      ∧ holds st1 l (NodeConfig.id node_5)
      ∧ get_connection sample_config node_5 st1 = (Val l, st1)
      ∧ wf st1
      ∧ NoDup (List.map fst (connections st1)).
Proof.
  intros st.
  assert (Hwf : wf st).
  { repeat constructor; simpl; eexists; (split; [reflexivity|reflexivity]). }
  assert (Hnd : NoDup (List.map fst (connections st)))
    by (refine (bool_decide_unpack _ _); vm_compute; exact I).
  split; [split; [exact Hwf|exact Hnd]|].
  destruct (get_connection_one_per_node sample_config node_5 st Hwf Hnd)
    as (l & st1 & Hrun & Hget & Hholds & _ & Hagain & _ & Hwf1 & Hnd1).
  by exists l, st1.
Defined.

Lemma disconnect_twice_witness :
  let c := SSHConnection.mk node_2 (Config.ssh sample_config) (Some O) true 3 in
  heap connected_state !! O = Some c
  ∧ ∃ st1,
      disconnect 0 connected_state = (Val tt, st1)
      ∧ cleared st1 0
      ∧ trace st1 = [(2, OpClose 0)]
      ∧ disconnect 0 st1 = (Val tt, st1).
Proof.
  intros c. split; [reflexivity|].
  exact (disconnect_twice 0 c connected_state eq_refl).
Defined.

Lemma disconnect_node_removes_witness :
  wf connected_state
  ∧ ∃ st',
      disconnect_node 2 connected_state = (Val tt, st')
      ∧ dict_get (connections st') 2 = None
      ∧ (∀ l, dict_get (connections connected_state) 2 = Some l → cleared st' l)
      ∧ wf st'.
Proof.
  assert (Hwf : wf connected_state).
  { repeat constructor; simpl; eexists; (split; [reflexivity|reflexivity]). }
  split; [exact Hwf|].
  destruct (disconnect_node_removes 2 connected_state Hwf)
    as (st' & Hrun & Hnone & Hcl & _ & _ & Hwf').
  by exists st'.
Defined.

Section PoolBatches.

Context `{Collaborators}.

Variable cfg : Config.t.

Local Open Scope list_scope.

Lemma connect_node_spec node st :
  wf st →
  wp (for_node (NodeConfig.id node)) (connect_node cfg node) st
    (fun _ _ => True) (fun _ _ => False).
Proof.
  intros Hwf. unfold connect_node. apply wp_bind.
  eapply wp_mono; [| | |exact (get_connection_spec cfg _ node st (fun _ _ => False) Hwf)];
    [done| |done].
  intros l st1 _ Hl. exact (connect_holds l _ st1 Hl).
Qed.

Lemma collect_connects_spec completed :
  ∀ (results : gmap Z bool) st,
    wf st →
    ∃ results' st',
      collect_connects cfg completed results st = (Val results', st')
      ∧ wf st'
      ∧ dom results' = dom results ∪ list_to_set (List.map NodeConfig.id completed).
Proof.
  induction completed as [|node rest IH]; intros results st Hwf; simpl.
  - exists results, st. split; [done|]. split; [done|].
    by rewrite (right_id_L ∅ (∪)).
  - destruct (wp_returns _ _ _ _ (connect_node_spec node st Hwf))
      as (success & st1 & Hrun & Hev & _).
    rewrite Hrun.
    destruct (IH (<[NodeConfig.id node := success]> results) st1
                (wf_evolves _ _ _ Hev Hwf)) as (results' & st' & Hloop & Hwf' & Hdom).
    exists results', st'. split; [done|]. split; [done|].
    rewrite Hdom, dom_insert_L.
    by rewrite (comm_L (∪) {[NodeConfig.id node]} (dom results)), <- (assoc_L (∪)).
Qed.

(** X9. On a pool that satisfies its invariant, [connect_nodes] with a
    positive worker count returns, whatever the hosts answer and in whatever
    order the workers complete, a dictionary whose keys are exactly the ids
    of the given nodes. With a worker count that is not positive it raises
    [ValueError] before doing anything; this is the case of an empty node
    list with the default worker count. *)
Theorem connect_nodes_flag_per_node sched nodes max_workers st :
  wf st →
  let workers :=
    match max_workers with
    | None => Z.min (Z.of_nat (length nodes))
                (ExecutionConfig.max_concurrent (Config.execution cfg))
    | Some w => w
    end in
  (0 < workers →
   ∃ results st',
     connect_nodes cfg sched nodes max_workers st = (Val results, st')
     ∧ dom results = list_to_set (List.map NodeConfig.id nodes)
     ∧ wf st')
  ∧ (workers ≤ 0 →
     connect_nodes cfg sched nodes max_workers st
     = (Raise (mkExn ValueError "max_workers must be greater than 0"), st))
  ∧ (nodes = [] → max_workers = None → workers ≤ 0).
Proof.
  intros Hwf workers. unfold connect_nodes. fold workers. split; [|split].
  - intros Hpos. destruct (Z.leb_spec workers 0) as [?|_]; [lia|].
    destruct (collect_connects_spec (as_completed sched nodes) ∅ st Hwf)
      as (results & st' & Hrun & Hwf' & Hdom).
    exists results, st'. split; [done|]. split; [|done].
    rewrite Hdom, dom_empty_L, (left_id_L ∅ (∪)).
    apply list_to_set_perm_L, Permutation_map, as_completed_Permutation.
  - intros Hle. by destruct (Z.leb_spec workers 0) as [_|?]; [|lia].
  - intros -> ->. subst workers. simpl. lia.
Qed.

Lemma is_alive_run l c st : heap st !! l = Some c → is_alive l st = (Val (alive st l), st).
Proof.
  intros Hl. unfold is_alive, alive, bind, load. rewrite Hl.
  destruct (SSHConnection.connected c), (SSHConnection.client c) as [h|]; try done.
  simpl. destruct (transport_is_active h (env st)) as [[|]|]; simpl; try done.
Qed.

Lemma status_loop_run items :
  ∀ (status : gmap Z bool) st,
    (∀ kl, kl ∈ items → is_Some (heap st !! kl.2)) →
    status_loop items status st
    = (Val (List.fold_left (fun m kl => <[kl.1 := alive st kl.2]> m) items status), st).
Proof.
  induction items as [|[k l] items IH]; intros status st Hvalid; simpl; [done|].
  destruct (Hvalid (k, l)) as [c Hl]; [left|]. simpl in Hl.
  unfold bind. rewrite (is_alive_run l c st Hl). apply IH.
  intros kl Hkl. apply Hvalid. by right.
Qed.

Lemma connected_loop_run items :
  ∀ connected st,
    (∀ kl, kl ∈ items → is_Some (heap st !! kl.2)) →
    connected_loop items connected st
    = (Val (connected ++ List.map fst (List.filter (fun kl => alive st kl.2) items)), st).
Proof.
  induction items as [|[k l] items IH]; intros connected st Hvalid; simpl.
  - by rewrite app_nil_r.
  - destruct (Hvalid (k, l)) as [c Hl]; [left|]. simpl in Hl.
    unfold bind. rewrite (is_alive_run l c st Hl).
    rewrite IH by (intros kl Hkl; apply Hvalid; by right).
    destruct (alive st l); simpl; [by rewrite <- app_assoc|done].
Qed.

Lemma fold_insert_lookup (f : Z * nat → bool) items :
  ∀ (status : gmap Z bool) k l,
    NoDup (List.map fst items) → (k, l) ∈ items →
    List.fold_left (fun m kl => <[kl.1 := f kl]> m) items status !! k = Some (f (k, l)).
Proof.
  induction items as [|[k0 l0] items IH]; intros status k l Hnd Hin; simpl.
  - by apply elem_of_nil in Hin.
  - simpl in Hnd. apply NoDup_cons in Hnd as [Hk0 Hnd].
    apply elem_of_cons in Hin as [[= -> ->]|Hin]; [|by apply IH].
    clear IH. revert status. induction items as [|[k1 l1] items IH]; intros status; simpl.
    + by rewrite lookup_insert_eq.
    + simpl in Hk0, Hnd. apply not_elem_of_cons in Hk0 as [Hne Hk0].
      apply NoDup_cons in Hnd as [_ Hnd].
      rewrite insert_insert_ne by done. by apply IH.
Qed.

Lemma fold_insert_dom (f : Z * nat → bool) items :
  ∀ status : gmap Z bool,
    dom (List.fold_left (fun m kl => <[kl.1 := f kl]> m) items status)
    = dom status ∪ list_to_set (List.map fst items).
Proof.
  induction items as [|[k l] items IH]; intros status; simpl.
  - by rewrite (right_id_L ∅ (∪)).
  - rewrite IH, dom_insert_L.
    by rewrite (comm_L (∪) {[k]} (dom status)), <- (assoc_L (∪)).
Qed.

Lemma filter_status (status : gmap Z bool) (g : nat → bool) (items : list (Z * nat)) :
  (∀ k l, (k, l) ∈ items → status !! k = Some (g l)) →
  List.map fst (List.filter (fun kl => g kl.2) items)
  = List.filter (fun k => bool_decide (status !! k = Some true)) (List.map fst items).
Proof.
  induction items as [|[k l] items IH]; intros Hlookup; simpl; [done|].
  rewrite (Hlookup k l) by left.
  assert (Hrest : List.map fst (List.filter (fun kl => g kl.2) items)
                  = List.filter (fun k => bool_decide (status !! k = Some true))
                      (List.map fst items)).
  { apply IH. intros k' l' Hin. apply Hlookup. by right. }
  destruct (g l); simpl; by rewrite Hrest.
Qed.

(** X10. On a pool that satisfies its invariant and has one entry per key,
    [check_connections] and [get_connected_nodes] return without changing
    the state; the status dictionary has the pool's ids as keys, each with
    the answer of [is_alive] for its object, and the connected list is the
    list of the pool's ids whose status is true, in the order of the
    pool. *)
Theorem check_connections_agrees st :
  wf st →
  NoDup (List.map fst (connections st)) →
  ∃ status connected,
    check_connections st = (Val status, st)
    ∧ get_connected_nodes st = (Val connected, st)
    ∧ dom status = list_to_set (List.map fst (connections st))
    ∧ (∀ k l, (k, l) ∈ connections st → status !! k = Some (alive st l))
    ∧ connected
      = List.filter (fun k => bool_decide (status !! k = Some true))
          (List.map fst (connections st)).
Proof.
  intros Hwf Hnd.
  assert (Hvalid : ∀ kl, kl ∈ connections st → is_Some (heap st !! kl.2)).
  { intros kl Hkl. unfold wf in Hwf. rewrite Forall_forall in Hwf.
    destruct (Hwf kl Hkl) as (c & Hc & _). by eexists. }
  eexists _, _. unfold check_connections, get_connected_nodes.
  rewrite status_loop_run, connected_loop_run by done.
  split; [done|]. split; [done|].
  set (f := fun kl : Z * nat => alive st kl.2).
  assert (Hlookup : ∀ k l, (k, l) ∈ connections st →
            List.fold_left (fun m kl => <[kl.1 := f kl]> m) (connections st)
              (∅ : gmap Z bool) !! k
            = Some (alive st l)).
  { intros k l Hin. by rewrite (fold_insert_lookup f _ _ k l Hnd Hin). }
  split; [by rewrite (fold_insert_dom f), dom_empty_L, (left_id_L ∅ (∪))|].
  split; [exact Hlookup|].
  simpl. by apply filter_status.
Qed.

Lemma disconnect_kept l c st st1 :
  heap st !! l = Some c → disconnect l st = (Val tt, st1) → kept st st1.
Proof.
  intros Hl. unfold disconnect, bind, load. rewrite Hl.
  destruct (SSHConnection.client c) as [h|]; simpl; intros [= <-];
    intros l' c' Hl'; simpl;
    (destruct (decide (l = l')) as [->|Hne];
     [rewrite !list_lookup_alter_eq, Hl'; simpl; eexists; by split
     |rewrite !list_lookup_alter_ne by done; eauto]).
Qed.

Lemma kept_refl st : kept st st.
Proof. intros l c Hl. eauto. Qed.

Lemma kept_trans st1 st2 st3 : kept st1 st2 → kept st2 st3 → kept st1 st3.
Proof.
  intros H12 H23 l c Hl. destruct (H12 _ _ Hl) as (c2 & Hl2 & Hn2 & Ha2).
  destruct (H23 _ _ Hl2) as (c3 & Hl3 & Hn3 & Ha3).
  exists c3. split; [done|]. split; congruence.
Qed.

Lemma idle_kept t idle_timeout st st' kl :
  kept st st' → is_Some (heap st !! kl.2) →
  idle t idle_timeout st' kl = idle t idle_timeout st kl.
Proof.
  intros Hk [c Hl]. unfold idle. rewrite Hl.
  destruct (Hk _ _ Hl) as (c' & -> & _ & ->). done.
Qed.

Lemma idle_loop_run t idle_timeout items :
  ∀ to_remove st,
    (∀ kl, kl ∈ items → is_Some (heap st !! kl.2)) →
    ∃ st',
      idle_loop t idle_timeout items to_remove st
      = (Val (to_remove ++ List.map fst (List.filter (idle t idle_timeout st) items)), st')
      ∧ connections st' = connections st
      ∧ (∀ kl, kl ∈ items → idle t idle_timeout st kl = true → cleared st' kl.2)
      ∧ (∀ l0, cleared st l0 → cleared st' l0)
      ∧ kept st st'.
Proof.
  induction items as [|[k l] items IH]; intros to_remove st Hvalid; simpl.
  - exists st. rewrite app_nil_r. split; [done|]. split; [done|].
    split; [by intros kl ?%elem_of_nil|]. split; [done|apply kept_refl].
  - destruct (Hvalid (k, l)) as [c Hl]; [left|]. simpl in Hl.
    unfold bind at 1, load. rewrite Hl. unfold idle at 1. simpl. rewrite Hl.
    destruct (t - SSHConnection.last_activity c >? idle_timeout) eqn:Hidle.
    + destruct (disconnect_run l c st Hl) as (st1 & Hrun & Hconn & Hcl & Hkeepcl & Hsome).
      pose proof (disconnect_kept l c st st1 Hl Hrun) as Hkept.
      destruct (IH (to_remove ++ [k]) st1)
        as (st' & Hloop & Hconn' & Hcl' & Hstay & Hkept').
      { intros kl Hkl. apply Hsome, Hvalid. by right. }
      exists st'. unfold bind. rewrite Hrun, Hloop.
      assert (Hfilter : List.filter (idle t idle_timeout st1) items
                        = List.filter (idle t idle_timeout st) items).
      { apply List.filter_ext_in. intros kl Hkl. apply idle_kept; [done|].
        apply Hvalid. right. by apply list_elem_of_In. }
      rewrite Hfilter. simpl. rewrite <- app_assoc. split; [done|].
      split; [congruence|]. split; [|split; [auto|by eapply kept_trans]].
      intros kl [->|Hkl]%elem_of_cons Hkl_idle.
      * simpl. by apply Hstay.
      * apply Hcl'; [done|].
        rewrite (idle_kept t idle_timeout st st1 kl Hkept); [done|].
        apply Hvalid. by right.
    + destruct (IH to_remove st) as (st' & Hloop & Hconn' & Hcl' & Hstay & Hkept').
      { intros kl Hkl. apply Hvalid. by right. }
      exists st'. rewrite Hloop. split; [done|]. split; [done|].
      split; [|split; [done|done]].
      intros kl [->|Hkl]%elem_of_cons Hkl_idle.
      * unfold idle in Hkl_idle. simpl in Hkl_idle. rewrite Hl in Hkl_idle. congruence.
      * by apply Hcl'.
Qed.

Lemma fold_dict_del ks :
  ∀ d, List.fold_left dict_del ks d
       = List.filter (fun kl => negb (existsb (Z.eqb kl.1) ks)) d.
Proof.
  induction ks as [|k ks IH]; intros d; simpl.
  - induction d as [|kl d IHd]; simpl; [done|]. by rewrite <- IHd.
  - rewrite IH. unfold dict_del. clear IH.
    induction d as [|kl d IHd]; simpl; [done|].
    destruct (Z.eqb_spec kl.1 k) as [Heq|Hne]; simpl; [done|].
    by rewrite IHd.
Qed.

Lemma existsb_key_filter (p : Z * nat → bool) d kl :
  NoDup (List.map fst d) → kl ∈ d →
  existsb (Z.eqb kl.1) (List.map fst (List.filter p d)) = p kl.
Proof.
  intros Hnd Hkl. destruct (p kl) eqn:Hp.
  - apply existsb_exists. exists kl.1. split; [|apply Z.eqb_refl].
    apply in_map, List.filter_In. split; [by apply list_elem_of_In|done].
  - destruct (existsb _ _) eqn:Hex; [|done].
    apply existsb_exists in Hex as (k' & Hin & Heq). apply Z.eqb_eq in Heq. subst k'.
    apply in_map_iff in Hin as (kl' & Hfst & Hin').
    apply List.filter_In in Hin' as [Hin' Hp'].
    assert (kl' = kl); [|congruence].
    clear -Hnd Hkl Hin' Hfst. apply list_elem_of_In in Hin'.
    induction d as [|x d IH]; [by apply elem_of_nil in Hkl|].
    simpl in Hnd. apply NoDup_cons in Hnd as [Hx Hnd].
    assert (Hmem : ∀ y, y ∈ d → y.1 ∈ List.map fst d).
    { intros y Hy. apply list_elem_of_In, in_map. by apply list_elem_of_In. }
    apply elem_of_cons in Hkl as [->|Hkl]; apply elem_of_cons in Hin' as [->|Hin'].
    + done.
    + exfalso. apply Hx. rewrite <- Hfst. by apply Hmem.
    + exfalso. apply Hx. rewrite Hfst. by apply Hmem.
    + by apply IH.
Qed.

(** X11. On a pool that satisfies its invariant and has one entry per key,
    [cleanup_idle_connections] returns; the entries left are exactly those
    whose object was used within [idle_timeout] of the time read at the
    start (an object idle for exactly [idle_timeout] stays), in their
    order; the objects of the removed entries are disconnected; and the
    invariant still holds. *)
Theorem cleanup_idle_connections_removes idle_timeout st :
  wf st →
  NoDup (List.map fst (connections st)) →
  let t := (time_time (env st)).1 in
  ∃ st',
    cleanup_idle_connections idle_timeout st = (Val tt, st')
    ∧ connections st'
      = List.filter (fun kl => negb (idle t idle_timeout st kl)) (connections st)
    ∧ (∀ k l, (k, l) ∈ connections st → idle t idle_timeout st (k, l) = true →
              cleared st' l)
    ∧ wf st'.
Proof.
  intros Hwf Hnd t. unfold cleanup_idle_connections, bind at 1, now.
  destruct (time_time (env st)) as [t0 e] eqn:Ht. subst t. simpl.
  set (st0 := with_env e st).
  assert (Hvalid : ∀ kl, kl ∈ connections st0 → is_Some (heap st0 !! kl.2)).
  { intros kl Hkl. unfold wf in Hwf. rewrite Forall_forall in Hwf.
    destruct (Hwf kl Hkl) as (c & Hc & _). by eexists. }
  destruct (idle_loop_run t0 idle_timeout (connections st0) [] st0 Hvalid)
    as (st1 & Hloop & Hconn & Hcl & _ & Hkept).
  set (to_remove := List.map fst (List.filter (idle t0 idle_timeout st0) (connections st0))).
  assert (Hfinal : List.fold_left dict_del to_remove (connections st1)
                   = List.filter (fun kl => negb (idle t0 idle_timeout st kl))
                       (connections st)).
  { rewrite Hconn, fold_dict_del. apply List.filter_ext_in. intros kl Hkl.
    subst to_remove. rewrite existsb_key_filter; [done|done|by apply list_elem_of_In]. }
  exists (with_connections (List.fold_left dict_del to_remove (connections st1)) st1).
  unfold bind. rewrite Hloop. split; [done|]. split; [exact Hfinal|]. split.
  - intros k l Hin Hidle. destruct (Hcl (k, l) Hin Hidle) as (c & Hl & Hc).
    exists c. by split.
  - unfold wf. cbn [connections heap with_connections]. rewrite Hfinal, Forall_forall.
    intros kl Hkl. apply list_elem_of_In, List.filter_In in Hkl as [Hkl _].
    unfold wf in Hwf. rewrite Forall_forall in Hwf.
    destruct (Hwf kl (proj2 (list_elem_of_In _ _) Hkl)) as (c & Hl & Hid).
    destruct (Hkept _ _ Hl) as (c' & Hl' & Hn & _). exists c'. split; [done|congruence].
Qed.

Lemma failed_loop_all_alive nodes :
  ∀ failed_nodes st,
    (∀ node, node ∈ nodes →
       ∃ l, dict_get (connections st) (NodeConfig.id node) = Some l ∧ alive st l = true) →
    failed_loop nodes failed_nodes st = (Val failed_nodes, st).
Proof.
  induction nodes as [|node rest IH]; intros failed_nodes st Halive; simpl; [done|].
  destruct (Halive node) as (l & Hget & Hl); [left|]. rewrite Hget.
  assert (Hsome : is_Some (heap st !! l)).
  { unfold alive in Hl. destruct (heap st !! l); [by eexists|done]. }
  destruct Hsome as [c Hc]. unfold bind. rewrite (is_alive_run l c st Hc), Hl.
  apply IH. intros n Hn. apply Halive. by right.
Qed.

(** X12. When every given node has an object in the pool that is alive,
    [reconnect_failed_nodes] returns the empty dictionary and leaves the
    state as it was: it makes no request and starts no thread pool (so it
    returns even for an empty list, for which [connect_nodes] raises). *)
Theorem reconnect_failed_nodes_all_alive sched nodes st :
  (∀ node, node ∈ nodes →
     ∃ l, dict_get (connections st) (NodeConfig.id node) = Some l ∧ alive st l = true) →
  reconnect_failed_nodes cfg sched nodes st = (Val ∅, st).
Proof.
  intros Halive. unfold reconnect_failed_nodes, bind.
  by rewrite (failed_loop_all_alive nodes [] st Halive).
Qed.

End PoolBatches.

Lemma connect_nodes_flag_per_node_witness :
  let st := initial_state (0 : @Env sample_host) in
  wf st
  ∧ ∃ results st',
      connect_nodes sample_config [1%nat] [node_2; node_5] None st = (Val results, st')
      ∧ dom results = list_to_set (List.map NodeConfig.id [node_2; node_5])
      ∧ wf st'.
Proof.
  intros st. assert (Hwf : wf st) by constructor.
  split; [exact Hwf|].
  destruct (connect_nodes_flag_per_node sample_config [1%nat] [node_2; node_5] None st Hwf)
    as (Hpos & _ & _).
  apply Hpos. reflexivity.
Defined.

Lemma check_connections_agrees_witness :
  let st := connected_state in
  (wf st ∧ NoDup (List.map fst (connections st)))
  ∧ ∃ status connected,
      check_connections st = (Val status, st)
      ∧ get_connected_nodes st = (Val connected, st)
      ∧ dom status = list_to_set (List.map fst (connections st))
      ∧ (∀ k l, (k, l) ∈ connections st → status !! k = Some (alive st l))
      ∧ connected
        = List.filter (fun k => bool_decide (status !! k = Some true))
            (List.map fst (connections st)).
Proof.
  intros st.
  assert (Hwf : wf st).
  { repeat constructor; simpl; eexists; (split; [reflexivity|reflexivity]). }
  assert (Hnd : NoDup (List.map fst (connections st)))
    by (refine (bool_decide_unpack _ _); vm_compute; exact I).
  split; [split; [exact Hwf|exact Hnd]|].
  exact (check_connections_agrees st Hwf Hnd).
Defined.

Lemma cleanup_idle_connections_removes_witness :
  let st := connected_state in
  (wf st ∧ NoDup (List.map fst (connections st)))
  ∧ ∃ st',
      cleanup_idle_connections 3 st = (Val tt, st')
      ∧ connections st' = []
      ∧ cleared st' 0
      ∧ wf st'.
Proof.
  intros st.
  assert (Hwf : wf st).
  { repeat constructor; simpl; eexists; (split; [reflexivity|reflexivity]). }
  assert (Hnd : NoDup (List.map fst (connections st)))
    by (refine (bool_decide_unpack _ _); vm_compute; exact I).
  split; [split; [exact Hwf|exact Hnd]|].
  destruct (cleanup_idle_connections_removes 3 st Hwf Hnd)
    as (st' & Hrun & Hconn & Hcleared & Hwf').
  exists st'. split; [exact Hrun|]. split; [exact Hconn|]. split; [|exact Hwf'].
  apply (Hcleared 2 O); [left|reflexivity].
Defined.

Lemma reconnect_failed_nodes_all_alive_witness :
  (∀ node, node ∈ [node_2] →
     ∃ l, dict_get (connections connected_state) (NodeConfig.id node) = Some l
          ∧ alive connected_state l = true)
  ∧ reconnect_failed_nodes sample_config [] [node_2] connected_state
    = (Val ∅, connected_state).
Proof.
  assert (Halive : ∀ node, node ∈ [node_2] →
            ∃ l, dict_get (connections connected_state) (NodeConfig.id node) = Some l
                 ∧ alive connected_state l = true).
  { intros node ->%list_elem_of_singleton. exists O. split; reflexivity. }
  split; [exact Halive|].
  exact (reconnect_failed_nodes_all_alive sample_config [] [node_2] connected_state Halive).
Defined.

(** ** The requests of an attempt, of a worker and of a task *)

Section AttemptFacts.

Context `{Collaborators}.

Variable cfg : Config.t.

Local Open Scope list_scope.

Lemma handshake_for_node i ev : handshake i ev → for_node i ev.
Proof. by intros [Hi _]. Qed.

Lemma handshake_task_request i task ev : handshake i ev → task_request i task ev.
Proof.
  intros [Hi Hop]. split; [done|]. by destruct (ev.2).
Qed.

Lemma evolves_retrace (T T' : Event → Prop) st st' seg :
  evolves T st st' → trace st' = trace st ++ seg → Forall T' seg → evolves T' st st'.
Proof.
  intros (Hk & Hw & _) Ht Hseg. split; [done|]. split; [done|]. by exists seg.
Qed.

Lemma connect_handshake self c st :
  heap st !! self = Some c →
  wp (handshake (NodeConfig.id (SSHConnection.node c))) (connect self) st
    (fun b st' =>
       if b
       then ∃ h, connected_at st' self (NodeConfig.id (SSHConnection.node c)) h
       else holds st' self (NodeConfig.id (SSHConnection.node c)))
    (fun _ _ => False).
Proof.
  intros Hl. unfold connect.
  apply wp_bind, (wp_load _ _ c); [done|].
  apply wp_try. repeat wp_step.
  apply wp_with_credentials.
  - intros kw. repeat wp_step. simpl.
    destruct (client_connect _ _ _) as [[msg|] e] eqn:Hc; simpl.
    + repeat wp_step. simpl.
      eapply wp_load; [simpl; rewrite !list_lookup_alter_eq, Hl; reflexivity|].
      simpl. repeat wp_step. simpl.
      unfold holds. simpl. rewrite !list_lookup_alter_eq, Hl. simpl.
      eexists. split; [reflexivity|done].
    + repeat wp_step. simpl.
      exists (next_handle st). unfold connected_at. simpl.
      rewrite !list_lookup_alter_eq, Hl. simpl.
      eexists. split; [reflexivity|done].
  - intros e. repeat wp_step. simpl.
    eapply wp_load; [simpl; rewrite !list_lookup_alter_eq, Hl; reflexivity|].
    simpl. repeat wp_step. simpl.
    unfold holds. simpl. rewrite !list_lookup_alter_eq, Hl. simpl.
    eexists. split; [reflexivity|done].
Qed.

Lemma is_alive_connected T l i st (E : Exn → State → Prop) :
  holds st l i →
  wp T (is_alive l) st
    (fun b st' => st' = st ∧ (b = true → ∃ h, connected_at st l i h)) E.
Proof.
  intros (c & Hl & Hid). unfold is_alive. apply wp_bind, (wp_load _ _ c); [done|].
  destruct (SSHConnection.connected c) eqn:Hc, (SSHConnection.client c) as [h|] eqn:Hh;
    try by apply wp_ret.
  unfold wp. destruct (transport_is_active h (env st)) as [[|]|];
    (split; [apply evolves_refl|]); (split; [done|]); try done.
  intros _. by exists h, c.
Qed.

(** [ensure_connection] makes connection requests only; when it returns,
    the node's object is connected; it raises only the cannot-connect
    exception. *)
Lemma ensure_connection_handshake node st :
  wf st →
  wp (handshake (NodeConfig.id node)) (ensure_connection cfg node) st
    (fun l st' => ∃ h, connected_at st' l (NodeConfig.id node) h)
    (fun e _ => e = mkExn Exception (cannot_connect node)).
Proof.
  intros Hwf. unfold ensure_connection.
  apply wp_bind. eapply wp_mono; [| | |exact (get_connection_spec cfg _ node st _ Hwf)];
    [done| |intros e st' _ HE; exact HE].
  intros l st1 _ Hl. simpl.
  apply wp_bind. eapply wp_mono; [| | |exact (is_alive_connected _ l _ st1 _ Hl)];
    [done| |intros e st' _ HE; exact HE].
  intros alive st2 _ [-> Halive]. simpl. destruct alive; [apply wp_ret; auto|].
  destruct Hl as (c & Hl & Hid).
  apply wp_bind. eapply wp_mono; [| | |exact (connect_handshake l c st1 Hl)];
    [by rewrite Hid| |by intros].
  intros ok st3 _ Hok. destruct ok.
  - apply wp_ret. by rewrite <- Hid.
  - by apply wp_raise.
Qed.

(** On a connected object a command makes exactly one request, through the
    object's client, and returns or raises what the client answers; the
    object stays connected when the client answers. *)
Lemma execute_command_connected l i h command timeout st :
  connected_at st l i h →
  wp (for_node i) (execute_command l command timeout) st
    (fun out st' =>
       trace st' = trace st ++ [(i, OpExec h command timeout)]
       ∧ (client_exec_command h command timeout (env st)).1 = inr out
       ∧ connected_at st' l i h)
    (fun e st' =>
       trace st' = trace st ++ [(i, OpExec h command timeout)]
       ∧ ∃ msg, (client_exec_command h command timeout (env st)).1 = inl msg
                ∧ e = lib_error msg).
Proof.
  intros (c & Hl & <- & Hc & Hh). unfold execute_command.
  apply wp_bind, (wp_load _ _ c); [done|]. rewrite Hc, Hh.
  repeat wp_step. simpl.
  destruct (client_exec_command h command timeout (env st)) as [[msg|out] e]; simpl.
  - repeat wp_step. simpl. split; [done|]. by exists msg.
  - repeat wp_step. simpl. split; [done|]. split; [done|].
    unfold connected_at. simpl. rewrite list_lookup_alter_eq, Hl. simpl.
    eexists. split; [reflexivity|done].
Qed.

(** One attempt: it never raises; the fields of its result and the requests
    it made. *)
Lemma execute_task_on_node_full node task st :
  wf st →
  wp (for_node (NodeConfig.id node)) (execute_task_on_node cfg node task) st
    (fun r st' =>
       attempt_fields node task r
       ∧ ∃ seg, trace st' = trace st ++ seg ∧ attempt_outcome node task r seg)
    (fun _ _ => False).
Proof.
  intros Hwf. unfold execute_task_on_node.
  apply wp_bind, wp_now. set (st1 := with_env _ st).
  assert (Hwf1 : wf st1) by exact Hwf.
  set (result := TaskResult.new node (Task.task_type task) (Task.command task)).
  apply wp_bind.
  eapply (wp_mono _ _ _ st1
            (fun r st' =>
               attempt_fields node task r
               ∧ ∃ seg, trace st' = trace st ++ seg ∧ attempt_outcome node task r seg)
            _ (fun _ _ => False)); [done| |done|].
  { intros r st2 _ [Hfields Hseg]. repeat wp_step. simpl. split; [|exact Hseg].
    destruct Hfields as (? & ? & ? & ? & ? & ? & ?). by repeat split. }
  apply wp_try. apply wp_bind.
  eapply wp_mono; [| | |exact (ensure_connection_handshake node st1 Hwf1)];
    [apply handshake_for_node| |].
  - intros l st2 (_ & _ & hs & Hhs & Hall) [h Hl]. simpl in Hhs.
    destruct (task_command task) as [e|command] eqn:Hcmd.
    + apply wp_raise. apply wp_ret. split; [by repeat split|].
      exists hs. split; [done|]. exists hs. split; [done|].
      right. left. by exists e.
    + apply wp_bind.
      eapply wp_mono;
        [| | |exact (execute_command_connected l _ h command (Task.timeout task) st2 Hl)];
        [done| |].
      * intros [[code out] err] st3 _ (Htr & Hans & _). apply wp_ret.
        split; [by repeat split|].
        eexists. split; [by rewrite Htr, Hhs, <- app_assoc|].
        exists hs. split; [done|]. right. right.
        exists h, command, (env st2). split; [done|]. split; [done|].
        by rewrite Hans.
      * intros e st3 _ (Htr & msg & Hans & ->). apply wp_ret.
        split; [by repeat split|].
        eexists. split; [by rewrite Htr, Hhs, <- app_assoc|].
        exists hs. split; [done|]. right. right.
        exists h, command, (env st2). split; [done|]. split; [done|].
        by rewrite Hans.
  - intros e st2 (_ & _ & hs & Hhs & Hall) ->. simpl in Hhs.
    apply wp_ret. split; [by repeat split|].
    exists hs. split; [done|]. exists hs. split; [done|]. by left.
Qed.

(** X13. One attempt of a task on a node, on a pool that satisfies its
    invariant, never raises. Its result carries the node's id, name and
    address, the task's type and the task's own command text (for an image
    task the image or path, not the docker command line), and retry count
    0. It is successful exactly when its exit code is 0; when it has an exit
    code its error message is empty; when it has none, both outputs are
    empty. *)
Theorem attempt_result_fields node task st :
  wf st →
  ∃ r st',
    execute_task_on_node cfg node task st = (Val r, st')
    ∧ TaskResult.node_id r = NodeConfig.id node
    ∧ TaskResult.node_name r = NodeConfig.name node
    ∧ TaskResult.node_ip r = NodeConfig.ip node
    ∧ TaskResult.task_type r = Task.task_type task
    ∧ TaskResult.command r = Task.command task
    ∧ TaskResult.retry_count r = 0
    ∧ (TaskResult.success r = true ↔ TaskResult.exit_code r = Some 0)
    ∧ (is_Some (TaskResult.exit_code r) → TaskResult.error_message r = "")
    ∧ (TaskResult.exit_code r = None →
       TaskResult.stdout r = "" ∧ TaskResult.stderr r = "").
Proof.
  intros Hwf.
  destruct (wp_returns _ _ _ _ (execute_task_on_node_full node task st Hwf))
    as (r & st' & Hrun & _ & Hfields & _).
  destruct Hfields as (Hid & Hname & Hip & Htype & Hcmd & Hrc & Hexit).
  exists r, st'. do 7 (split; [done|]).
  destruct (TaskResult.exit_code r) as [code|].
  - destruct Hexit as [Hs Hmsg]. split; [|split; [done|done]].
    rewrite Hs. split.
    + intros Hz%Z.eqb_eq. by subst code.
    + intros [= ->]. done.
  - destruct Hexit as (Hs & Hout & Herr). split; [|split; [by intros [? [=]]|done]].
    rewrite Hs. split; done.
Qed.

(** X14. The requests of one attempt are connection requests for the
    node, followed by nothing when the node cannot be connected (the error
    message then says so) or when the task type has no command, and
    otherwise by exactly one command request, carrying the command of the
    task type and the task's time limit; the result reports what the client
    answered to that request. For the two file transfer types no command is
    ever requested, although the node is connected first, and the attempt
    fails. *)
Theorem attempt_requests node task st :
  wf st →
  ∃ r st' seg,
    execute_task_on_node cfg node task st = (Val r, st')
    ∧ trace st' = trace st ++ seg
    ∧ attempt_outcome node task r seg
    ∧ (Task.task_type task = FILE_UPLOAD ∨ Task.task_type task = FILE_DOWNLOAD →
       Forall (handshake (NodeConfig.id node)) seg ∧ TaskResult.success r = false).
Proof.
  intros Hwf.
  destruct (wp_returns _ _ _ _ (execute_task_on_node_full node task st Hwf))
    as (r & st' & Hrun & _ & Hfields & seg & Htr & Hout).
  exists r, st', seg. do 3 (split; [done|]). intros Htype.
  assert (Hcmd : ∃ e, task_command task = inl e).
  { unfold task_command. destruct Htype as [-> | ->]; eauto. }
  destruct Hcmd as [e Hcmd].
  destruct Hfields as (_ & _ & _ & _ & _ & _ & Hexit).
  destruct Hout as (hs & Hhs & [(-> & Hnone & _)|[(e' & _ & -> & Hnone & _)|Hrun']]).
  - rewrite Hnone in Hexit. by destruct Hexit.
  - rewrite Hnone in Hexit. by destruct Hexit.
  - destruct Hrun' as (h & command & e0 & Hcmd' & _). congruence.
Qed.

Lemma attempt_outcome_requests node task r seg :
  attempt_outcome node task r seg → Forall (task_request (NodeConfig.id node) task) seg.
Proof.
  intros (hs & Hhs & Hcase).
  assert (Hhs' : Forall (task_request (NodeConfig.id node) task) hs).
  { eapply Forall_impl; [exact Hhs|]. intros ev. apply handshake_task_request. }
  destruct Hcase as [(-> & _)|[(e & _ & -> & _)|(h & command & e0 & Hcmd & -> & _)]];
    [done|done|].
  apply Forall_app. split; [done|]. constructor; [|constructor]. by split.
Qed.

Lemma execute_task_on_node_requests node task st :
  wf st →
  wp (task_request (NodeConfig.id node) task) (execute_task_on_node cfg node task) st
    (fun _ _ => True) (fun _ _ => False).
Proof.
  intros Hwf. pose proof (execute_task_on_node_full node task st Hwf) as Hfull.
  unfold wp in *.
  destruct (execute_task_on_node cfg node task st) as [[r|e|] st'];
    [|by destruct Hfull|done].
  destruct Hfull as [Hev [_ (seg & Htr & Hout)]]. split; [|done].
  eapply evolves_retrace; [exact Hev|exact Htr|]. by eapply attempt_outcome_requests.
Qed.

Lemma retry_loop_requests node task n :
  ∀ attempt last_result st,
    wf st →
    wp (task_request (NodeConfig.id node) task)
      (retry_loop cfg node task n attempt last_result) st
      (fun _ _ => True) (fun _ _ => True).
Proof.
  induction n as [|n IH]; intros attempt last_result st Hwf; simpl.
  - by apply wp_ret.
  - apply wp_bind_ev.
    eapply wp_mono; [| | |exact (execute_task_on_node_requests node task st Hwf)];
      [done| |by intros].
    intros r st1 _ _ Hev1. pose proof (wf_evolves _ _ _ Hev1 Hwf) as Hwf1.
    destruct (TaskResult.success _); [by apply wp_ret|].
    apply wp_bind_ev. destruct (attempt <? Task.retry_count task).
    + apply wp_sleep; [by split|done|].
      intros e' Hev2. apply IH. exact (wf_evolves _ _ _ Hev2 Hwf1).
    + apply wp_ret. intros _. by apply IH.
Qed.

(** The collecting loop never raises; its requests are those of the workers
    of the completed futures. *)
Lemma collect_results_requests task completed :
  ∀ results st,
    wf st →
    wp (targeted completed task) (collect_results cfg task completed results) st
      (fun _ st' => wf st') (fun _ _ => False).
Proof.
  induction completed as [|node rest IH]; intros results st Hwf.
  - by apply wp_ret.
  - pose proof (retry_loop_requests node task
                  (Z.to_nat (Task.retry_count task + 1)) 0 None st Hwf) as Hworker.
    change (retry_loop cfg node task _ 0 None)
      with (execute_task_with_retry cfg node task) in Hworker.
    assert (Hnode : ∀ st1, evolves (task_request (NodeConfig.id node) task) st st1 →
              ∀ rs, match collect_results cfg task rest rs st1 with
                    | (Val _, st') => evolves (targeted (node :: rest) task) st st' ∧ wf st'
                    | (Raise _, st') => evolves (targeted (node :: rest) task) st st' ∧ False
                    | (Fault, _) => False
                    end).
    { intros st1 Hev rs. pose proof (IH rs st1 (wf_evolves _ _ _ Hev Hwf)) as Hrest.
      unfold wp in Hrest.
      destruct (collect_results cfg task rest rs st1) as [[a|e|] st2]; [| |done].
      - destruct Hrest as [Hev' Hwf']. split; [|done].
        eapply evolves_trans; eapply evolves_weaken; [|exact Hev| |exact Hev'].
        + intros ev Hev0. exists node. split; [left|done].
        + intros ev (n & Hn & Hev0). exists n. split; [by right|done].
      - by destruct Hrest. }
    unfold wp in Hworker |- *. simpl.
    destruct (execute_task_with_retry cfg node task st) as [[[r|]|e|] st1]; [| | |done];
      destruct Hworker as [Hev _]; apply (Hnode st1 Hev).
Qed.

(** [execute_task] keeps the invariant of the pool, whether it returns or
    raises, and its requests are those of the workers of the target
    nodes. *)
Lemma execute_task_evolves sched task st :
  wf st →
  wp (targeted (target_nodes cfg (Task.node_ids task)) task) (execute_task cfg sched task) st
    (fun _ st' => wf st') (fun _ st' => wf st').
Proof.
  intros Hwf. unfold execute_task.
  generalize (target_nodes cfg (Task.node_ids task)). intros nodes.
  pose proof (collect_results_requests task (as_completed sched nodes) [] st Hwf)
    as Hcollect.
  destruct nodes as [|node rest]; [by apply wp_ret|].
  destruct (_ <=? 0); [by apply wp_raise|].
  apply wp_bind. eapply wp_mono; [| | |exact Hcollect]; [| |done].
  - intros ev (n & Hn & Hev). exists n. split; [|done].
    by rewrite <- (as_completed_Permutation sched (node :: rest)).
  - intros results st' _ Hwf'.
    destruct (all_results results); [by apply wp_ret|by apply wp_raise].
Qed.

Lemma execute_task_trace sched task st :
  wf st →
  ∃ res st' seg,
    execute_task cfg sched task st = (res, st')
    ∧ res ≠ Fault
    ∧ wf st'
    ∧ trace st' = trace st ++ seg
    ∧ Forall (targeted (target_nodes cfg (Task.node_ids task)) task) seg.
Proof.
  intros Hwf. pose proof (execute_task_evolves sched task st Hwf) as Hev.
  unfold wp in Hev.
  destruct (execute_task cfg sched task st) as [[rs|e|] st'] eqn:Hrun; [| |done];
    destruct Hev as [(_ & _ & seg & Htr & Hseg) Hwf'];
    eexists _, st', seg; (split; [reflexivity|]); by repeat split.
Qed.

(** X15. Whatever the settings, the hosts and the completion order,
    [execute_task] on a pool that satisfies its invariant returns or raises
    with the invariant kept, and every request it makes is made on behalf of
    one of the target nodes; a command request carries the command of the
    task type and the task's time limit, and a pause lasts the task's
    retry delay. *)
Theorem execute_task_requests sched task st :
  wf st →
  ∃ res st' seg,
    execute_task cfg sched task st = (res, st')
    ∧ res ≠ Fault
    ∧ wf st'
    ∧ trace st' = trace st ++ seg
    ∧ ∀ i op, (i, op) ∈ seg →
        (∃ node, node ∈ target_nodes cfg (Task.node_ids task) ∧ NodeConfig.id node = i)
        ∧ match op with
          | OpExec _ command timeout =>
              task_command task = inr command ∧ timeout = Task.timeout task
          | OpSleep seconds => seconds = Task.retry_delay task
          | _ => True
          end.
Proof.
  intros Hwf.
  destruct (execute_task_trace sched task st Hwf)
    as (res & st' & seg & Hrun & Hres & Hwf' & Htr & Hseg).
  exists res, st', seg. do 4 (split; [done|]).
  intros i op Hin. rewrite Forall_forall in Hseg.
  destruct (Hseg _ Hin) as (node & Hnode & Hid & Hop). simpl in Hid, Hop.
  split; [by exists node|done].
Qed.

Lemma execute_task_commands sched task command st :
  wf st →
  task_command task = inr command →
  (execute_task cfg sched task st).1 ≠ Fault
  ∧ ∃ seg,
      trace (execute_task cfg sched task st).2 = trace st ++ seg
      ∧ ∀ i h c t, (i, OpExec h c t) ∈ seg → c = command ∧ t = Task.timeout task.
Proof.
  intros Hwf Hcmd.
  destruct (execute_task_trace sched task st Hwf)
    as (res & st' & seg & Hrun & Hres & _ & Htr & Hseg).
  rewrite Hrun. simpl. split; [done|]. exists seg. split; [done|].
  intros i h c t Hin. rewrite Forall_forall in Hseg.
  destruct (Hseg _ Hin) as (node & _ & _ & Hc & Ht). simpl in Hc, Ht.
  split; [congruence|done].
Qed.

(** X16. The three image operations run, on every node they reach and in
    every attempt, one command line only: [docker pull] or [docker push]
    followed by the image name, and [docker build -t] followed by the given
    tag and the path; each with the caller's time limit. *)
Theorem image_commands sched image dockerfile_path tag node_ids timeout st :
  wf st →
  let only (command : string) (run : Result (list TaskResult.t) * State) :=
    run.1 ≠ Fault
    ∧ ∃ seg, trace run.2 = trace st ++ seg
             ∧ ∀ i h c t, (i, OpExec h c t) ∈ seg → c = command ∧ t = timeout in
  only ("docker pull " ++ image)%string (docker_pull cfg sched image node_ids timeout st)
  ∧ only ("docker build -t " ++ tag ++ " " ++ dockerfile_path)%string
      (docker_build cfg sched dockerfile_path tag node_ids timeout st)
  ∧ only ("docker push " ++ image)%string (docker_push cfg sched image node_ids timeout st).
Proof.
  intros Hwf only. split; [|split].
  - by apply execute_task_commands.
  - apply execute_task_commands; [done|]. unfold task_command. simpl.
    by rewrite lookup_singleton_eq.
  - by apply execute_task_commands.
Qed.

(** X17. The two single-command script variants: the url variant runs, on
    every node and in every attempt, the one command that downloads the
    script to [/tmp], makes it executable, runs it with [bash] whatever its
    extension or first line, and removes it; the inline variant, once the
    local file has been read, runs the command built from the file's text
    and the arguments. Neither makes any other command request. *)
Theorem script_commands sched script_url script_path text node_ids args timeout st :
  wf st →
  let only (command : string) (run : Result (list TaskResult.t) * State) :=
    run.1 ≠ Fault
    ∧ ∃ seg, trace run.2 = trace st ++ seg
             ∧ ∀ i h c t, (i, OpExec h c t) ∈ seg → c = command ∧ t = timeout in
  only (url_command script_url args)
    (execute_script_from_url cfg sched script_url node_ids args timeout st)
  ∧ (read_script script_path st = (Val text, st) →
     only (inline_command text args)
       (execute_local_script_remotely cfg sched script_path node_ids args timeout st)).
Proof.
  intros Hwf only. split.
  - by apply execute_task_commands.
  - intros Hread. unfold execute_local_script_remotely, bind. rewrite Hread.
    by apply execute_task_commands.
Qed.

(** The staged worker: it never raises; the fields of its result and the
    requests it made. *)
Lemma _execute_script_on_node_full node script_content remote_script_path args timeout st :
  wf st →
  wp (for_node (NodeConfig.id node))
    (_execute_script_on_node cfg node script_content remote_script_path args timeout) st
    (fun r st' =>
       staged_fields node remote_script_path args r
       ∧ ∃ seg, trace st' = trace st ++ seg
                ∧ staged_outcome node script_content remote_script_path args timeout r seg)
    (fun _ _ => False).
Proof.
  intros Hwf. unfold _execute_script_on_node.
  apply wp_bind, wp_now. set (st1 := with_env _ st).
  assert (Hwf1 : wf st1) by exact Hwf.
  set (result := TaskResult.new node SHELL_COMMAND _).
  set (steps := staged_steps script_content remote_script_path args timeout).
  set (req := fun (h : nat) (ct : string * Z) => (NodeConfig.id node, OpExec h ct.1 ct.2)).
  set (Q0 := fun (r : TaskResult.t) (st' : State) =>
       staged_fields node remote_script_path args r
       ∧ ∃ seg, trace st' = trace st ++ seg
                ∧ staged_outcome node script_content remote_script_path args timeout r seg).
  apply wp_bind.
  eapply (wp_mono _ _ _ st1 Q0 _ (fun _ _ => False)); [done| |done|].
  { intros r st2 _ [Hfields Hseg]. apply wp_bind, wp_now. apply wp_ret.
    split; [exact Hfields|exact Hseg]. }
  assert (Hfail : ∀ e st' hs h k,
            Forall (handshake (NodeConfig.id node)) hs →
            trace st' = trace st ++ hs ++ List.map (req h) (take k steps) →
            (k ≤ 3)%nat →
            (k = O → exn_str e = cannot_connect node) →
            Q0 (TaskResult.set_error_message (exn_str e) result) st').
  { intros e st' hs h k Hhs Htr Hk H0. split; [by repeat split|].
    eexists. split; [exact Htr|]. exists hs, h, k. split; [done|]. split; [done|].
    split; [lia|]. split; [|exact H0].
    split; [by intros [? [=]]|lia]. }
  apply wp_try. apply wp_bind.
  eapply wp_mono; [| | |exact (ensure_connection_handshake node st1 Hwf1)];
    [apply handshake_for_node| |].
  2:{ intros e st2 (_ & _ & hs & Hhs & Hall) ->. simpl in Hhs. apply wp_ret.
      apply (Hfail _ _ hs O O); [done|by rewrite Hhs, app_nil_r|lia|done]. }
  intros l st2 (_ & _ & hs & Hhs & Hall) [h Hl]. simpl in Hhs.
  apply wp_bind.
  eapply wp_mono; [| | |exact (execute_command_connected l _ h _ 30 st2 Hl)]; [done| |].
  2:{ intros e st3 _ (Htr & _). apply wp_ret.
      apply (Hfail _ _ hs h 1%nat); [done| |lia|done].
      by rewrite Htr, Hhs, <- app_assoc. }
  intros [[code out] err] st3 _ (Htr3 & _ & Hl3).
  destruct (negb (code =? 0)).
  { apply wp_raise, wp_ret. apply (Hfail _ _ hs h 1%nat); [done| |lia|done].
    by rewrite Htr3, Hhs, <- app_assoc. }
  apply wp_bind.
  eapply wp_mono; [| | |exact (execute_command_connected l _ h _ 10 st3 Hl3)]; [done| |].
  2:{ intros e st4 _ (Htr & _). apply wp_ret.
      apply (Hfail _ _ hs h 2%nat); [done| |lia|done].
      by rewrite Htr, Htr3, Hhs, <- !app_assoc. }
  intros [[code' out'] err'] st4 _ (Htr4 & _ & Hl4).
  destruct (negb (code' =? 0)).
  { apply wp_raise, wp_ret. apply (Hfail _ _ hs h 2%nat); [done| |lia|done].
    by rewrite Htr4, Htr3, Hhs, <- !app_assoc. }
  apply wp_bind.
  eapply wp_mono; [| | |exact (execute_command_connected l _ h _ timeout st4 Hl4)];
    [done| |].
  2:{ intros e st5 _ (Htr & _). apply wp_ret.
      apply (Hfail _ _ hs h 3%nat); [done| |lia|done].
      by rewrite Htr, Htr4, Htr3, Hhs, <- !app_assoc. }
  intros [[code'' out''] err''] st5 _ (Htr5 & _ & Hl5).
  assert (Hdone : ∀ r st6,
            staged_fields node remote_script_path args r →
            is_Some (TaskResult.exit_code r) →
            trace st6
            = trace st5 ++ [(NodeConfig.id node, OpExec h ("rm -f " ++ remote_script_path) 10)] →
            Q0 r st6).
  { intros r st6 Hfields Hcode Htr6. split; [done|].
    eexists. split; [|exists hs, h, 4%nat; split; [done|]; split; [reflexivity|]].
    - by rewrite Htr6, Htr5, Htr4, Htr3, Hhs, <- !app_assoc.
    - split; [lia|]. split; [done|]. intros [=]. }
  apply wp_try, wp_bind.
  eapply wp_mono; [| | |exact (execute_command_connected l _ h _ 10 st5 Hl5)]; [done| |].
  - intros ? st6 _ (Htr6 & _). apply wp_ret.
    apply Hdone; [by repeat split|by eexists|done].
  - intros e st6 _ (Htr6 & _). apply wp_ret.
    apply Hdone; [by repeat split|by eexists|done].
Qed.

(** X18. The staged worker never raises. Its requests are connection
    requests for the node followed by the first [k] of the four steps
    (create the file, make it executable, run it, remove it), each with its
    own time limit and all through one client handle. No step is requested
    when the node cannot be connected; a step is requested only after the
    one before was answered, so the file is removed only when the run step
    was answered, and the result has an exit code exactly then. The result
    is successful exactly when that exit code is 0. *)
Theorem staged_worker_steps node script_content remote_script_path args timeout st :
  wf st →
  ∃ r st' seg,
    _execute_script_on_node cfg node script_content remote_script_path args timeout st
    = (Val r, st')
    ∧ trace st' = trace st ++ seg
    ∧ staged_outcome node script_content remote_script_path args timeout r seg
    ∧ TaskResult.node_id r = NodeConfig.id node
    ∧ TaskResult.command r = ("执行脚本: " ++ remote_script_path ++ " " ++ args)%string
    ∧ (TaskResult.success r = true ↔ TaskResult.exit_code r = Some 0).
Proof.
  intros Hwf.
  destruct (wp_returns _ _ _ _
              (_execute_script_on_node_full node script_content remote_script_path
                 args timeout st Hwf))
    as (r & st' & Hrun & _ & Hfields & seg & Htr & Hout).
  exists r, st', seg. do 3 (split; [done|]).
  destruct Hfields as (Hid & _ & _ & _ & Hcmd & _ & Hexit).
  split; [done|]. split; [done|].
  destruct (TaskResult.exit_code r) as [code|].
  - rewrite Hexit. split.
    + intros Hz%Z.eqb_eq. by subst code.
    + intros [= ->]. done.
  - destruct Hexit as (Hs & _). rewrite Hs. split; done.
Qed.

End AttemptFacts.

(** ** Targets *)

Section FrontEnd.

Context `{Collaborators}.

Variable cfg : Config.t.

Local Open Scope list_scope.

Lemma filter_nil_iff {A} (f : A → bool) (l : list A) :
  List.filter f l = [] ↔ ∀ x, x ∈ l → f x = false.
Proof.
  induction l as [|a l IH]; simpl.
  - split; [by intros _ x ?%elem_of_nil|done].
  - destruct (f a) eqn:Hfa.
    + split; [done|]. intros Hall. specialize (Hall a ltac:(left)). congruence.
    + rewrite IH. split.
      * intros Hall x [->|Hx]%elem_of_cons; auto.
      * intros Hall x Hx. apply Hall. by right.
Qed.

Lemma get_node_by_id_None node_id :
  ConfigManager.get_node_by_id cfg node_id = None
  ↔ node_id ∉ List.map NodeConfig.id (Config.nodes cfg).
Proof.
  unfold ConfigManager.get_node_by_id, ConfigManager.get_nodes.
  rewrite find_None_iff. split.
  - intros Hall Hin. apply list_elem_of_In, in_map_iff in Hin as (n & Hid & Hn).
    specialize (Hall n (proj2 (list_elem_of_In _ _) Hn)). simpl in Hall.
    by apply Z.eqb_neq in Hall.
  - intros Hnot n Hn. apply Z.eqb_neq. intros Hid. apply Hnot.
    apply list_elem_of_In, in_map_iff. exists n. split; [done|].
    by apply list_elem_of_In.
Qed.

Lemma get_nodes_by_ids_nil node_ids :
  ConfigManager.get_nodes_by_ids cfg node_ids = []
  ↔ ∀ i, i ∈ node_ids → i ∉ List.map NodeConfig.id (Config.nodes cfg).
Proof.
  induction node_ids as [|i ids IH]; simpl.
  - split; [by intros _ i ?%elem_of_nil|done].
  - destruct (ConfigManager.get_node_by_id cfg i) as [n|] eqn:Hget.
    + split; [done|]. intros Hall. exfalso.
      assert (Hnone : ConfigManager.get_node_by_id cfg i = None).
      { apply get_node_by_id_None, Hall. left. }
      congruence.
    + rewrite IH. apply get_node_by_id_None in Hget. split.
      * intros Hall j [->|Hj]%elem_of_cons; auto.
      * intros Hall j Hj. apply Hall. by right.
Qed.

(** X19. A task has no target exactly when its id list is empty and no
    configured node is enabled, or its id list is not empty and none of its
    ids is the id of a configured node. [execute_task] then returns the
    empty list at once: it makes no request, changes nothing and never looks
    at the concurrency ceiling or at the retry settings. *)
Theorem execute_task_without_target sched task st :
  (target_nodes cfg (Task.node_ids task) = []
   ↔ (Task.node_ids task = []
      ∧ ∀ n, n ∈ Config.nodes cfg → NodeConfig.enabled n = false)
     ∨ (Task.node_ids task ≠ []
        ∧ ∀ i, i ∈ Task.node_ids task → i ∉ List.map NodeConfig.id (Config.nodes cfg)))
  ∧ (target_nodes cfg (Task.node_ids task) = [] →
     execute_task cfg sched task st = (Val [], st)).
Proof.
  split.
  - unfold target_nodes. destruct (Task.node_ids task) as [|i ids] eqn:Hids.
    + unfold ConfigManager.get_nodes. rewrite filter_nil_iff. split.
      * intros Hall. by left.
      * intros [[_ Hall]|[Hne _]]; done.
    + rewrite get_nodes_by_ids_nil. split.
      * intros Hall. by right.
      * intros [[Hnil _]|[_ Hall]]; done.
  - intros Hnone. unfold execute_task. by rewrite Hnone.
Qed.

(** X20. An empty id list does not mean the same to the two families of
    entry points. The single-command ones ([execute_shell_command],
    [execute_local_script_remotely]) treat it as no selection at all: the
    command, or the script, goes to every enabled node. The staged ones
    ([execute_script_content], [upload_and_execute_script]) take it
    literally: they run the script on no node, return the empty list, make
    no request and change nothing. Without an id list both families target
    the enabled nodes. *)
Theorem empty_id_list_targets sched command script_content script_path script_name
    remote_path args timeout st :
  (target_nodes cfg (default [] (Some [])) = ConfigManager.get_nodes cfg true
   ∧ target_nodes cfg (default [] None) = ConfigManager.get_nodes cfg true
   ∧ staged_nodes cfg None = ConfigManager.get_nodes cfg true
   ∧ staged_nodes cfg (Some []) = [])
  ∧ execute_shell_command cfg sched command (Some []) timeout st
    = execute_shell_command cfg sched command None timeout st
  ∧ execute_local_script_remotely cfg sched script_path (Some []) args timeout st
    = execute_local_script_remotely cfg sched script_path None args timeout st
  ∧ execute_script_content cfg script_content (Some []) args timeout script_name st
    = (Val [], st)
  ∧ ∀ text, read_script script_path st = (Val text, st) →
      upload_and_execute_script cfg script_path (Some []) args timeout remote_path st
      = (Val [], st).
Proof.
  split; [by repeat split|]. split; [done|]. split; [done|]. split; [done|].
  intros text Hread. unfold upload_and_execute_script, bind. by rewrite Hread.
Qed.

Lemma connect_node_handshake node st :
  wf st →
  wp (handshake (NodeConfig.id node)) (connect_node cfg node) st
    (fun _ _ => True) (fun _ _ => False).
Proof.
  intros Hwf. unfold connect_node. apply wp_bind.
  eapply wp_mono; [| | |exact (get_connection_spec cfg _ node st (fun _ _ => False) Hwf)];
    [done| |done].
  intros l st1 _ (c & Hl & Hid).
  eapply wp_mono; [| | |exact (connect_handshake l c st1 Hl)]; [by rewrite Hid|done|done].
Qed.

Lemma collect_connects_handshake completed :
  ∀ (results : gmap Z bool) st,
    wf st →
    wp (fun ev => ∃ node, node ∈ completed ∧ handshake (NodeConfig.id node) ev)
      (collect_connects cfg completed results) st
      (fun _ st' => wf st') (fun _ _ => False).
Proof.
  induction completed as [|node rest IH]; intros results st Hwf.
  - by apply wp_ret.
  - pose proof (connect_node_handshake node st Hwf) as Hworker.
    assert (Hnode : ∀ st1, evolves (handshake (NodeConfig.id node)) st st1 →
              ∀ rs, match collect_connects cfg rest rs st1 with
                    | (Val _, st') =>
                        evolves (fun ev => ∃ n, n ∈ node :: rest
                                                ∧ handshake (NodeConfig.id n) ev) st st'
                        ∧ wf st'
                    | (Raise _, st') =>
                        evolves (fun ev => ∃ n, n ∈ node :: rest
                                                ∧ handshake (NodeConfig.id n) ev) st st'
                        ∧ False
                    | (Fault, _) => False
                    end).
    { intros st1 Hev rs. pose proof (IH rs st1 (wf_evolves _ _ _ Hev Hwf)) as Hrest.
      unfold wp in Hrest.
      destruct (collect_connects cfg rest rs st1) as [[a|e|] st2]; [| |done].
      - destruct Hrest as [Hev' Hwf']. split; [|done].
        eapply evolves_trans; eapply evolves_weaken; [|exact Hev| |exact Hev'].
        + intros ev Hev0. exists node. split; [left|done].
        + intros ev (n & Hn & Hev0). exists n. split; [by right|done].
      - by destruct Hrest. }
    unfold wp in Hworker |- *. simpl.
    destruct (connect_node cfg node st) as [[b|e|] st1]; [| |done];
      destruct Hworker as [Hev _]; apply (Hnode st1 Hev).
Qed.

(** X22. [connect_nodes] on a pool that satisfies its invariant returns
    or raises with the invariant kept, and makes connection requests only
    (a client is created, connected or closed; no command is run and no
    pause is made), each on behalf of one of the given nodes. *)
Theorem connect_nodes_requests sched nodes max_workers st :
  wf st →
  ∃ res st' seg,
    connect_nodes cfg sched nodes max_workers st = (res, st')
    ∧ res ≠ Fault
    ∧ wf st'
    ∧ trace st' = trace st ++ seg
    ∧ ∀ i op, (i, op) ∈ seg →
        (∃ node, node ∈ nodes ∧ NodeConfig.id node = i)
        ∧ match op with
          | OpNewClient _ | OpConnect _ _ | OpClose _ => True
          | _ => False
          end.
Proof.
  intros Hwf. unfold connect_nodes.
  destruct (_ <=? 0).
  { exists (Raise (mkExn ValueError "max_workers must be greater than 0")), st, [].
    rewrite app_nil_r. do 4 (split; [done|]). by intros i op ?%elem_of_nil. }
  pose proof (collect_connects_handshake (as_completed sched nodes) ∅ st Hwf) as Hrun.
  unfold wp in Hrun.
  destruct (collect_connects cfg (as_completed sched nodes) ∅ st) as [[rs|e|] st'];
    [|by destruct Hrun|done].
  destruct Hrun as [(_ & _ & seg & Htr & Hseg) Hwf'].
  exists (Val rs), st', seg. do 4 (split; [done|]).
  intros i op Hin. rewrite Forall_forall in Hseg.
  destruct (Hseg _ Hin) as (node & Hnode & Hid & Hop). simpl in Hid, Hop.
  split; [|done]. exists node. split; [|done].
  by rewrite <- (as_completed_Permutation sched nodes).
Qed.

End FrontEnd.

Lemma attempt_result_fields_witness :
  let st := initial_state (0 : @Env sample_host) in
  let task := echo_task [2] 3 5 in
  wf st
  ∧ ∃ r st',
      execute_task_on_node sample_config node_2 task st = (Val r, st')
      ∧ TaskResult.node_id r = 2
      ∧ TaskResult.command r = "echo hi"
      ∧ TaskResult.retry_count r = 0
      ∧ (TaskResult.success r = true ↔ TaskResult.exit_code r = Some 0).
Proof.
  intros st task. assert (Hwf : wf st) by constructor.
  split; [exact Hwf|].
  destruct (attempt_result_fields sample_config node_2 task st Hwf)
    as (r & st' & Hrun & Hid & _ & _ & _ & Hcmd & Hrc & Hok & _).
  exists r, st'. split; [exact Hrun|]. split; [exact Hid|]. split; [exact Hcmd|].
  split; [exact Hrc|exact Hok].
Defined.

Lemma attempt_requests_witness :
  let st := initial_state (0 : @Env sample_host) in
  let task := Task.mk FILE_UPLOAD "notes.txt" [2] 300 3 5 None in
  wf st
  ∧ ∃ r st' seg,
      execute_task_on_node sample_config node_2 task st = (Val r, st')
      ∧ trace st' = (trace st ++ seg)%list
      ∧ Forall (handshake 2) seg
      ∧ TaskResult.success r = false.
Proof.
  intros st task. assert (Hwf : wf st) by constructor.
  split; [exact Hwf|].
  destruct (attempt_requests sample_config node_2 task st Hwf)
    as (r & st' & seg & Hrun & Htr & _ & Hfile).
  destruct (Hfile (or_introl eq_refl)) as [Hseg Hfail].
  exists r, st', seg. split; [exact Hrun|]. split; [exact Htr|].
  split; [exact Hseg|exact Hfail].
Defined.

Lemma execute_task_requests_witness :
  let st := initial_state (0 : @Env sample_host) in
  let task := echo_task [2; 5] 3 5 in
  wf st
  ∧ ∃ res st' seg,
      execute_task sample_config [1%nat] task st = (res, st')
      ∧ res ≠ Fault
      ∧ wf st'
      ∧ trace st' = (trace st ++ seg)%list
      ∧ ∀ i op, (i, op) ∈ seg →
          (∃ node, node ∈ target_nodes sample_config (Task.node_ids task)
                   ∧ NodeConfig.id node = i)
          ∧ match op with
            | OpExec _ command timeout =>
                task_command task = inr command ∧ timeout = Task.timeout task
            | OpSleep seconds => seconds = Task.retry_delay task
            | _ => True
            end.
Proof.
  intros st task. assert (Hwf : wf st) by constructor.
  split; [exact Hwf|].
  exact (execute_task_requests sample_config [1%nat] task st Hwf).
Defined.

Lemma image_commands_witness :
  let st := initial_state (0 : @Env sample_host) in
  wf st
  ∧ (docker_build sample_config [] "./app" "app:1.0" (Some [2]) 1800 st).1 ≠ Fault
  ∧ ∃ seg,
      trace (docker_build sample_config [] "./app" "app:1.0" (Some [2]) 1800 st).2
      = (trace st ++ seg)%list
      ∧ ∀ i h c t, (i, OpExec h c t) ∈ seg → c = "docker build -t app:1.0 ./app" ∧ t = 1800.
Proof.
  intros st. assert (Hwf : wf st) by constructor.
  split; [exact Hwf|].
  destruct (image_commands sample_config [] "nginx" "./app" "app:1.0" (Some [2]) 1800 st Hwf)
    as (_ & Hbuild & _).
  exact Hbuild.
Defined.

Lemma script_commands_witness :
  let st := initial_state (0 : @Env sample_host) in
  let run :=
    execute_local_script_remotely sample_config [] "deploy.sh" (Some [2]) "a b" 600 st in
  (wf st ∧ read_script "deploy.sh" st = (Val ("  echo $1 $2" ++ nl), st))
  ∧ run.1 ≠ Fault
  ∧ ∃ seg,
      trace run.2 = (trace st ++ seg)%list
      ∧ ∀ i h c t, (i, OpExec h c t) ∈ seg →
          c = inline_command ("  echo $1 $2" ++ nl) "a b" ∧ t = 600.
Proof.
  intros st run. assert (Hwf : wf st) by constructor.
  split; [split; [exact Hwf|reflexivity]|].
  destruct (script_commands sample_config [] "http://host/x.sh" "deploy.sh"
              ("  echo $1 $2" ++ nl) (Some [2]) "a b" 600 st Hwf) as (_ & Hinline).
  exact (Hinline eq_refl).
Defined.

Lemma staged_worker_steps_witness :
  let st := initial_state (0 : @Env sample_host) in
  wf st
  ∧ ∃ r st' seg,
      _execute_script_on_node sample_config node_2 "echo ok" "/tmp/job.sh" "" 600 st
      = (Val r, st')
      ∧ trace st' = (trace st ++ seg)%list
      ∧ staged_outcome node_2 "echo ok" "/tmp/job.sh" "" 600 r seg
      ∧ (TaskResult.success r = true ↔ TaskResult.exit_code r = Some 0).
Proof.
  intros st. assert (Hwf : wf st) by constructor.
  split; [exact Hwf|].
  destruct (staged_worker_steps sample_config node_2 "echo ok" "/tmp/job.sh" "" 600 st Hwf)
    as (r & st' & seg & Hrun & Htr & Hout & _ & _ & Hok).
  exists r, st', seg. split; [exact Hrun|]. split; [exact Htr|].
  split; [exact Hout|exact Hok].
Defined.

Lemma empty_id_list_targets_witness :
  let st := initial_state (0 : @Env sample_host) in
  read_script "deploy.sh" st = (Val ("  echo $1 $2" ++ nl), st)
  ∧ upload_and_execute_script sample_config "deploy.sh" (Some []) "a b" 600 "/tmp" st
    = (Val [], st)
  ∧ execute_shell_command sample_config [] "uptime" (Some []) 600 st
    = execute_shell_command sample_config [] "uptime" None 600 st.
Proof.
  intros st.
  destruct (empty_id_list_targets sample_config [] "uptime" "echo ok" "deploy.sh"
              "temp_script.sh" "/tmp" "a b" 600 st) as (_ & Hshell & _ & _ & Hupload).
  assert (Hread : read_script "deploy.sh" st = (Val ("  echo $1 $2" ++ nl), st))
    by reflexivity.
  split; [exact Hread|]. split; [exact (Hupload _ Hread)|exact Hshell].
Defined.

Lemma connect_nodes_requests_witness :
  let st := initial_state (0 : @Env sample_host) in
  wf st
  ∧ ∃ res st' seg,
      connect_nodes sample_config [1%nat] [node_2; node_5] None st = (res, st')
      ∧ res ≠ Fault
      ∧ wf st'
      ∧ trace st' = (trace st ++ seg)%list
      ∧ ∀ i op, (i, op) ∈ seg →
          (∃ node, node ∈ [node_2; node_5] ∧ NodeConfig.id node = i)
          ∧ match op with
            | OpNewClient _ | OpConnect _ _ | OpClose _ => True
            | _ => False
            end.
Proof.
  intros st. assert (Hwf : wf st) by constructor.
  split; [exact Hwf|].
  exact (connect_nodes_requests sample_config [1%nat] [node_2; node_5] None st Hwf).
Defined.

(** ** The inline command *)

Section InlineFacts.

Lemma no_lf_app a b : no_lf (a ++ b) = no_lf a && no_lf b.
Proof.
  induction a as [|c a IH]; [done|].
  rewrite append_cons. simpl. rewrite IH. by destruct (Ascii.eqb c "010").
Qed.

Lemma no_space_cons c r :
  no_space (String c r) = Nat.eqb (Py.ws_width (String c r)) 0 && no_space r.
Proof. reflexivity. Qed.

Lemma no_space_no_lf s : no_space s = true → no_lf s = true.
Proof.
  induction s as [|c s IH]; [done|]. rewrite no_space_cons.
  intros [Hc Hs]%andb_true_iff. simpl. rewrite (IH Hs), andb_true_r.
  destruct (Ascii.eqb_spec c "010") as [->|]; [|done].
  by destruct s as [|? [|? ?]].
Qed.

Lemma split_ws_cons c r :
  Py.split_ws (String c r)
  = match Py.ws_width (String c r) with
    | 1%nat => Py.split_ws r
    | 2%nat => match r with
               | String _ r1 => Py.split_ws r1
               | EmptyString => []
               end
    | 3%nat => match r with
               | String _ (String _ r2) => Py.split_ws r2
               | _ => []
               end
    | _ =>
        match r with
        | EmptyString => [String c EmptyString]
        | String _ _ =>
            match Py.ws_width r with
            | O => match Py.split_ws r with
                   | h :: t => String c h :: t
                   | [] => [String c EmptyString]
                   end
            | _ => String c EmptyString :: Py.split_ws r
            end
        end
    end.
Proof. reflexivity. Qed.

(** The width of the character at the head of a text depends on three
    bytes at most; cutting the text short cannot make a white-space
    character appear. *)
Lemma ws_width_prefix c h rest :
  Py.ws_width (String c (h ++ rest)) = O → Py.ws_width (String c h) = O.
Proof.
  destruct h as [|c1 [|c2 h2]].
  - rewrite append_nil_l. unfold Py.ws_width. destruct (Py.isspace c); [|done].
    by destruct rest.
  - rewrite append_cons, append_nil_l. unfold Py.ws_width.
    destruct (Py.isspace c); [by destruct rest|].
    destruct (_ && _); [by destruct rest|done].
  - by rewrite !append_cons.
Qed.

Lemma ws_width_at_most_3 s :
  Py.ws_width s = O ∨ Py.ws_width s = 1%nat ∨ Py.ws_width s = 2%nat ∨ Py.ws_width s = 3%nat.
Proof.
  destruct s as [|c [|c1 [|c2 r]]]; unfold Py.ws_width.
  - by left.
  - destruct (Py.isspace c); auto.
  - destruct (Py.isspace c); [auto|]. destruct (_ && _); auto.
  - destruct (Py.isspace c); [auto|]. destruct (_ && _); [auto|].
    destruct (_ || _); auto.
Qed.

(** The first word of a text that starts with no white space is a prefix of
    the text. *)
Lemma split_ws_words_upto n :
  ∀ s, (String.length s ≤ n)%nat →
    Forall (fun w => Py.truthy w = true ∧ no_space w = true) (Py.split_ws s)
    ∧ ∀ c r, s = String c r → Py.ws_width s = O →
        ∃ h t rest, Py.split_ws s = String c h :: t ∧ r = h ++ rest.
Proof.
  induction n as [|n IH]; intros s Hlen.
  { destruct s; [|simpl in Hlen; lia]. split; [constructor|done]. }
  destruct s as [|c r]; [split; [constructor|done]|].
  simpl in Hlen. rewrite split_ws_cons.
  destruct (ws_width_at_most_3 (String c r)) as [Hw|[Hw|[Hw|Hw]]]; rewrite Hw.
  - assert (Hone : ∀ rest, r = "" ++ rest →
              Py.truthy (String c "") = true ∧ no_space (String c "") = true).
    { intros rest Hr. split; [done|]. rewrite no_space_cons.
      rewrite (ws_width_prefix c "" rest) by by rewrite <- Hr. done. }
    destruct r as [|c' r'].
    { split; [constructor; [by apply (Hone "")|constructor]|].
      intros ? ? [= <- <-] _. by exists "", [], "". }
    destruct (IH (String c' r') ltac:(simpl in *; lia)) as [Hwords Hhead].
    destruct (Py.ws_width (String c' r')) eqn:Hw'.
    + destruct (Hhead c' r' eq_refl eq_refl) as (h & t & rest & Hsplit & Hrest).
      rewrite Hsplit in Hwords |- *. apply Forall_cons in Hwords as [[_ Hh] Ht].
      split.
      * constructor; [|done]. split; [done|]. rewrite no_space_cons, Hh, andb_true_r.
        rewrite (ws_width_prefix c (String c' h) rest); [done|].
        by rewrite append_cons, <- Hrest.
      * intros ? ? [= <- <-] _. exists (String c' h), t, rest.
        split; [done|]. by rewrite append_cons, <- Hrest.
    + split.
      * constructor; [by apply (Hone (String c' r'))|done].
      * intros ? ? [= <- <-] _. by exists "", (Py.split_ws (String c' r')), (String c' r').
  - destruct (IH r ltac:(lia)) as [Hwords _]. split; [done|].
    intros ? ? [= <- <-] Hz. rewrite Hz in Hw. discriminate.
  - split; [|intros ? ? [= <- <-] Hz; rewrite Hz in Hw; discriminate].
    destruct r as [|c1 r1]; [constructor|].
    by destruct (IH r1 ltac:(simpl in *; lia)) as [Hwords _].
  - split; [|intros ? ? [= <- <-] Hz; rewrite Hz in Hw; discriminate].
    destruct r as [|c1 [|c2 r2]]; [constructor|constructor|].
    by destruct (IH r2 ltac:(simpl in *; lia)) as [Hwords _].
Qed.

Lemma no_lf_concat sep (l : list string) :
  no_lf sep = true → Forall (fun w => no_lf w = true) l →
  no_lf (String.concat sep l) = true.
Proof.
  intros Hsep. induction l as [|w l IH]; intros Hl; [done|].
  apply Forall_cons in Hl as [Hw Hl]. destruct l as [|w' l]; [done|].
  change (String.concat sep (w :: w' :: l))
    with (w ++ sep ++ String.concat sep (w' :: l)).
  by rewrite !no_lf_app, Hw, Hsep, IH.
Qed.

Lemma first_line_app a b : no_lf a = true → Py.first_line (a ++ nl ++ b) = a.
Proof.
  induction a as [|c a IH]; [done|].
  rewrite append_cons. simpl. intros [Hc Ha]%andb_true_iff.
  apply negb_true_iff in Hc. by rewrite Hc, IH.
Qed.

(** The words of [s.split()] are not empty and hold no white space. *)
Lemma split_ws_words s :
  Forall (fun w => Py.truthy w = true ∧ no_space w = true) (Py.split_ws s).
Proof. by destruct (split_ws_words_upto (String.length s) s). Qed.

(** X23. For every argument string that is not empty, the command of the
    inline variant is one line, [set --] followed by the white-space
    separated words of the argument string, each between double quotes and
    none of them empty, and then the stripped text of the file. That first
    line holds no line feed, so it is the first line of the command whatever
    the arguments are; an argument string of white space only gives [set --]
    with no word, which clears the positional parameters of the script. *)
Theorem inline_command_first_line text args :
  Py.truthy args = true →
  let words := Py.split_ws args in
  let set_line :=
    "set -- " ++ Py.join " " (List.map (fun arg => dquote ++ arg ++ dquote) words) in
  Forall (fun w => Py.truthy w = true ∧ no_space w = true) words
  ∧ inline_command text args = set_line ++ nl ++ Py.strip text
  ∧ Py.first_line (inline_command text args) = set_line
  ∧ (words = []%list → inline_command text args = "set -- " ++ nl ++ Py.strip text).
Proof.
  intros Htruthy words set_line.
  assert (Hcmd : inline_command text args = set_line ++ nl ++ Py.strip text).
  { unfold inline_command. by rewrite Htruthy. }
  split; [apply split_ws_words|]. split; [exact Hcmd|]. split.
  - rewrite Hcmd. apply first_line_app. unfold set_line.
    rewrite no_lf_app. apply andb_true_iff. split; [done|].
    apply no_lf_concat; [done|]. apply Forall_forall. intros q Hq.
    apply list_elem_of_In, in_map_iff in Hq as (w & <- & Hw).
    pose proof (split_ws_words args) as Hwords. rewrite Forall_forall in Hwords.
    destruct (Hwords w (proj2 (list_elem_of_In _ _) Hw)) as [_ Hns].
    rewrite !no_lf_app. by rewrite (no_space_no_lf w Hns).
  - intros Hnil. rewrite Hcmd. unfold set_line. by rewrite Hnil.
Qed.

End InlineFacts.

Lemma inline_command_first_line_witness :
  let words := Py.split_ws "--force   /var/log" in
  let set_line :=
    "set -- " ++ Py.join " " (List.map (fun arg => dquote ++ arg ++ dquote) words) in
  Py.truthy "--force   /var/log" = true
  ∧ words = ["--force"; "/var/log"]%list
  ∧ Py.first_line (inline_command "echo $2" "--force   /var/log") = set_line.
Proof.
  intros words set_line. split; [reflexivity|]. split; [reflexivity|].
  destruct (inline_command_first_line "echo $2" "--force   /var/log" eq_refl)
    as (_ & _ & Hline & _).
  exact Hline.
Defined.

(** White space is Python's: a no-break space (U+00A0, the bytes [C2 A0])
    and an ideographic space (U+3000, the bytes [E3 80 80]) separate words
    and are stripped; a zero-width space (U+200B, the bytes [E2 80 8B]) is
    not white space. *)
Example unicode_white_space :
  let nbsp := String "194" (String "160" "") in
  let ideographic := String "227" (String "128" (String "128" "")) in
  let zero_width := String "226" (String "128" (String "139" "")) in
  Py.split_ws ("a" ++ nbsp ++ "b" ++ ideographic ++ "c") = ["a"; "b"; "c"]%list
  ∧ Py.strip (ideographic ++ "echo ok" ++ nbsp ++ nl) = "echo ok"
  ∧ Py.split_ws ("a" ++ zero_width ++ "b") = [("a" ++ zero_width ++ "b")%string]%list
  ∧ inline_command ("echo ok" ++ nbsp) ("x" ++ nbsp ++ "y")
    = "set -- " ++ dquote ++ "x" ++ dquote ++ " " ++ dquote ++ "y" ++ dquote
      ++ nl ++ "echo ok".
Proof. repeat split. Qed.

(** ** Authentication *)

Section AuthFacts.

Context `{Collaborators}.

Local Open Scope list_scope.

(** X24. The handshake of [connect]. The address is the node's, the port
    and the user name are the node's when it has them and the ssh
    configuration's otherwise, the time limit is the ssh configuration's.
    When the ssh configuration names a key file that exists (after
    expansion of the home directory), the handshake is requested with that
    key file and no password, whatever passwords are configured. Otherwise
    it is requested with the first non-empty password among the node's, the
    ssh configuration's and the environment variable [SSH_PASSWORD]; when
    there is none, no handshake is requested at all: the client just created
    is closed and [connect] returns [False]. A failed handshake is followed
    by the closing of the client, a successful one by nothing. *)
Theorem connect_credentials self c st :
  heap st !! self = Some c →
  let node := SSHConnection.node c in
  let ssh := SSHConnection.ssh_config c in
  let i := NodeConfig.id node in
  let h := next_handle st in
  let key :=
    match SSHConfig.key_file ssh with
    | Some kf =>
        if Py.truthy kf && os_path_exists (env st) (os_path_expanduser (env st) kf)
        then Some (os_path_expanduser (env st) kf) else None
    | None => None
    end in
  let password :=
    or_opt (NodeConfig.password node)
      (or_opt (SSHConfig.password ssh) (os_getenv (env st) "SSH_PASSWORD")) in
  let kwargs key_filename password :=
    ConnectKwargs.mk (NodeConfig.ip node)
      (or_port (NodeConfig.port node) (SSHConfig.port ssh))
      (or_str (NodeConfig.username node) (SSHConfig.username ssh))
      (SSHConfig.timeout ssh) key_filename password in
  let attempt kw (b : bool) :=
    [(i, OpNewClient h); (i, OpConnect h kw)] ++ (if b then [] else [(i, OpClose h)]) in
  ∃ b st',
    connect self st = (Val b, st')
    ∧ match key with
      | Some k => trace st' = trace st ++ attempt (kwargs (Some k) None) b
      | None =>
          if opt_truthy password
          then trace st' = trace st ++ attempt (kwargs None password) b
          else b = false ∧ trace st' = trace st ++ [(i, OpNewClient h); (i, OpClose h)]
      end.
Proof.
  intros Hl node ssh i h key password kwargs attempt.
  unfold connect, bind at 1, load. rewrite Hl.
  unfold try_except, bind at 1, new_client.
  unfold bind at 1, update.
  unfold bind at 1. rewrite with_credentials_run.
  cbn [env heap connections next_handle trace with_heap with_env with_trace
       ConnectKwargs.hostname ConnectKwargs.port ConnectKwargs.username
       ConnectKwargs.timeout].
  fold node ssh i h. fold key. fold password.
  clearbody key password.
  destruct key as [k|]; [|destruct (opt_truthy password)].
  all: unfold bind, do_connect, now, ret, raise, load, close_client;
       cbn [env heap connections next_handle trace with_heap with_env with_trace
            ConnectKwargs.key_filename].
  1,2: match goal with
       | |- context [client_connect ?a ?b ?c] =>
           destruct (client_connect a b c) as [[msg|] e]
       end.
  all: cbn [env heap connections next_handle trace with_heap with_env with_trace
            ConnectKwargs.key_filename];
       rewrite ?list_lookup_alter_eq, ?Hl;
       cbn [env heap connections next_handle trace with_heap with_env with_trace
            option_map fmap option_fmap SSHConnection.client SSHConnection.set_client
            SSHConnection.set_connected].
  all: try match goal with
            | |- context [time_time ?x] => destruct (time_time x) as [t e0]
            end.
  all: eexists _, _; (split; [reflexivity|]);
       cbn [trace with_heap with_env with_trace]; subst attempt; cbn beta iota;
       rewrite <- ?app_assoc; try done.
Qed.

End AuthFacts.

Lemma connect_credentials_witness :
  let st := pool_state [node_2; node_5] in
  let c := SSHConnection.mk node_5 (Config.ssh sample_config) None false 0 in
  let kw := ConnectKwargs.mk "10.0.0.9" 22 "root" 30 None (Some "secret") in
  heap st !! 1%nat = Some c
  ∧ ∃ b st',
      connect 1 st = (Val b, st')
      ∧ trace st'
        = ([(5, OpNewClient 0); (5, OpConnect 0 kw)]
             ++ (if b then [] else [(5, OpClose 0)]))%list.
Proof.
  intros st c kw. split; [reflexivity|].
  exact (connect_credentials 1 c st eq_refl).
Defined.

(** ** Enabling and disabling a node *)

Section StatusFacts.

Import ConfigManager.

Lemma update_loop_ids node_id enabled nodes :
  List.map NodeConfig.id (update_loop node_id enabled nodes)
  = List.map NodeConfig.id nodes.
Proof.
  induction nodes as [|n rest IH]; simpl; [done|].
  destruct (NodeConfig.id n =? node_id); simpl; [done|]. by rewrite IH.
Qed.

Lemma update_loop_find node_id enabled nodes :
  match List.find (fun node => NodeConfig.id node =? node_id) nodes with
  | Some n =>
      List.find (fun node => NodeConfig.id node =? node_id)
        (update_loop node_id enabled nodes)
      = Some (NodeConfig.mk (NodeConfig.id n) (NodeConfig.ip n) (NodeConfig.name n)
                enabled (NodeConfig.username n) (NodeConfig.password n)
                (NodeConfig.port n))
  | None => update_loop node_id enabled nodes = nodes
  end.
Proof.
  induction nodes as [|n rest IH]; simpl; [done|].
  destruct (NodeConfig.id n =? node_id) eqn:Hid; simpl; [by rewrite Hid|].
  rewrite Hid. destruct (List.find _ rest); [done|]. by rewrite IH.
Qed.

Lemma update_loop_find_other node_id enabled nodes i :
  i ≠ node_id →
  List.find (fun node => NodeConfig.id node =? i) (update_loop node_id enabled nodes)
  = List.find (fun node => NodeConfig.id node =? i) nodes.
Proof.
  intros Hne. induction nodes as [|n rest IH]; simpl; [done|].
  destruct (Z.eqb_spec (NodeConfig.id n) node_id) as [Heq|Hid]; simpl.
  - destruct (Z.eqb_spec (NodeConfig.id n) i) as [Hi|_]; [congruence|done].
  - by rewrite IH.
Qed.

Lemma update_loop_again node_id enabled nodes :
  update_loop node_id enabled (update_loop node_id enabled nodes)
  = update_loop node_id enabled nodes.
Proof.
  induction nodes as [|n rest IH]; simpl; [done|].
  destruct (NodeConfig.id n =? node_id) eqn:Hid; simpl; rewrite Hid; [done|].
  by rewrite IH.
Qed.

(** X25. [update_node_status] keeps the nodes, their order and their
    ids, and touches nothing but the [enabled] flag of the node that
    [get_node_by_id] finds for the id (the first one, should the id occur
    twice); every other id is looked up as before. For an id that no node
    has, it changes nothing and reports nothing. Doing it twice is the same
    as doing it once. *)
Theorem update_node_status_first_match cfg node_id enabled :
  let cfg' := update_node_status cfg node_id enabled in
  List.map NodeConfig.id (Config.nodes cfg') = List.map NodeConfig.id (Config.nodes cfg)
  ∧ match get_node_by_id cfg node_id with
    | Some n =>
        get_node_by_id cfg' node_id
        = Some (NodeConfig.mk (NodeConfig.id n) (NodeConfig.ip n) (NodeConfig.name n)
                  enabled (NodeConfig.username n) (NodeConfig.password n)
                  (NodeConfig.port n))
    | None => cfg' = cfg
    end
  ∧ (∀ i, i ≠ node_id → get_node_by_id cfg' i = get_node_by_id cfg i)
  ∧ update_node_status cfg' node_id enabled = cfg'.
Proof.
  intros cfg'. subst cfg'. unfold update_node_status, get_node_by_id, get_nodes. simpl.
  split; [apply update_loop_ids|]. split; [|split].
  - pose proof (update_loop_find node_id enabled (Config.nodes cfg)) as Hfind.
    destruct (List.find _ (Config.nodes cfg)); [done|].
    rewrite Hfind. by destruct cfg.
  - intros i Hne. by apply update_loop_find_other.
  - by rewrite update_loop_again.
Qed.

End StatusFacts.

(** ** Reconnecting *)

Section Reconnecting.

Context `{Collaborators}.

Variable cfg : Config.t.

Local Open Scope list_scope.

Lemma failed_loop_unknown nodes :
  ∀ failed_nodes st,
    (∀ node, node ∈ nodes → dict_get (connections st) (NodeConfig.id node) = None) →
    failed_loop nodes failed_nodes st = (Val (failed_nodes ++ nodes), st).
Proof.
  induction nodes as [|node rest IH]; intros failed_nodes st Hnone; simpl.
  - by rewrite app_nil_r.
  - rewrite (Hnone node) by left. rewrite IH by (intros n Hn; apply Hnone; by right).
    by rewrite <- app_assoc.
Qed.

(** X26. For a non-empty list of nodes none of which has an object in the
    pool, [reconnect_failed_nodes] is [connect_nodes] on that list with the
    default worker count: every node is taken as failed, in list order, and
    nothing is disconnected first. *)
Theorem reconnect_failed_nodes_unknown sched nodes st :
  nodes ≠ [] →
  (∀ node, node ∈ nodes → dict_get (connections st) (NodeConfig.id node) = None) →
  reconnect_failed_nodes cfg sched nodes st = connect_nodes cfg sched nodes None st.
Proof.
  intros Hne Hnone. unfold reconnect_failed_nodes, bind.
  rewrite (failed_loop_unknown nodes [] st Hnone). simpl.
  by destruct nodes.
Qed.

End Reconnecting.

Lemma reconnect_failed_nodes_unknown_witness :
  let st := initial_state (0 : @Env sample_host) in
  ([node_2; node_5] ≠ []
   ∧ ∀ node, node ∈ [node_2; node_5] →
       dict_get (connections st) (NodeConfig.id node) = None)
  ∧ reconnect_failed_nodes sample_config [] [node_2; node_5] st
    = connect_nodes sample_config [] [node_2; node_5] None st.
Proof.
  intros st.
  assert (Hne : [node_2; node_5] ≠ []) by discriminate.
  assert (Hnone : ∀ node, node ∈ [node_2; node_5] →
            dict_get (connections st) (NodeConfig.id node) = None) by reflexivity.
  split; [split; [exact Hne|exact Hnone]|].
  exact (reconnect_failed_nodes_unknown sample_config [] [node_2; node_5] st Hne Hnone).
Defined.
